(** * electron-ipc-methods: the main-process side of the IPC protocol

    A shallow embedding of [main_ipc.ts]: exposure of main APIs
    ([exposeMainApi]), discovery ([_installIpcListeners]) and binding to
    window APIs ([bindWindowApi], [_attemptBindWindowApi]).  The module
    variables of the source and the parts of Electron the code touches
    (the [ipcMain] registry, the messages written with
    [webContents.send], promises and timers) are threaded explicitly
    through a [State] record. *)

From stdpp Require Import base option list gmap strings pretty.
From Stdlib Require Import ZArith Lia Ascii.

Open Scope string_scope.
Open Scope Z_scope.
Open Scope list_scope.

Set Warnings "-register-all".

(** ** JavaScript values *)

(** The values that travel as arguments, results and thrown values.
    [VObject cls fields] is an instance whose [constructor.name] is
    [cls]; errors are objects too.  [VRelayedError e] is an instance of
    the class [RelayedError] of [main_ipc.ts], the only values for
    which [err instanceof RelayedError] holds. *)
Inductive value : Type :=
  | VUndefined
  | VNull
  | VBool (b : bool)
  | VNumber (n : Z)
  | VString (s : string)
  | VArray (elems : list value)
  | VObject (cls : string) (fields : list (string * value))
  | VRelayedError (errorToRelay : value).

(** Outcome of evaluating (and awaiting) an expression. *)
Inductive Completion (A : Type) : Type :=
  | Normal (a : A)
  | Throw (err : value).
Arguments Normal {A} a.
Arguments Throw {A} err.

(** The [TypeError] raised by spreading [undefined] into a call. *)
Definition spread_TypeError : value :=
  VObject "TypeError" [("message", VString "args is not iterable")].

(** ** The modules [restorer] and [shared_ipc] *)

(** What a call of [Restorer.makeRestorable(obj)] leaves behind: the
    value it returns and the state of the object it was handed (an
    engine that tags objects in place changes its argument; one that
    copies leaves it as it was). *)
Record Encoding : Type := {
  returned : value;
  in_place : value
}.

(** The interface of the module [restorer], whose code is imported by
    [main_ipc.ts] and is not part of it.  [restoreValue] runs the
    caller's restorer function and so may throw.  The first three
    functions are the ones [main_ipc.ts] calls; [restoreReply] is what
    the spec has the caller of a main API do with a reply: decode it,
    and raise the restored error when the reply is tagged as a returned
    error. *)
Class Restorer : Type := {
  RestorerFunction : Type;
  makeRestorable : value -> Encoding;
  restoreValue : value -> option RestorerFunction -> Completion value;
  makeReturnedError : value -> value;
  restoreReply : value -> option RestorerFunction -> Completion value
}.

(** The part of [shared_ipc] that is declared without a body:
    the channel naming function and the two timing settings read by
    [retryUntilTimeout]. *)
Class SharedIpc : Type := {
  toIpcName : string -> string -> string;
  bindingTimeoutMillis : Z;
  retryMillis : Z
}.

Definition API_REQUEST_IPC : string := "__api_request".
Definition API_RESPONSE_IPC : string := "__api_response".

(** [ApiRegistration]: [methodNames] is [None] when the property holds
    [undefined], which is what [_mainApiMap[apiClassName]] yields for a
    class that is not in the map. *)
Record ApiRegistration : Type := {
  className : string;
  methodNames : option (list string)
}.

(** ** API objects *)

(** A property of an API object: a function (with [this] bound to the
    object, as [method.bind(mainApi)] does; its result is the awaited
    outcome of the call) or any other value. *)
Inductive Property : Type :=
  | PFunction (f : list value -> Completion value)
  | PData (v : value).

(** An API instance: the name of its class and its properties, own
    properties first, those of the prototype chain after them. *)
Record ApiObject : Type := {
  constructor_name : string;
  properties : list (string * Property)
}.

(** Modelled from the spec: [getPropertyNames] is declared in
    [shared_ipc] and its body is missing; it enumerates the names of
    the object's properties. *)
Definition getPropertyNames (obj : ApiObject) : list string :=
  map fst (properties obj).

(** [obj[name]]: the first property of that name, [undefined] when
    there is none. *)
Fixpoint lookup_property (props : list (string * Property)) (name : string)
  : Property :=
  match props with
  | [] => PData VUndefined
  | (n, p) :: rest =>
      if String.eqb n name then p else lookup_property rest name
  end.

Definition get_property (obj : ApiObject) (name : string) : Property :=
  lookup_property (properties obj) name.

(** [typeof p == "function"] *)
Definition is_function (p : Property) : bool :=
  match p with
  | PFunction _ => true
  | PData _ => false
  end.

(** [["_", "#"].includes(methodName[0])]; [methodName[0]] of the empty
    string is [undefined], which the array does not include. *)
Definition has_private_marker (methodName : string) : bool :=
  match methodName with
  | EmptyString => false
  | String c _ => Ascii.eqb c "_"%char || Ascii.eqb c "#"%char
  end.

(** The guard of the loop of [exposeMainApi]:
    [methodName != "constructor" && !["_", "#"].includes(methodName[0])]. *)
Definition passes_name_guard (methodName : string) : bool :=
  negb (String.eqb methodName "constructor")
  && negb (has_private_marker methodName).

(** ** Electron objects and the process state *)

Record BrowserWindow : Type := {
  window_id : Z;
  webContents_id : Z
}.

(** What is written to a channel. *)
Inductive Payload : Type :=
  | PClassName (apiClassName : string)
  | PRegistration (api : ApiRegistration)
  | PArgs (args : list value).

(** A message written with [send] to the renderer whose web contents
    has the given ID. *)
Record Message : Type := {
  msg_to : Z;
  msg_channel : string;
  msg_payload : Payload
}.

(** The closure passed to [ipcMain.handle] by [exposeMainApi]: it
    captures [method] (bound to the API) and [restorer]. *)
Record CallHandler `{Restorer} : Type := {
  h_method : list value -> Completion value;
  h_restorer : option RestorerFunction
}.

(** The two closures passed to [ipcMain.on] by [_installIpcListeners]. *)
Inductive Listener : Type :=
  | OnApiRequest
  | OnApiResponse.

(** A bound window API: the object [boundApi] built by
    [_attemptBindWindowApi].  Each of its methods captures the window,
    the class name and its own name. *)
Record BoundApi : Type := {
  bound_window : BrowserWindow;
  bound_class : string;
  bound_methods : list string
}.

(** The promise returned by [bindWindowApi]; a fulfilled one holds the
    reference of the bound API it was resolved with. *)
Inductive PromiseState : Type :=
  | Pending
  | Fulfilled (boundApi : nat)
  | Rejected (err : value).

(** The closure [retryUntilTimeout] hands to [setTimeout]: a further
    call of itself, with the attempt function of one [bindWindowApi]
    call (window, class name and the [resolve] of its promise). *)
Record RetryTask : Type := {
  rt_elapsedMillis : Z;
  rt_window : BrowserWindow;
  rt_apiClassName : string;
  rt_promise : nat;
  rt_timeoutMessage : string
}.

Record Timer : Type := {
  due : Z;
  task : RetryTask
}.

(** The state of the main process.  The first five fields are the
    module variables of [main_ipc.ts]; a JavaScript object used as a
    map is a [gmap] (class names are taken not to be names that every
    object inherits, such as [toString]).  The others are the part of
    the runtime the code acts on: responders and listeners of
    [ipcMain], the messages sent so far, the calls of the error logger,
    the heap of bound API objects (a reference is an index, so two
    objects are identical exactly when their references are equal),
    the promises made, pending timers, the clock, and the exceptions no
    one caught. *)
Record State `{Restorer} : Type := {
  _mainApiMap : gmap string (list string);
  _errorLoggerFunc : option nat;
  _windowApiMapByWebContentsID : gmap Z (gmap string (option (list string)));
  _boundWindowApisByWindowID : gmap Z (gmap string nat);
  _listeningForIPC : bool;
  handlers : list (string * CallHandler);
  listeners : list (string * Listener);
  sent : list Message;
  logged : list (nat * value);
  heap : list BoundApi;
  promises : list PromiseState;
  timers : list Timer;
  now : Z;
  uncaught : list value
}.

(** ** Field updates *)

Section Operations.
Context `{Restorer} `{SharedIpc}.

Definition set_mainApiMap (x : gmap string (list string)) (st : State) : State :=
  {| _mainApiMap := x; _errorLoggerFunc := _errorLoggerFunc st;
     _windowApiMapByWebContentsID := _windowApiMapByWebContentsID st;
     _boundWindowApisByWindowID := _boundWindowApisByWindowID st;
     _listeningForIPC := _listeningForIPC st; handlers := handlers st;
     listeners := listeners st; sent := sent st; logged := logged st;
     heap := heap st; promises := promises st; timers := timers st;
     now := now st; uncaught := uncaught st |}.

Definition set_errorLoggerFunc (x : option nat) (st : State) : State :=
  {| _mainApiMap := _mainApiMap st; _errorLoggerFunc := x;
     _windowApiMapByWebContentsID := _windowApiMapByWebContentsID st;
     _boundWindowApisByWindowID := _boundWindowApisByWindowID st;
     _listeningForIPC := _listeningForIPC st; handlers := handlers st;
     listeners := listeners st; sent := sent st; logged := logged st;
     heap := heap st; promises := promises st; timers := timers st;
     now := now st; uncaught := uncaught st |}.

Definition set_windowApiMapByWebContentsID (x : gmap Z (gmap string (option (list string)))) (st : State) : State :=
  {| _mainApiMap := _mainApiMap st;
     _errorLoggerFunc := _errorLoggerFunc st;
     _windowApiMapByWebContentsID := x;
     _boundWindowApisByWindowID := _boundWindowApisByWindowID st;
     _listeningForIPC := _listeningForIPC st; handlers := handlers st;
     listeners := listeners st; sent := sent st; logged := logged st;
     heap := heap st; promises := promises st; timers := timers st;
     now := now st; uncaught := uncaught st |}.

Definition set_boundWindowApisByWindowID (x : gmap Z (gmap string nat)) (st : State) : State :=
  {| _mainApiMap := _mainApiMap st;
     _errorLoggerFunc := _errorLoggerFunc st;
     _windowApiMapByWebContentsID := _windowApiMapByWebContentsID st;
     _boundWindowApisByWindowID := x;
     _listeningForIPC := _listeningForIPC st; handlers := handlers st;
     listeners := listeners st; sent := sent st; logged := logged st;
     heap := heap st; promises := promises st; timers := timers st;
     now := now st; uncaught := uncaught st |}.

Definition set_listeningForIPC (x : bool) (st : State) : State :=
  {| _mainApiMap := _mainApiMap st;
     _errorLoggerFunc := _errorLoggerFunc st;
     _windowApiMapByWebContentsID := _windowApiMapByWebContentsID st;
     _boundWindowApisByWindowID := _boundWindowApisByWindowID st;
     _listeningForIPC := x; handlers := handlers st;
     listeners := listeners st; sent := sent st; logged := logged st;
     heap := heap st; promises := promises st; timers := timers st;
     now := now st; uncaught := uncaught st |}.

Definition set_handlers (x : list (string * CallHandler)) (st : State) : State :=
  {| _mainApiMap := _mainApiMap st;
     _errorLoggerFunc := _errorLoggerFunc st;
     _windowApiMapByWebContentsID := _windowApiMapByWebContentsID st;
     _boundWindowApisByWindowID := _boundWindowApisByWindowID st;
     _listeningForIPC := _listeningForIPC st; handlers := x;
     listeners := listeners st; sent := sent st; logged := logged st;
     heap := heap st; promises := promises st; timers := timers st;
     now := now st; uncaught := uncaught st |}.

Definition set_listeners (x : list (string * Listener)) (st : State) : State :=
  {| _mainApiMap := _mainApiMap st;
     _errorLoggerFunc := _errorLoggerFunc st;
     _windowApiMapByWebContentsID := _windowApiMapByWebContentsID st;
     _boundWindowApisByWindowID := _boundWindowApisByWindowID st;
     _listeningForIPC := _listeningForIPC st; handlers := handlers st;
     listeners := x; sent := sent st; logged := logged st; heap := heap st;
     promises := promises st; timers := timers st; now := now st;
     uncaught := uncaught st |}.

Definition set_sent (x : list Message) (st : State) : State :=
  {| _mainApiMap := _mainApiMap st;
     _errorLoggerFunc := _errorLoggerFunc st;
     _windowApiMapByWebContentsID := _windowApiMapByWebContentsID st;
     _boundWindowApisByWindowID := _boundWindowApisByWindowID st;
     _listeningForIPC := _listeningForIPC st; handlers := handlers st;
     listeners := listeners st; sent := x; logged := logged st;
     heap := heap st; promises := promises st; timers := timers st;
     now := now st; uncaught := uncaught st |}.

Definition set_logged (x : list (nat * value)) (st : State) : State :=
  {| _mainApiMap := _mainApiMap st;
     _errorLoggerFunc := _errorLoggerFunc st;
     _windowApiMapByWebContentsID := _windowApiMapByWebContentsID st;
     _boundWindowApisByWindowID := _boundWindowApisByWindowID st;
     _listeningForIPC := _listeningForIPC st; handlers := handlers st;
     listeners := listeners st; sent := sent st; logged := x;
     heap := heap st; promises := promises st; timers := timers st;
     now := now st; uncaught := uncaught st |}.

Definition set_heap (x : list BoundApi) (st : State) : State :=
  {| _mainApiMap := _mainApiMap st;
     _errorLoggerFunc := _errorLoggerFunc st;
     _windowApiMapByWebContentsID := _windowApiMapByWebContentsID st;
     _boundWindowApisByWindowID := _boundWindowApisByWindowID st;
     _listeningForIPC := _listeningForIPC st; handlers := handlers st;
     listeners := listeners st; sent := sent st; logged := logged st;
     heap := x; promises := promises st; timers := timers st;
     now := now st; uncaught := uncaught st |}.

Definition set_promises (x : list PromiseState) (st : State) : State :=
  {| _mainApiMap := _mainApiMap st;
     _errorLoggerFunc := _errorLoggerFunc st;
     _windowApiMapByWebContentsID := _windowApiMapByWebContentsID st;
     _boundWindowApisByWindowID := _boundWindowApisByWindowID st;
     _listeningForIPC := _listeningForIPC st; handlers := handlers st;
     listeners := listeners st; sent := sent st; logged := logged st;
     heap := heap st; promises := x; timers := timers st; now := now st;
     uncaught := uncaught st |}.

Definition set_timers (x : list Timer) (st : State) : State :=
  {| _mainApiMap := _mainApiMap st;
     _errorLoggerFunc := _errorLoggerFunc st;
     _windowApiMapByWebContentsID := _windowApiMapByWebContentsID st;
     _boundWindowApisByWindowID := _boundWindowApisByWindowID st;
     _listeningForIPC := _listeningForIPC st; handlers := handlers st;
     listeners := listeners st; sent := sent st; logged := logged st;
     heap := heap st; promises := promises st; timers := x; now := now st;
     uncaught := uncaught st |}.

Definition set_now (x : Z) (st : State) : State :=
  {| _mainApiMap := _mainApiMap st;
     _errorLoggerFunc := _errorLoggerFunc st;
     _windowApiMapByWebContentsID := _windowApiMapByWebContentsID st;
     _boundWindowApisByWindowID := _boundWindowApisByWindowID st;
     _listeningForIPC := _listeningForIPC st; handlers := handlers st;
     listeners := listeners st; sent := sent st; logged := logged st;
     heap := heap st; promises := promises st; timers := timers st;
     now := x; uncaught := uncaught st |}.

Definition set_uncaught (x : list value) (st : State) : State :=
  {| _mainApiMap := _mainApiMap st;
     _errorLoggerFunc := _errorLoggerFunc st;
     _windowApiMapByWebContentsID := _windowApiMapByWebContentsID st;
     _boundWindowApisByWindowID := _boundWindowApisByWindowID st;
     _listeningForIPC := _listeningForIPC st; handlers := handlers st;
     listeners := listeners st; sent := sent st; logged := logged st;
     heap := heap st; promises := promises st; timers := timers st;
     now := now st; uncaught := x |}.

(** The process at start-up, with the clock at zero. *)
Definition initial_state : State :=
  {| _mainApiMap := ∅; _errorLoggerFunc := None;
     _windowApiMapByWebContentsID := ∅; _boundWindowApisByWindowID := ∅;
     _listeningForIPC := false; handlers := []; listeners := [];
     sent := []; logged := []; heap := []; promises := []; timers := [];
     now := 0; uncaught := [] |}.

(** ** The Electron primitives the code calls *)

(** [ipcMain.handle(channel, handler)], when it returns: the
    registrations are kept in their order.  Electron keeps one
    responder per channel and throws when the channel already has one;
    the call with this check is [ipcMain_handle_or_throw] below. *)
Definition ipcMain_handle (st : State) (channel : string) (h : CallHandler)
  : State :=
  set_handlers (handlers st ++ [(channel, h)]) st.

(** [ipcMain.on(channel, listener)] *)
Definition ipcMain_on (st : State) (channel : string) (l : Listener) : State :=
  set_listeners (listeners st ++ [(channel, l)]) st.

(** [webContents.send(channel, payload)] on the web contents [to]. *)
Definition webContents_send (st : State) (to : Z) (channel : string)
    (payload : Payload) : State :=
  set_sent (sent st ++ [{| msg_to := to; msg_channel := channel;
                           msg_payload := payload |}]) st.

(** Timers are kept in the order in which they fire: by due time, and
    in the order of their creation when due together. *)
Fixpoint insert_timer (t : Timer) (ts : list Timer) : list Timer :=
  match ts with
  | [] => [t]
  | t' :: rest =>
      if due t <? due t' then t :: ts else t' :: insert_timer t rest
  end.

(** [setTimeout(task, delay)] *)
Definition setTimeout (st : State) (k : RetryTask) (delay : Z) : State :=
  set_timers (insert_timer {| due := now st + delay; task := k |} (timers st))
    st.

(** Settling a promise; a settled promise stays as it is. *)
Definition resolve_promise (st : State) (p : nat) (boundApi : nat) : State :=
  match promises st !! p with
  | Some Pending => set_promises (<[p := Fulfilled boundApi]> (promises st)) st
  | _ => st
  end.

Definition reject_promise (st : State) (p : nat) (err : value) : State :=
  match promises st !! p with
  | Some Pending => set_promises (<[p := Rejected err]> (promises st)) st
  | _ => st
  end.

(** [Error(message)] *)
Definition Error_ (message : string) : value :=
  VObject "Error" [("message", VString message)].

(** ** Common support: the discovery listeners *)

(** [_installIpcListeners] *)
Definition _installIpcListeners (st : State) : State :=
  if _listeningForIPC st then st
  else
    let st := ipcMain_on st API_REQUEST_IPC OnApiRequest in
    let st := ipcMain_on st API_RESPONSE_IPC OnApiResponse in
    set_listeningForIPC true st.

(** The listener of [API_REQUEST_IPC]; [sender] is the ID of
    [event.sender]. *)
Definition on_api_request (st : State) (sender : Z) (apiClassName : string)
  : State :=
  let registration :=
    {| className := apiClassName;
       methodNames := _mainApiMap st !! apiClassName |} in
  webContents_send st sender API_RESPONSE_IPC (PRegistration registration).

(** The listener of [API_RESPONSE_IPC]. *)
Definition on_api_response (st : State) (sender : Z) (api : ApiRegistration)
  : State :=
  let windowApiMap :=
    default ∅ (_windowApiMapByWebContentsID st !! sender) in
  set_windowApiMapByWebContentsID
    (<[sender := <[className api := methodNames api]> windowApiMap]>
       (_windowApiMapByWebContentsID st)) st.

(** Running a listener on a message; a payload that is not of the type
    the listener declares is left alone. *)
Definition run_listener (st : State) (l : Listener) (sender : Z)
    (payload : Payload) : State :=
  match l, payload with
  | OnApiRequest, PClassName apiClassName =>
      on_api_request st sender apiClassName
  | OnApiResponse, PRegistration api => on_api_response st sender api
  | _, _ => st
  end.

(** Delivery of a message from the renderer [sender] on [channel]:
    every listener of the channel runs, in the order of installation. *)
Definition ipcMain_emit (st : State) (channel : string) (sender : Z)
    (payload : Payload) : State :=
  fold_left
    (fun st (entry : string * Listener) =>
       if String.eqb (fst entry) channel
       then run_listener st (snd entry) sender payload
       else st)
    (listeners st) st.

(** ** Main API support *)

(** [setIpcErrorLogger]; a logger is known by a number, and each of its
    calls is recorded in [logged]. *)
Definition setIpcErrorLogger (st : State) (loggerFunc : nat) : State :=
  set_errorLoggerFunc (Some loggerFunc) st.

(** [if (_errorLoggerFunc !== undefined) _errorLoggerFunc(err)] *)
Definition log_error (st : State) (err : value) : State :=
  match _errorLoggerFunc st with
  | Some loggerFunc => set_logged (logged st ++ [(loggerFunc, err)]) st
  | None => st
  end.

(** The loop [args[i] = Restorer.restoreValue(args[i], restorer)]; it
    ends at the first call that throws. *)
Fixpoint restoreArgs (args : list value) (restorer : option RestorerFunction)
  : Completion (list value) :=
  match args with
  | [] => Normal []
  | arg :: rest =>
      match restoreValue arg restorer with
      | Throw err => Throw err
      | Normal arg' =>
          match restoreArgs rest restorer with
          | Throw err => Throw err
          | Normal rest' => Normal (arg' :: rest')
          end
      end
  end.

(** The [try] block of the handler up to the [await]: [args] is [None]
    for [undefined], which skips the restoration and makes the spread
    [...args] throw. *)
Definition handler_try (h : CallHandler) (args : option (list value))
  : Completion value :=
  match args with
  | Some args =>
      match restoreArgs args (h_restorer h) with
      | Normal args' => h_method h args'
      | Throw err => Throw err
      end
  | None => Throw spread_TypeError
  end.

(** The handler installed by [exposeMainApi] for one method; the
    branch on [VRelayedError] is [err instanceof RelayedError]. *)
Definition call_handler (st : State) (h : CallHandler)
    (args : option (list value)) : State * Completion value :=
  match handler_try h args with
  | Normal replyValue => (st, Normal (returned (makeRestorable replyValue)))
  | Throw err =>
      match err with
      | VRelayedError errorToRelay =>
          (st, Normal (makeReturnedError errorToRelay))
      | _ => (log_error st err, Throw err)
      end
  end.

(** The body of the loop of [exposeMainApi] over the property names,
    when no call of [ipcMain.handle] in it throws; [methodNames] is the
    array being filled. *)
Fixpoint expose_methods (mainApi : ApiObject)
    (restorer : option RestorerFunction) (apiClassName : string)
    (names : list string) (st : State) (methodNames : list string)
  : State * list string :=
  match names with
  | [] => (st, methodNames)
  | methodName :: rest =>
      if passes_name_guard methodName then
        match get_property mainApi methodName with
        | PFunction method =>
            let h := {| h_method := method; h_restorer := restorer |} in
            expose_methods mainApi restorer apiClassName rest
              (ipcMain_handle st (toIpcName apiClassName methodName) h)
              (methodNames ++ [methodName])
        | PData _ =>
            expose_methods mainApi restorer apiClassName rest st methodNames
        end
      else expose_methods mainApi restorer apiClassName rest st methodNames
  end.

(** [exposeMainApi], when it returns. *)
Definition exposeMainApi (st : State) (mainApi : ApiObject)
    (restorer : option RestorerFunction) : State :=
  let apiClassName := constructor_name mainApi in
  let st := _installIpcListeners st in
  match _mainApiMap st !! apiClassName with
  | Some _ => st
  | None =>
      let '(st', methodNames) :=
        expose_methods mainApi restorer apiClassName
          (getPropertyNames mainApi) st [] in
      set_mainApiMap (<[apiClassName := methodNames]> (_mainApiMap st')) st'
  end.

(** ** Exposure with the check of [ipcMain.handle]

    Electron's [ipcMain.handle] throws when the channel already has a
    handler, and registers nothing then.  [ipcMain_handle],
    [expose_methods] and [exposeMainApi] above give the state of a call
    in which this does not happen.  The definitions below follow the
    same code with the check: the exception leaves the loop of
    [exposeMainApi], and the function, before [_mainApiMap] is
    written; the handlers installed until then stay. *)

(** The error of a second [ipcMain.handle] on a channel. *)
Definition second_handler_Error (channel : string) : value :=
  Error_ ("Attempted to register a second handler for '" +:+ channel +:+ "'").

(** [ipcMain.handle(channel, handler)] *)
Definition ipcMain_handle_or_throw (st : State) (channel : string)
    (h : CallHandler) : Completion State :=
  if bool_decide (channel ∈ (handlers st).*1)
  then Throw (second_handler_Error channel)
  else Normal (ipcMain_handle st channel h).

(** The loop of [exposeMainApi]; it ends at the first call of
    [ipcMain.handle] that throws, with the state reached. *)
Fixpoint expose_methods_or_throw (mainApi : ApiObject)
    (restorer : option RestorerFunction) (apiClassName : string)
    (names : list string) (st : State) (methodNames : list string)
  : State * Completion (list string) :=
  match names with
  | [] => (st, Normal methodNames)
  | methodName :: rest =>
      if passes_name_guard methodName then
        match get_property mainApi methodName with
        | PFunction method =>
            let h := {| h_method := method; h_restorer := restorer |} in
            match ipcMain_handle_or_throw st
                    (toIpcName apiClassName methodName) h with
            | Normal st' =>
                expose_methods_or_throw mainApi restorer apiClassName rest
                  st' (methodNames ++ [methodName])
            | Throw err => (st, Throw err)
            end
        | PData _ =>
            expose_methods_or_throw mainApi restorer apiClassName rest st
              methodNames
        end
      else
        expose_methods_or_throw mainApi restorer apiClassName rest st
          methodNames
  end.

(** [exposeMainApi]: the state after the call, and whether it returned
    or threw. *)
Definition exposeMainApi_or_throw (st : State) (mainApi : ApiObject)
    (restorer : option RestorerFunction) : State * Completion unit :=
  let apiClassName := constructor_name mainApi in
  let st := _installIpcListeners st in
  match _mainApiMap st !! apiClassName with
  | Some _ => (st, Normal tt)
  | None =>
      match expose_methods_or_throw mainApi restorer apiClassName
              (getPropertyNames mainApi) st [] with
      | (st', Normal methodNames) =>
          (set_mainApiMap (<[apiClassName := methodNames]> (_mainApiMap st'))
             st',
           Normal tt)
      | (st', Throw err) => (st', Throw err)
      end
  end.

(** ** Window API support *)

(** [windowApiMap && windowApiMap[apiClassName]], when it is truthy:
    the method names received from that window for the class. *)
Definition registered_methodNames (st : State) (window : BrowserWindow)
    (apiClassName : string) : option (list string) :=
  match _windowApiMapByWebContentsID st !! webContents_id window with
  | Some windowApiMap =>
      match windowApiMap !! apiClassName with
      | Some (Some methodNames) => Some methodNames
      | _ => None
      end
  | None => None
  end.

(** [windowApis && windowApis[apiClassName]], when it is truthy: the
    bound API kept for the window and the class. *)
Definition cached_boundApi (st : State) (window : BrowserWindow)
    (apiClassName : string) : option nat :=
  match _boundWindowApisByWindowID st !! webContents_id window with
  | Some windowApis => windowApis !! apiClassName
  | None => None
  end.

(** [_attemptBindWindowApi]; [resolve] is the promise whose [resolve]
    function the source passes. *)
Definition _attemptBindWindowApi (st : State) (window : BrowserWindow)
    (apiClassName : string) (resolve : nat) : State * bool :=
  match registered_methodNames st window apiClassName with
  | None =>
      (webContents_send st (webContents_id window) API_REQUEST_IPC
         (PClassName apiClassName), false)
  | Some methodNames =>
      let boundApi := length (heap st) in
      let st :=
        set_heap (heap st ++ [{| bound_window := window;
                                 bound_class := apiClassName;
                                 bound_methods := methodNames |}]) st in
      let windowApis :=
        default ∅ (_boundWindowApisByWindowID st !! webContents_id window) in
      let st :=
        set_boundWindowApisByWindowID
          (<[webContents_id window := <[apiClassName := boundApi]> windowApis]>
             (_boundWindowApisByWindowID st)) st in
      (resolve_promise st resolve boundApi, true)
  end.

(** A method of a bound window API, called with [args] (a rest
    parameter, so never [undefined]): [makeRestorable] is called on each
    argument and what it returns is dropped, so the array sent holds the
    arguments as those calls left them.  [None] when the object has no
    such method. *)
Definition call_bound_method (st : State) (boundApi : nat)
    (methodName : string) (args : list value) : option (State * value) :=
  match heap st !! boundApi with
  | Some api =>
      if bool_decide (methodName ∈ bound_methods api) then
        let args := map (fun arg => in_place (makeRestorable arg)) args in
        Some (webContents_send st (webContents_id (bound_window api))
                (toIpcName (bound_class api) methodName) (PArgs args),
              VUndefined)
      else None
  | None => None
  end.

(** Modelled from the spec: [retryUntilTimeout] is declared in
    [shared_ipc] and its body is missing.  It makes an attempt; when the
    attempt fails it gives up once the time waited so far has reached
    the binding timeout, and otherwise waits one retry interval and
    starts over.  Its declaration hands it a message and no promise, so
    giving up is raising [Error(timeoutMessage)].  The attempt function
    is the closure of [bindWindowApi], kept in the task. *)
Definition retryUntilTimeout (st : State) (k : RetryTask)
  : State * Completion unit :=
  let '(st, bound) :=
    _attemptBindWindowApi st (rt_window k) (rt_apiClassName k)
      (rt_promise k) in
  if bound then (st, Normal tt)
  else if bindingTimeoutMillis <=? rt_elapsedMillis k
  then (st, Throw (Error_ (rt_timeoutMessage k)))
  else
    (setTimeout st
       {| rt_elapsedMillis := rt_elapsedMillis k + retryMillis;
          rt_window := rt_window k;
          rt_apiClassName := rt_apiClassName k;
          rt_promise := rt_promise k;
          rt_timeoutMessage := rt_timeoutMessage k |} retryMillis,
     Normal tt).

(** The message built by [bindWindowApi]. *)
Definition timeoutMessage (window : BrowserWindow) (apiClassName : string)
  : string :=
  "Main timed out waiting to bind to window API '" +:+ apiClassName +:+ "'"
  +:+ " (window ID " +:+ pretty (window_id window) +:+ ")".

(** [bindWindowApi]: the promise is made, and its executor runs at
    once; an exception leaving the executor rejects the promise. *)
Definition bindWindowApi (st : State) (window : BrowserWindow)
    (apiClassName : string) : State * nat :=
  let st := _installIpcListeners st in
  let promise := length (promises st) in
  let st := set_promises (promises st ++ [Pending]) st in
  match cached_boundApi st window apiClassName with
  | Some boundApi => (resolve_promise st promise boundApi, promise)
  | None =>
      let k := {| rt_elapsedMillis := 0;
                  rt_window := window;
                  rt_apiClassName := apiClassName;
                  rt_promise := promise;
                  rt_timeoutMessage := timeoutMessage window apiClassName |} in
      match retryUntilTimeout st k with
      | (st, Normal _) => (st, promise)
      | (st, Throw err) => (reject_promise st promise err, promise)
      end
  end.

(** The event loop runs the timer that is due first: the clock moves
    to its due time and its task runs.  An exception leaving a timer
    task is caught by no one. *)
Definition run_timer (st : State) : State :=
  match timers st with
  | [] => st
  | t :: rest =>
      let st := set_now (Z.max (now st) (due t)) (set_timers rest st) in
      match retryUntilTimeout st (task t) with
      | (st, Normal _) => st
      | (st, Throw err) => set_uncaught (uncaught st ++ [err]) st
      end
  end.

(** [n] turns of the event loop on timers. *)
Fixpoint run_timers (n : nat) (st : State) : State :=
  match n with
  | O => st
  | S n => run_timers n (run_timer st)
  end.

(** ** The caller of a main API *)

(** What a request/response call on a channel comes to for the caller. *)
Inductive CallOutcome : Type :=
  | Reply (v : value)
  | CallFailed (reason : value).

(** The responder of a channel. *)
Fixpoint find_handler (hs : list (string * CallHandler)) (channel : string)
  : option CallHandler :=
  match hs with
  | [] => None
  | (c, h) :: rest =>
      if String.eqb c channel then Some h else find_handler rest channel
  end.

(** Modelled from the spec: the request/response primitive of the
    channel, which belongs to Electron.  The value the responder returns
    is the reply; an exception leaving the responder, or a channel
    without responder, is a failed call carrying the failure. *)
Definition ipc_invoke (st : State) (channel : string)
    (args : option (list value)) : State * CallOutcome :=
  match find_handler (handlers st) channel with
  | None => (st, CallFailed (Error_ ("No handler registered for " +:+ channel)))
  | Some h =>
      match call_handler st h args with
      | (st, Normal v) => (st, Reply v)
      | (st, Throw err) => (st, CallFailed err)
      end
  end.

(** Modelled from the spec: a method of the proxy that [bindMainApi]
    builds in a window; [bindMainApi] is declared and its body is
    missing.  The arguments are encoded, the call is made on the channel
    of the method, a reply is decoded with the caller's restorer (a
    reply tagged as a returned error is raised), and a failed call
    rejects with the failure. *)
Definition call_main_method (st : State) (apiClassName methodName : string)
    (args : list value) (restorer : option RestorerFunction)
  : State * Completion value :=
  let args := map (fun arg => returned (makeRestorable arg)) args in
  match ipc_invoke st (toIpcName apiClassName methodName) (Some args) with
  | (st, Reply v) => (st, restoreReply v restorer)
  | (st, CallFailed reason) => (st, Throw reason)
  end.

End Operations.

(** ** What an exposure registers, and the life of the process *)

Section History.
Context `{Restorer} `{SharedIpc}.

(** The names [exposeMainApi] registers, of those it enumerates: they
    pass the guard on names and name a function. *)
Definition exposed_names (mainApi : ApiObject) (names : list string)
  : list string :=
  filter
    (fun methodName =>
       passes_name_guard methodName
       && is_function (get_property mainApi methodName) = true)
    names.

(** The handler [exposeMainApi] installs for a property, when the
    property is a function. *)
Definition method_handler (mainApi : ApiObject)
    (restorer : option RestorerFunction) (methodName : string)
  : option CallHandler :=
  match get_property mainApi methodName with
  | PFunction method => Some {| h_method := method; h_restorer := restorer |}
  | PData _ => None
  end.

(** The method names [exposeMainApi] registers for an API. *)
Definition registered_names (mainApi : ApiObject) : list string :=
  exposed_names mainApi (getPropertyNames mainApi).

(** The channels and handlers an exposure adds to [ipcMain]. *)
Definition installed_handlers (mainApi : ApiObject)
    (restorer : option RestorerFunction) (names : list string)
  : list (string * CallHandler) :=
  omap
    (fun methodName =>
       if passes_name_guard methodName then
         (fun h => (toIpcName (constructor_name mainApi) methodName, h))
           <$> method_handler mainApi restorer methodName
       else None)
    names.

(** The listeners [_installIpcListeners] installs. *)
Definition discovery_listeners : list (string * Listener) :=
  [(API_REQUEST_IPC, OnApiRequest); (API_RESPONSE_IPC, OnApiResponse)].

(** What happens to the main process: the calls of its exported
    functions, the calls of the methods of bound APIs, the arrival of a
    message or of a call from a renderer, and the firing of a timer. *)
Inductive Event : Type :=
  | Expose (mainApi : ApiObject) (restorer : option RestorerFunction)
  | SetLogger (loggerFunc : nat)
  | Bind (window : BrowserWindow) (apiClassName : string)
  | CallBound (boundApi : nat) (methodName : string) (args : list value)
  | Receive (channel : string) (sender : Z) (payload : Payload)
  | Invoke (channel : string) (args : option (list value))
  | Tick.

Definition step (st : State) (ev : Event) : State :=
  match ev with
  | Expose mainApi restorer => exposeMainApi st mainApi restorer
  | SetLogger loggerFunc => setIpcErrorLogger st loggerFunc
  | Bind window apiClassName => fst (bindWindowApi st window apiClassName)
  | CallBound boundApi methodName args =>
      match call_bound_method st boundApi methodName args with
      | Some (st, _) => st
      | None => st
      end
  | Receive channel sender payload => ipcMain_emit st channel sender payload
  | Invoke channel args => fst (ipc_invoke st channel args)
  | Tick => run_timer st
  end.

(** The state of the process after a history, from start-up. *)
Definition run (history : list Event) : State :=
  fold_left step history initial_state.

(** A step in which a call of [exposeMainApi] is followed with the
    check of [ipcMain.handle]: a call that throws leaves the state it
    had reached, and the process goes on. *)
Definition step_or_throw (st : State) (ev : Event) : State :=
  match ev with
  | Expose mainApi restorer => (exposeMainApi_or_throw st mainApi restorer).1
  | _ => step st ev
  end.

Definition run_or_throw (history : list Event) : State :=
  fold_left step_or_throw history initial_state.

(** Every call of [exposeMainApi] in a history that starts in state
    [st] returns. *)
Fixpoint exposures_return_from (st : State) (history : list Event) : bool :=
  match history with
  | [] => true
  | ev :: rest =>
      match ev with
      | Expose mainApi restorer =>
          match (exposeMainApi_or_throw st mainApi restorer).2 with
          | Normal _ => true
          | Throw _ => false
          end
      | _ => true
      end
      && exposures_return_from (step_or_throw st ev) rest
  end.

Definition exposures_return (history : list Event) : bool :=
  exposures_return_from initial_state history.

(** The first API of a class exposed in a history. *)
Fixpoint first_exposure (history : list Event) (apiClassName : string)
  : option ApiObject :=
  match history with
  | [] => None
  | Expose mainApi _ :: rest =>
      if String.eqb (constructor_name mainApi) apiClassName
      then Some mainApi else first_exposure rest apiClassName
  | _ :: rest => first_exposure rest apiClassName
  end.

(** The part of the state that exposing APIs and setting the logger
    decide. *)
Definition exposure_view (st : State)
  : gmap string (list string) * list (string * CallHandler) * option nat :=
  (_mainApiMap st, handlers st, _errorLoggerFunc st).

(** The listeners and the flag that guards their installation. *)
Definition listening_view (st : State) : list (string * Listener) * bool :=
  (listeners st, _listeningForIPC st).

(** The registration sent in answer to a discovery request. *)
Definition registration_reply (sender : Z) (apiClassName : string)
    (names : option (list string)) : Message :=
  {| msg_to := sender; msg_channel := API_RESPONSE_IPC;
     msg_payload :=
       PRegistration {| className := apiClassName; methodNames := names |} |}.

(** A discovery request. *)
Definition discovery_request (window : BrowserWindow) (apiClassName : string)
  : Message :=
  {| msg_to := webContents_id window; msg_channel := API_REQUEST_IPC;
     msg_payload := PClassName apiClassName |}.

(** The retry task of a [bindWindowApi] call, as it is when it runs for
    the [n]-th time after the call. *)
Definition retry_task (window : BrowserWindow) (apiClassName : string)
    (promise : nat) (n : Z) : RetryTask :=
  {| rt_elapsedMillis := n * retryMillis;
     rt_window := window;
     rt_apiClassName := apiClassName;
     rt_promise := promise;
     rt_timeoutMessage := timeoutMessage window apiClassName |}.

(** A [bindWindowApi] call made at time [t0] is still waiting after [i]
    runs of its retry task: no registration has come, its promise is
    pending, its task is the one timer, set for its next run, and the
    uncaught exceptions are those of before the call, [u0]. *)
Definition retry_waiting (window : BrowserWindow) (apiClassName : string)
    (promise : nat) (t0 : Z) (u0 : list value) (i : nat) (st : State)
  : Prop :=
  registered_methodNames st window apiClassName = None
  /\ promises st !! promise = Some Pending
  /\ uncaught st = u0
  /\ now st <= t0 + (Z.of_nat i + 1) * retryMillis
  /\ timers st
     = [{| due := t0 + (Z.of_nat i + 1) * retryMillis;
           task := retry_task window apiClassName promise (Z.of_nat i + 1) |}].

(** The number of runs of the retry task after which the time waited
    reaches the binding timeout. *)
Definition retries_to_timeout : nat :=
  Z.to_nat ((bindingTimeoutMillis + retryMillis - 1) / retryMillis).

End History.

(** ** A Restoration Engine and sample APIs

    The instances at which the results below are evaluated. *)

(** Modelled from the spec: the encoding of the Restoration Engine,
    whose code is missing.  Arrays and objects are walked; an instance
    of a class becomes a plain object tagged with the class name. *)
Fixpoint encode (v : value) : value :=
  match v with
  | VArray elems => VArray (map encode elems)
  | VObject cls fields =>
      let fields := map (fun f => (fst f, encode (snd f))) fields in
      if String.eqb cls "Object" then VObject cls fields
      else VObject "Object"
             (("__isRestorable", VBool true) :: ("className", VString cls)
              :: fields)
  | VRelayedError e =>
      VObject "Object"
        [("__isRestorable", VBool true); ("className", VString "RelayedError");
         ("errorToRelay", encode e)]
  | _ => v
  end.

(** A class lookup: from the class name and the fields to an instance,
    or nothing. *)
Definition ClassLookup : Type :=
  string -> list (string * value) -> option value.

Definition tagged_class (fields : list (string * value)) : option string :=
  match fields with
  | (k1, VBool true) :: (k2, VString cls) :: _ =>
      if String.eqb k1 "__isRestorable" && String.eqb k2 "className"
      then Some cls else None
  | _ => None
  end.

(** Modelled from the spec: the decoding of the Restoration Engine.  A
    tagged node is replaced by what the lookup makes of it, and is left
    as it is when there is no lookup or the lookup returns nothing. *)
Fixpoint decode (lookup : option ClassLookup) (v : value) : value :=
  match v with
  | VArray elems => VArray (map (decode lookup) elems)
  | VObject cls fields =>
      let fields := map (fun f => (fst f, decode lookup (snd f))) fields in
      match tagged_class fields, lookup with
      | Some c, Some f =>
          match f c (drop 2 fields) with
          | Some instance => instance
          | None => VObject cls fields
          end
      | _, _ => VObject cls fields
      end
  | _ => v
  end.

Definition encode_error (e : value) : value :=
  VObject "Object" [("__isReturnedError", VBool true); ("error", encode e)].

Definition decode_reply (v : value) (lookup : option ClassLookup)
  : Completion value :=
  match v with
  | VObject _ [(k1, VBool true); (k2, e)] =>
      if String.eqb k1 "__isReturnedError" && String.eqb k2 "error"
      then Throw (decode lookup e) else Normal (decode lookup v)
  | _ => Normal (decode lookup v)
  end.

(** An engine that returns the encoding and leaves its argument as it
    was. *)
Definition copying_restorer : Restorer :=
  {| RestorerFunction := ClassLookup;
     makeRestorable := fun v => {| returned := encode v; in_place := v |};
     restoreValue := fun v lookup => Normal (decode lookup v);
     makeReturnedError := encode_error;
     restoreReply := decode_reply |}.

(** An engine that writes the encoding into its argument. *)
Definition tagging_restorer : Restorer :=
  {| RestorerFunction := ClassLookup;
     makeRestorable :=
       fun v => {| returned := encode v; in_place := encode v |};
     restoreValue := fun v lookup => Normal (decode lookup v);
     makeReturnedError := encode_error;
     restoreReply := decode_reply |}.

(** Channel names of the form [Class:method], a timeout of 300 ms and a
    retry interval of 50 ms. *)
Definition sample_ipc : SharedIpc :=
  {| toIpcName := fun apiClassName methodName =>
       apiClassName +:+ ":" +:+ methodName;
     bindingTimeoutMillis := 300;
     retryMillis := 50 |}.

(** The class [Catter] of the test suite, and its lookup. *)
Definition catter (s1 s2 : string) : value :=
  VObject "Catter" [("s1", VString s1); ("s2", VString s2)].

Definition sample_lookup : ClassLookup :=
  fun cls fields =>
    if String.eqb cls "Catter" then Some (VObject "Catter" fields) else None.

Definition sample_restorer : option (@RestorerFunction copying_restorer) :=
  Some sample_lookup.

(** [hello(name)] of the scenario in the spec: it greets, and throws
    [RelayedError("bad name")] for the empty name. *)
Definition hello (args : list value) : Completion value :=
  match args with
  | VString name :: _ =>
      if String.eqb name "" then Throw (VRelayedError (VString "bad name"))
      else Normal (VString ("Hi, " +:+ name))
  | _ => Throw (Error_ "name is not a string")
  end.

(** A method that fails with a plain error. *)
Definition crash (args : list value) : Completion value :=
  Throw (Error_ "crashed").

(** A method that takes a [Catter] and returns it. *)
Definition echo (args : list value) : Completion value :=
  match args with
  | v :: _ => Normal v
  | [] => Normal VUndefined
  end.

(** An instance of a class [Greeter] with public and private methods,
    public and private data and its constructor. *)
Definition greeter : ApiObject :=
  {| constructor_name := "Greeter";
     properties :=
       [("greeting", PData (VString "Hi, "));
        ("_count", PData (VNumber 0));
        ("constructor", PFunction (fun _ => Normal VUndefined));
        ("hello", PFunction hello);
        ("_helper", PFunction echo);
        ("#secret", PFunction echo);
        ("crash", PFunction crash);
        ("echo", PFunction echo)] |}.

Definition window1 : BrowserWindow := {| window_id := 1; webContents_id := 7 |}.

(** Another instance of the class [Greeter]. *)
Definition greeter_again : ApiObject :=
  {| constructor_name := "Greeter";
     properties := [("bye", PFunction echo)] |}.

(** The handlers [exposeMainApi] installs for [hello] and [crash] when
    no restorer is given. *)
Definition hello_handler : @CallHandler copying_restorer :=
  {| h_method := hello; h_restorer := None |}.

Definition crash_handler : @CallHandler copying_restorer :=
  {| h_method := crash; h_restorer := None |}.

(** A process that has set the error logger 1 and exposed [greeter]. *)
Definition greeter_history : list (@Event copying_restorer) :=
  [SetLogger 1; Expose greeter None].

Definition greeter_exposed : @State copying_restorer :=
  @run copying_restorer sample_ipc greeter_history.

(** The registration of a window API [WinApi] with two methods. *)
Definition winapi_registration : ApiRegistration :=
  {| className := "WinApi"; methodNames := Some ["show"; "hide"] |}.

(** A process that has bound to [WinApi] in [window1]: the call, the
    registration sent by the window, and the retry that finds it. *)
Definition winapi_history : list (@Event copying_restorer) :=
  [Bind window1 "WinApi";
   Receive API_RESPONSE_IPC 7 (PRegistration winapi_registration);
   Tick].

Definition winapi_bound : @State copying_restorer :=
  @run copying_restorer sample_ipc winapi_history.

(** Two calls of [bindWindowApi] for [WinApi] in [window1], made one
    after the other before the registration of the window arrives, and
    the two retries that follow it. *)
Definition concurrent_binds : list (@Event copying_restorer) :=
  [Bind window1 "WinApi";
   Bind window1 "WinApi";
   Receive API_RESPONSE_IPC 7 (PRegistration winapi_registration);
   Tick;
   Tick].

Definition concurrent_bound : @State copying_restorer :=
  @run copying_restorer sample_ipc concurrent_binds.

(** A call of [bindWindowApi] at start-up, with no registration to
    come. *)
Definition unanswered_bind : @State copying_restorer * nat :=
  @bindWindowApi copying_restorer sample_ipc
    (@initial_state copying_restorer) window1 "WinApi".

(** ** Proof automation *)

Ltac unfold_ops :=
  unfold run_timer, bindWindowApi, retryUntilTimeout, _attemptBindWindowApi,
    resolve_promise, reject_promise, setTimeout, webContents_send,
    call_bound_method, ipc_invoke, call_handler, log_error,
    on_api_request, on_api_response, run_listener, setIpcErrorLogger,
    _installIpcListeners, ipcMain_on, ipcMain_handle,
    exposure_view, listening_view in *.

Ltac frame :=
  unfold_ops; repeat (case_match; simpl in *; simplify_eq); try done.

Ltac by_view lem :=
  let E := fresh "E" in
  pose proof lem as E;
  unfold exposure_view, listening_view in E;
  simplify_eq;
  repeat match goal with Heq : _ = _ |- _ => rewrite Heq; clear Heq end;
  try done.

(** ** Further views of the main process *)

Section Views.
Context `{Restorer} `{SharedIpc}.

(** The events whose functions call [_installIpcListeners]. *)
Definition installs_listeners (ev : Event) : bool :=
  match ev with
  | Expose _ _ | Bind _ _ => true
  | _ => false
  end.

(** The events that are calls of [exposeMainApi] or
    [setIpcErrorLogger]. *)
Definition exposes_or_sets_logger (ev : Event) : bool :=
  match ev with
  | Expose _ _ | SetLogger _ => true
  | _ => false
  end.

(** The part of the state that binding, messages and timers act on. *)
Definition binding_side (st : State)
  : gmap Z (gmap string (option (list string))) * gmap Z (gmap string nat)
    * list Message * list BoundApi * list PromiseState * list Timer * Z
    * list value * list (nat * value) :=
  (_windowApiMapByWebContentsID st, _boundWindowApisByWindowID st, sent st,
   heap st, promises st, timers st, now st, uncaught st, logged st).

(** The bound API objects and the table that refers to them. *)
Definition bound_objects (st : State)
  : list BoundApi * gmap Z (gmap string nat) :=
  (heap st, _boundWindowApisByWindowID st).

(** Every entry of the table of bound APIs refers to an object of the
    heap that was built for the window and the class of the entry. *)
Definition bound_table_consistent (st : State) : Prop :=
  forall (window : BrowserWindow) (apiClassName : string) (boundApi : nat),
    cached_boundApi st window apiClassName = Some boundApi ->
    exists api : BoundApi,
      heap st !! boundApi = Some api
      /\ bound_class api = apiClassName
      /\ webContents_id (bound_window api) = webContents_id window.

(** A call of [bindWindowApi] made in state [st0] is waiting after [i]
    runs of its retry task, and all it has done is to send discovery
    requests: one at the call and one at each run. *)
Definition waiting_quietly (st0 : State) (window : BrowserWindow)
    (apiClassName : string) (i : nat) (st : State) : Prop :=
  retry_waiting window apiClassName (length (promises st0)) (now st0)
    (uncaught st0) i st
  /\ bound_objects st = bound_objects st0
  /\ sent st
     = sent st0 ++ replicate (S i) (discovery_request window apiClassName)
  /\ listening_view st = listening_view (_installIpcListeners st0).

End Views.

(** * [server_ipc]: exposing a server API to a window

    The source of [exposeServerApi], its module variables
    [_registrationMap] and [_errorLoggerFunc], and its
    [setIpcErrorLogger].  The modules [recovery] and [shared_ipc] it
    imports are taken through their interface. *)

Module ServerIpc.

(** The interface of the module [recovery]: [recoverArgument] runs the
    caller's recovery function and so may throw. *)
Class Recovery : Type := {
  RecoveryFunction : Type;
  recoverArgument : value -> RecoveryFunction -> Completion value;
  prepareArgument : value -> value;
  prepareThrownError : value -> value
}.

(** The constant [EXPOSE_API_EVENT] of [shared_ipc]. *)
Class ExposeChannel : Type := {
  EXPOSE_API_EVENT : string
}.

(** A server API: the object, and the property names that a
    [for ... in] loop over it enumerates, in its order (the enumerable
    properties, own and inherited). *)
Record InvokeApi : Type := {
  api_object : ApiObject;
  enumerated : list string
}.

(** The closure passed to [ipcMain.handle]: it captures [method] (bound
    to the API) and [recoveryFunc]. *)
Record CallHandler `{Recovery} : Type := {
  h_method : list value -> Completion value;
  h_recoveryFunc : option RecoveryFunction
}.

(** The module variables, the responders of [ipcMain], the messages
    sent and the calls of the error logger. *)
Record State `{Recovery} : Type := {
  _registrationMap : gmap string (list string);
  _errorLoggerFunc : option nat;
  handlers : list (string * CallHandler);
  sent : list Message;
  logged : list (nat * value)
}.

Section Operations.
Context `{Recovery} `{ExposeChannel} `{SharedIpc}.

Definition initial_state : State :=
  {| _registrationMap := ∅; _errorLoggerFunc := None; handlers := [];
     sent := []; logged := [] |}.

(** [setIpcErrorLogger] *)
Definition setIpcErrorLogger (st : State) (loggerFunc : nat) : State :=
  {| _registrationMap := _registrationMap st;
     _errorLoggerFunc := Some loggerFunc;
     handlers := handlers st; sent := sent st; logged := logged st |}.

(** [if (_errorLoggerFunc !== undefined) _errorLoggerFunc(err)] *)
Definition log_error (st : State) (err : value) : State :=
  match _errorLoggerFunc st with
  | Some loggerFunc =>
      {| _registrationMap := _registrationMap st;
         _errorLoggerFunc := _errorLoggerFunc st;
         handlers := handlers st; sent := sent st;
         logged := logged st ++ [(loggerFunc, err)] |}
  | None => st
  end.

(** [ipcMain.handle(channel, handler)] *)
Definition ipcMain_handle (st : State) (channel : string) (h : CallHandler)
  : State :=
  {| _registrationMap := _registrationMap st;
     _errorLoggerFunc := _errorLoggerFunc st;
     handlers := handlers st ++ [(channel, h)];
     sent := sent st; logged := logged st |}.

(** [toWindow.webContents.send(channel, payload)] *)
Definition webContents_send (st : State) (toWindow : BrowserWindow)
    (channel : string) (payload : Payload) : State :=
  {| _registrationMap := _registrationMap st;
     _errorLoggerFunc := _errorLoggerFunc st;
     handlers := handlers st;
     sent := sent st ++ [{| msg_to := webContents_id toWindow;
                            msg_channel := channel;
                            msg_payload := payload |}];
     logged := logged st |}.

Definition set_registrationMap (m : gmap string (list string)) (st : State)
  : State :=
  {| _registrationMap := m; _errorLoggerFunc := _errorLoggerFunc st;
     handlers := handlers st; sent := sent st; logged := logged st |}.

(** The loop [args[i] = Recovery.recoverArgument(args[i], recoveryFunc)];
    it ends at the first call that throws. *)
Fixpoint recoverArgs (args : list value) (recoveryFunc : RecoveryFunction)
  : Completion (list value) :=
  match args with
  | [] => Normal []
  | arg :: rest =>
      match recoverArgument arg recoveryFunc with
      | Throw err => Throw err
      | Normal arg' =>
          match recoverArgs rest recoveryFunc with
          | Throw err => Throw err
          | Normal rest' => Normal (arg' :: rest')
          end
      end
  end.

(** The [try] block of the handler up to the [await].  The arguments
    are recovered only when a recovery function was given and [args] is
    not [undefined] ([None]); the spread of [undefined] throws. *)
Definition handler_try (h : CallHandler) (args : option (list value))
  : Completion value :=
  match args with
  | Some args =>
      let recovered :=
        match h_recoveryFunc h with
        | Some recoveryFunc => recoverArgs args recoveryFunc
        | None => Normal args
        end in
      match recovered with
      | Normal args' => h_method h args'
      | Throw err => Throw err
      end
  | None => Throw spread_TypeError
  end.

(** The handler installed by [exposeServerApi] for one method: the
    [catch] block logs and returns. *)
Definition call_handler (st : State) (h : CallHandler)
    (args : option (list value)) : State * Completion value :=
  match handler_try h args with
  | Normal response => (st, Normal (prepareArgument response))
  | Throw err => (log_error st err, Normal (prepareThrownError err))
  end.

(** The body of the loop of [exposeServerApi] over the names that
    [for ... in] enumerates. *)
Fixpoint expose_methods (serverApi : InvokeApi)
    (recoveryFunc : option RecoveryFunction) (apiClassName : string)
    (names : list string) (st : State) (methodNames : list string)
  : State * list string :=
  match names with
  | [] => (st, methodNames)
  | methodName :: rest =>
      if negb (has_private_marker methodName) then
        match get_property (api_object serverApi) methodName with
        | PFunction method =>
            let h := {| h_method := method;
                        h_recoveryFunc := recoveryFunc |} in
            expose_methods serverApi recoveryFunc apiClassName rest
              (ipcMain_handle st (toIpcName apiClassName methodName) h)
              (methodNames ++ [methodName])
        | PData _ =>
            expose_methods serverApi recoveryFunc apiClassName rest st
              methodNames
        end
      else
        expose_methods serverApi recoveryFunc apiClassName rest st methodNames
  end.

(** [exposeServerApi] *)
Definition exposeServerApi (st : State) (toWindow : BrowserWindow)
    (serverApi : InvokeApi) (recoveryFunc : option RecoveryFunction)
  : State :=
  let apiClassName := constructor_name (api_object serverApi) in
  let st :=
    match _registrationMap st !! apiClassName with
    | None =>
        let '(st', methodNames) :=
          expose_methods serverApi recoveryFunc apiClassName
            (enumerated serverApi) st [] in
        set_registrationMap
          (<[apiClassName := methodNames]> (_registrationMap st')) st'
    | Some _ => st
    end in
  webContents_send st toWindow EXPOSE_API_EVENT
    (PRegistration {| className := apiClassName;
                      methodNames := _registrationMap st !! apiClassName |}).

(** The names [exposeServerApi] registers, of those enumerated: they do
    not start with [_] or [#] and name a function. *)
Definition server_names (serverApi : InvokeApi) : list string :=
  filter
    (fun methodName =>
       negb (has_private_marker methodName)
       && is_function (get_property (api_object serverApi) methodName) = true)
    (enumerated serverApi).

(** The registration [exposeServerApi] announces to a window. *)
Definition announcement (toWindow : BrowserWindow) (apiClassName : string)
    (names : list string) : Message :=
  {| msg_to := webContents_id toWindow; msg_channel := EXPOSE_API_EVENT;
     msg_payload :=
       PRegistration {| className := apiClassName;
                        methodNames := Some names |} |}.

End Operations.

End ServerIpc.


(** * The test utility: collecting the results of a test script

    The class [ResultCollector] of the test utility.  A test script runs
    in a window and reports over IPC; the listeners that the
    constructor registers with [ipcMain.on] are the cases of [deliver].
    An assertion function is taken as a function of the result it is
    handed that returns or throws, and changes nothing. *)

Module TestUtil.

Definition COMPLETION_CHECK_INTERVAL_MILLIS : Z := 100.
Definition TEST_TIMEOUT_MILLIS : Z := 5000.

(** The class [Result], with the initial values of its fields. *)
Record Result : Type := {
  testName : string;
  requestData : value;
  replyData : value;
  error : value;
  verified : bool
}.

Definition new_Result : Result :=
  {| testName := "unknown"; requestData := VUndefined;
     replyData := VUndefined; error := VNull; verified := false |}.

Definition set_testName (name : string) (result : Result) : Result :=
  {| testName := name; requestData := requestData result;
     replyData := replyData result; error := error result;
     verified := verified result |}.

Definition set_requestData (data : value) (result : Result) : Result :=
  {| testName := testName result; requestData := data;
     replyData := replyData result; error := error result;
     verified := verified result |}.

Definition set_replyData (data : value) (result : Result) : Result :=
  {| testName := testName result; requestData := requestData result;
     replyData := data; error := error result;
     verified := verified result |}.

Definition set_error (err : value) (result : Result) : Result :=
  {| testName := testName result; requestData := requestData result;
     replyData := replyData result; error := err;
     verified := verified result |}.

Definition set_verified (b : bool) (result : Result) : Result :=
  {| testName := testName result; requestData := requestData result;
     replyData := replyData result; error := error result;
     verified := b |}.

(** The private fields of a [ResultCollector]. *)
Record ResultCollector : Type := {
  currentResult : Result;
  results : list Result;
  abortError : value;
  completedAll : bool
}.

Definition new_ResultCollector : ResultCollector :=
  {| currentResult := new_Result; results := []; abortError := VNull;
     completedAll := false |}.

Definition set_currentResult (result : Result) (self : ResultCollector)
  : ResultCollector :=
  {| currentResult := result; results := results self;
     abortError := abortError self; completedAll := completedAll self |}.

Definition set_results (rs : list Result) (self : ResultCollector)
  : ResultCollector :=
  {| currentResult := currentResult self; results := rs;
     abortError := abortError self; completedAll := completedAll self |}.

Definition set_abortError (err : value) (self : ResultCollector)
  : ResultCollector :=
  {| currentResult := currentResult self; results := results self;
     abortError := err; completedAll := completedAll self |}.

Definition set_completedAll (b : bool) (self : ResultCollector)
  : ResultCollector :=
  {| currentResult := currentResult self; results := results self;
     abortError := abortError self; completedAll := b |}.

(** The conversion to a boolean that [if (v)] and [v || w] apply. *)
Definition truthy (v : value) : bool :=
  match v with
  | VUndefined | VNull => false
  | VBool b => b
  | VNumber n => negb (n =? 0)
  | VString EmptyString => false
  | VString (String _ _) => true
  | VArray _ | VObject _ _ | VRelayedError _ => true
  end.

(** What a test script sends to the main process: the channel, with
    the argument its listener reads. *)
Inductive Report : Type :=
  | started_test (name : string)
  | request_data (data : value)
  | reply_data (data : value)
  | completed_test (err : value)
  | completed_all
  | aborted (err : value).

(** The listeners of the constructor. *)
Definition deliver (self : ResultCollector) (report : Report)
  : ResultCollector :=
  match report with
  | started_test name =>
      set_currentResult (set_testName name (currentResult self)) self
  | request_data data =>
      set_currentResult (set_requestData data (currentResult self)) self
  | reply_data data =>
      set_currentResult (set_replyData data (currentResult self)) self
  | completed_test err =>
      let result :=
        set_error (if truthy err then err else VNull) (currentResult self) in
      set_currentResult new_Result
        (set_results (results self ++ [result]) self)
  | completed_all => set_completedAll true self
  | aborted err => set_abortError err self
  end.

(** How the promise of [collectResults] is settled. *)
Inductive Settled : Type :=
  | Resolved
  | RejectedWith (err : value).

(** [waitForResult]: each unfolding is one run of the function it hands
    to [setTimeout].  [arrivals] lists, check after check, the reports
    delivered while the timer of that check was pending (none once the
    list is used up).  The result holds the settlement, the value of
    [time] then and the collector as the check saw it; [None] when
    [checks] unfoldings were not enough. *)
Fixpoint waitForResult (checks : nat) (time : Z) (self : ResultCollector)
    (arrivals : list (list Report))
  : option (Settled * Z * ResultCollector) :=
  match checks with
  | O => None
  | S checks =>
      let self := foldl deliver self (hd [] arrivals) in
      let time := time + COMPLETION_CHECK_INTERVAL_MILLIS in
      if truthy (abortError self) then
        Some (RejectedWith (abortError self), time, self)
      else if completedAll self then
        Some (Resolved, time, self)
      else if TEST_TIMEOUT_MILLIS <=? time then
        Some (RejectedWith (Error_ "Timed out waiting for results"), time,
              self)
      else waitForResult checks time self (tl arrivals)
  end.

(** [collectResults]: the wait starts at time 0, so that the check that
    finds [time >= TEST_TIMEOUT_MILLIS] is reached within
    [TEST_TIMEOUT_MILLIS / COMPLETION_CHECK_INTERVAL_MILLIS] checks. *)
Definition collectResults (self : ResultCollector)
    (arrivals : list (list Report))
  : option (Settled * Z * ResultCollector) :=
  waitForResult
    (Z.to_nat (TEST_TIMEOUT_MILLIS / COMPLETION_CHECK_INTERVAL_MILLIS)) 0
    self arrivals.

(** [runScript], up to the point where the script is handed to the
    window: what the script does reaches the collector as reports. *)
Definition runScript (self : ResultCollector) : ResultCollector :=
  set_completedAll false
    (set_abortError VNull
       (set_results [] (set_currentResult new_Result self))).

(** [setRequestData] *)
Definition setRequestData (self : ResultCollector) (data : value)
  : ResultCollector :=
  set_currentResult (set_requestData data (currentResult self)) self.

(** The loop of [verifyTest]: [None] when it ends without a result of
    that name, the thrown value when the assertion function throws,
    else the results with the one it checked marked. *)
Fixpoint verifyTest_loop (rs : list Result) (name : string)
    (assertFunc : Result -> Completion unit)
  : option (Completion (list Result)) :=
  match rs with
  | [] => None
  | result :: rest =>
      if String.eqb (testName result) name then
        match assertFunc result with
        | Throw err => Some (Throw err)
        | Normal _ => Some (Normal (set_verified true result :: rest))
        end
      else
        match verifyTest_loop rest name assertFunc with
        | Some (Normal rest') => Some (Normal (result :: rest'))
        | other => other
        end
  end.

(** [verifyTest] *)
Definition verifyTest (self : ResultCollector) (name : string)
    (assertFunc : Result -> Completion unit)
  : ResultCollector * Completion unit :=
  match verifyTest_loop (results self) name assertFunc with
  | Some (Normal rs) => (set_results rs self, Normal tt)
  | Some (Throw err) => (self, Throw err)
  | None =>
      (self,
       Throw (Error_ ("No result found for test '" +:+ name +:+ "' among "
                      +:+ pretty (length (results self)) +:+ " tests")))
  end.

(** The loop of [verifyDone], with its counter [testNumber]. *)
Fixpoint verifyDone_loop (testNumber : nat) (rs : list Result)
  : Completion unit :=
  match rs with
  | [] => Normal tt
  | result :: rest =>
      let testNumber := S testNumber in
      if negb (verified result) then
        Throw (Error_ ("Failed to verify test #" +:+ pretty testNumber
                       +:+ " '" +:+ testName result +:+ "'"))
      else verifyDone_loop testNumber rest
  end.

(** [verifyDone] *)
Definition verifyDone (self : ResultCollector) : Completion unit :=
  verifyDone_loop 0 (results self).

(** A suite's calls of [verifyTest], one after the other, whatever
    each of them returns or throws. *)
Definition verify_calls (self : ResultCollector)
    (calls : list (string * (Result -> Completion unit)))
  : ResultCollector :=
  foldl (fun self call => (verifyTest self call.1 call.2).1) self calls.

(** The collector as the [k]-th check of a wait sees it. *)
Definition collector_at (self : ResultCollector)
    (arrivals : list (list Report)) (k : nat) : ResultCollector :=
  foldl deliver self (concat (take k arrivals)).

(** A check that finds neither an abort error nor the completion. *)
Definition quiet (self : ResultCollector) : bool :=
  negb (truthy (abortError self)) && negb (completedAll self).

(** The reports that can end a wait. *)
Definition settling (report : Report) : bool :=
  match report with
  | completed_all => true
  | aborted err => truthy err
  | _ => false
  end.

Definition is_completed_test (report : Report) : bool :=
  match report with
  | completed_test _ => true
  | _ => false
  end.

End TestUtil.

(** * Further sample instances *)

(** An engine whose restoration throws for an object of a class that
    the restorer function does not know, as a restorer function that
    rejects unknown classes does. *)
Definition strict_restorer : Restorer :=
  {| RestorerFunction := ClassLookup;
     makeRestorable := fun v => {| returned := encode v; in_place := v |};
     restoreValue := fun v restorer =>
       match v, restorer with
       | VObject cls fields, Some lookup =>
           match lookup cls fields with
           | Some instance => Normal instance
           | None => Throw (Error_ "unknown class")
           end
       | _, _ => Normal v
       end;
     makeReturnedError := encode_error;
     restoreReply := decode_reply |}.

(** The handler that [exposeMainApi] installs for [echo] when the
    restorer [sample_lookup] is given. *)
Definition strict_lookup : option (@RestorerFunction strict_restorer) :=
  Some sample_lookup.

Definition strict_echo_handler : @CallHandler strict_restorer :=
  {| h_method := echo; h_restorer := strict_lookup |}.

(** An instance of a class [Derived] that overrides the method [hello]
    it inherits, so that the enumeration of its properties lists the
    name once for each class. *)
Definition derived : ApiObject :=
  {| constructor_name := "Derived";
     properties :=
       [("hello", PFunction hello);
        ("hello", PFunction hello);
        ("only", PFunction echo)] |}.

(** The process of [winapi_history] with the engine that tags its
    argument in place. *)
Definition winapi_bound_tagging : @State tagging_restorer :=
  @run tagging_restorer sample_ipc
    [Bind window1 "WinApi";
     Receive API_RESPONSE_IPC 7 (PRegistration winapi_registration);
     Tick].

(** A second window. *)
Definition window2 : BrowserWindow := {| window_id := 2; webContents_id := 9 |}.

(** A bind of [WinApi] in [window1] at start-up that has waited for two
    retries when the registration of the window arrives, and the retry
    that follows. *)
Definition late_bind : @State copying_restorer * nat :=
  @bindWindowApi copying_restorer sample_ipc
    (@run copying_restorer sample_ipc []) window1 "WinApi".

Definition late_answered : @State copying_restorer :=
  @step copying_restorer sample_ipc
    (@run_timers copying_restorer sample_ipc 2 late_bind.1)
    (Receive API_RESPONSE_IPC 7 (PRegistration winapi_registration)).

Definition late_bound : @State copying_restorer :=
  @run_timer copying_restorer sample_ipc late_answered.

(** A recovery module and the channel of the registrations. *)
Definition sample_recovery : ServerIpc.Recovery :=
  {| ServerIpc.RecoveryFunction := ClassLookup;
     ServerIpc.recoverArgument :=
       fun v lookup => Normal (decode (Some lookup) v);
     ServerIpc.prepareArgument := encode;
     ServerIpc.prepareThrownError := encode_error |}.

Definition sample_channel : ServerIpc.ExposeChannel :=
  {| ServerIpc.EXPOSE_API_EVENT := "expose_api" |}.

(** A server API whose methods are enumerable properties, and another
    instance of its class. *)
Definition greeter_server : ServerIpc.InvokeApi :=
  {| ServerIpc.api_object := greeter;
     ServerIpc.enumerated :=
       ["greeting"; "_count"; "hello"; "_helper"; "crash"] |}.

Definition greeter_server_again : ServerIpc.InvokeApi :=
  {| ServerIpc.api_object := greeter_again;
     ServerIpc.enumerated := ["bye"] |}.

Definition greeter_served : @ServerIpc.State sample_recovery :=
  @ServerIpc.exposeServerApi sample_recovery sample_channel sample_ipc
    (@ServerIpc.initial_state sample_recovery) window1 greeter_server None.

Definition greeter_served_again : @ServerIpc.State sample_recovery :=
  @ServerIpc.exposeServerApi sample_recovery sample_channel sample_ipc
    greeter_served window2 greeter_server_again (Some sample_lookup).

(** The reports of a script that runs a test [a], then two tests that
    are both named [b], the second of which fails. *)
Definition repeated_name_reports : list TestUtil.Report :=
  [TestUtil.started_test "a"; TestUtil.request_data (VNumber 1);
   TestUtil.reply_data (VNumber 2); TestUtil.completed_test VUndefined;
   TestUtil.started_test "b"; TestUtil.completed_test VUndefined;
   TestUtil.started_test "b"; TestUtil.completed_test (VString "failed");
   TestUtil.completed_all].

Definition repeated_name_collected : TestUtil.ResultCollector :=
  foldl TestUtil.deliver TestUtil.new_ResultCollector repeated_name_reports.

Definition result_a : TestUtil.Result :=
  {| TestUtil.testName := "a"; TestUtil.requestData := VNumber 1;
     TestUtil.replyData := VNumber 2; TestUtil.error := VNull;
     TestUtil.verified := false |}.

Definition result_b : TestUtil.Result :=
  {| TestUtil.testName := "b"; TestUtil.requestData := VUndefined;
     TestUtil.replyData := VUndefined; TestUtil.error := VNull;
     TestUtil.verified := false |}.

Definition result_b_failed : TestUtil.Result :=
  {| TestUtil.testName := "b"; TestUtil.requestData := VUndefined;
     TestUtil.replyData := VUndefined; TestUtil.error := VString "failed";
     TestUtil.verified := false |}.

(** The reports of a script with the tests [a] and [b]. *)
Definition distinct_name_collected : TestUtil.ResultCollector :=
  foldl TestUtil.deliver TestUtil.new_ResultCollector
    [TestUtil.started_test "a"; TestUtil.completed_test VUndefined;
     TestUtil.started_test "b"; TestUtil.completed_test VNull;
     TestUtil.completed_all].

(** An assertion function that accepts a result without an error. *)
Definition no_error (result : TestUtil.Result) : Completion unit :=
  match TestUtil.error result with
  | VNull => Normal tt
  | _ => Throw (Error_ "unexpected error")
  end.

(** An assertion function that accepts every result. *)
Definition passing (result : TestUtil.Result) : Completion unit := Normal tt.

(** A script that completes a test before the first check and, before
    the second, both completes and aborts. *)
Definition aborting_arrivals : list (list TestUtil.Report) :=
  [[TestUtil.started_test "a"; TestUtil.completed_test VUndefined];
   [TestUtil.completed_all; TestUtil.aborted (VString "boom")]].

(** A script that never completes, and aborts with [undefined]. *)
Definition stalled_arrivals : list (list TestUtil.Report) :=
  [[TestUtil.started_test "a"; TestUtil.aborted VUndefined];
   [TestUtil.completed_test VNull]].
(** * Properties *)

Section Exposure.
Context `{Restorer} `{SharedIpc}.

(** ** The listeners *)

Lemma installIpcListeners_listening (st : State) :
  _listeningForIPC (_installIpcListeners st) = true.
Proof. unfold _installIpcListeners. by destruct (_listeningForIPC st) eqn:E. Qed.

Lemma installIpcListeners_idle (st : State) :
  _listeningForIPC st = true -> _installIpcListeners st = st.
Proof. intros E. unfold _installIpcListeners. by rewrite E. Qed.

Lemma installIpcListeners_mainApiMap (st : State) :
  _mainApiMap (_installIpcListeners st) = _mainApiMap st.
Proof. unfold _installIpcListeners. by destruct (_listeningForIPC st). Qed.

Lemma installIpcListeners_handlers (st : State) :
  handlers (_installIpcListeners st) = handlers st.
Proof. unfold _installIpcListeners. by destruct (_listeningForIPC st). Qed.

(** ** The loop of [exposeMainApi] *)

Lemma set_handlers_same (st : State) : set_handlers (handlers st) st = st.
Proof. by destruct st. Qed.

Lemma exposed_names_cons (mainApi : ApiObject) (n : string)
    (names : list string) :
  exposed_names mainApi (n :: names)
  = if passes_name_guard n && is_function (get_property mainApi n)
    then n :: exposed_names mainApi names
    else exposed_names mainApi names.
Proof.
  unfold exposed_names. rewrite filter_cons.
  destruct (passes_name_guard n && is_function (get_property mainApi n));
    by case_decide.
Qed.

Lemma installed_handlers_cons (mainApi : ApiObject)
    (restorer : option RestorerFunction) (n : string) (names : list string) :
  installed_handlers mainApi restorer (n :: names)
  = match get_property mainApi n with
    | PFunction method =>
        if passes_name_guard n
        then (toIpcName (constructor_name mainApi) n,
              {| h_method := method; h_restorer := restorer |})
             :: installed_handlers mainApi restorer names
        else installed_handlers mainApi restorer names
    | PData _ => installed_handlers mainApi restorer names
    end.
Proof.
  unfold installed_handlers, method_handler. simpl.
  destruct (passes_name_guard n), (get_property mainApi n); done.
Qed.

Lemma expose_methods_spec (mainApi : ApiObject)
    (restorer : option RestorerFunction) (names : list string) :
  forall (st : State) (methodNames : list string),
    expose_methods mainApi restorer (constructor_name mainApi) names st
      methodNames
    = (set_handlers
         (handlers st ++ installed_handlers mainApi restorer names) st,
       methodNames ++ exposed_names mainApi names).
Proof.
  induction names as [|n names IH]; intros st methodNames.
  - simpl. unfold installed_handlers, exposed_names. simpl.
    by rewrite !app_nil_r, set_handlers_same.
  - rewrite exposed_names_cons, installed_handlers_cons. simpl.
    destruct (passes_name_guard n) eqn:G; simpl.
    + destruct (get_property mainApi n) as [f|v] eqn:P; simpl.
      * rewrite IH. unfold ipcMain_handle. simpl. by rewrite <- !app_assoc.
      * by rewrite IH.
    + rewrite IH. by destruct (get_property mainApi n).
Qed.

Lemma exposeMainApi_fresh (st : State) (mainApi : ApiObject)
    (restorer : option RestorerFunction) :
  _mainApiMap st !! constructor_name mainApi = None ->
  exposeMainApi st mainApi restorer
  = let st1 := _installIpcListeners st in
    set_mainApiMap
      (<[constructor_name mainApi :=
           exposed_names mainApi (getPropertyNames mainApi)]>
         (_mainApiMap st1))
      (set_handlers
         (handlers st1
          ++ installed_handlers mainApi restorer (getPropertyNames mainApi))
         st1).
Proof.
  intros Hnone. unfold exposeMainApi.
  rewrite installIpcListeners_mainApiMap, Hnone, expose_methods_spec.
  simpl. by rewrite installIpcListeners_mainApiMap.
Qed.

Lemma exposeMainApi_known (st : State) (mainApi : ApiObject)
    (restorer : option RestorerFunction) :
  is_Some (_mainApiMap st !! constructor_name mainApi) ->
  exposeMainApi st mainApi restorer = _installIpcListeners st.
Proof.
  intros [names Hsome]. unfold exposeMainApi.
  by rewrite installIpcListeners_mainApiMap, Hsome.
Qed.

Lemma exposeMainApi_listening (st : State) (mainApi : ApiObject)
    (restorer : option RestorerFunction) :
  _listeningForIPC (exposeMainApi st mainApi restorer) = true.
Proof.
  destruct (_mainApiMap st !! constructor_name mainApi) eqn:E.
  - rewrite exposeMainApi_known by eauto. apply installIpcListeners_listening.
  - rewrite exposeMainApi_fresh by done. simpl.
    apply installIpcListeners_listening.
Qed.

(** An entry of [_mainApiMap] stays as it is when a further API is
    exposed. *)
Lemma exposeMainApi_keeps (st : State) (mainApi : ApiObject)
    (restorer : option RestorerFunction) (apiClassName : string)
    (names : list string) :
  _mainApiMap st !! apiClassName = Some names ->
  _mainApiMap (exposeMainApi st mainApi restorer) !! apiClassName
  = Some names.
Proof.
  intros Hsome.
  destruct (_mainApiMap st !! constructor_name mainApi) eqn:E.
  - rewrite exposeMainApi_known by eauto.
    by rewrite installIpcListeners_mainApiMap.
  - rewrite exposeMainApi_fresh by done. simpl.
    rewrite lookup_insert_ne; [by rewrite installIpcListeners_mainApiMap|].
    intros Heq. rewrite Heq in E. congruence.
Qed.

(** ** Names and handlers *)

Lemma exposed_names_spec (mainApi : ApiObject) (names : list string)
    (methodName : string) :
  methodName ∈ exposed_names mainApi names <->
  methodName ∈ names /\ passes_name_guard methodName = true
  /\ is_function (get_property mainApi methodName) = true.
Proof.
  unfold exposed_names. rewrite list_elem_of_filter, andb_true_iff. tauto.
Qed.

Lemma installed_handlers_spec (mainApi : ApiObject)
    (restorer : option RestorerFunction) (names : list string)
    (channel : string) (h : CallHandler) :
  (channel, h) ∈ installed_handlers mainApi restorer names <->
  exists methodName method,
    methodName ∈ names /\ passes_name_guard methodName = true
    /\ get_property mainApi methodName = PFunction method
    /\ channel = toIpcName (constructor_name mainApi) methodName
    /\ h = {| h_method := method; h_restorer := restorer |}.
Proof.
  unfold installed_handlers, method_handler. rewrite list_elem_of_omap. split.
  - intros (n & Hin & Hn). destruct (passes_name_guard n) eqn:G; [|done].
    destruct (get_property mainApi n) as [f|v] eqn:P; [|done].
    simpl in Hn. injection Hn as <- <-. exists n, f. done.
  - intros (n & f & Hin & G & P & -> & ->). exists n. split; [done|].
    rewrite G, P. reflexivity.
Qed.

Lemma installed_channels (mainApi : ApiObject)
    (restorer : option RestorerFunction) (names : list string) :
  (installed_handlers mainApi restorer names).*1
  = map (toIpcName (constructor_name mainApi)) (exposed_names mainApi names).
Proof.
  induction names as [|n names IH]; [done|].
  rewrite exposed_names_cons, installed_handlers_cons.
  destruct (passes_name_guard n), (get_property mainApi n); simpl;
    [f_equal|..]; exact IH.
Qed.

Lemma has_private_marker_guard (methodName : string) :
  has_private_marker methodName = true ->
  passes_name_guard methodName = false.
Proof.
  intros E. unfold passes_name_guard. rewrite E. apply andb_false_r.
Qed.

Lemma passes_name_guard_spec (methodName : string) :
  passes_name_guard methodName = true <->
  methodName <> "constructor" /\ has_private_marker methodName = false.
Proof.
  unfold passes_name_guard.
  rewrite andb_true_iff, !negb_true_iff, String.eqb_neq. tauto.
Qed.

(** ** The check of [ipcMain.handle] *)

Lemma expose_methods_or_throw_normal (mainApi : ApiObject)
    (restorer : option RestorerFunction) (apiClassName : string)
    (names : list string) :
  forall (st : State) (methodNames : list string) (st' : State)
         (registered : list string),
    expose_methods_or_throw mainApi restorer apiClassName names st methodNames
    = (st', Normal registered) ->
    expose_methods mainApi restorer apiClassName names st methodNames
    = (st', registered).
Proof.
  induction names as [|n names IH]; intros st methodNames st' registered E;
    simpl in *.
  - by injection E as -> ->.
  - destruct (passes_name_guard n); [|by apply IH].
    destruct (get_property mainApi n) as [f|v]; [|by apply IH].
    unfold ipcMain_handle_or_throw in E. case_bool_decide; [done|].
    by apply IH.
Qed.

Lemma exposeMainApi_or_throw_normal (st : State) (mainApi : ApiObject)
    (restorer : option RestorerFunction) (st' : State) :
  exposeMainApi_or_throw st mainApi restorer = (st', Normal tt) ->
  exposeMainApi st mainApi restorer = st'.
Proof.
  unfold exposeMainApi_or_throw, exposeMainApi.
  destruct (_mainApiMap (_installIpcListeners st) !! constructor_name mainApi);
    [by intros [= <-]|].
  destruct (expose_methods_or_throw mainApi restorer (constructor_name mainApi)
              (getPropertyNames mainApi) (_installIpcListeners st) [])
    as [st1 [registered|err]] eqn:E; [|done].
  intros [= <-].
  by rewrite (expose_methods_or_throw_normal _ _ _ _ _ _ _ _ E).
Qed.

Lemma expose_methods_or_throw_channels (mainApi : ApiObject)
    (restorer : option RestorerFunction) (names : list string) :
  forall (st : State) (methodNames : list string) (st' : State)
         (registered : list string),
    expose_methods_or_throw mainApi restorer (constructor_name mainApi) names
      st methodNames
    = (st', Normal registered) ->
    NoDup (map (toIpcName (constructor_name mainApi))
             (exposed_names mainApi names))
    /\ forall channel : string,
         channel ∈ map (toIpcName (constructor_name mainApi))
                     (exposed_names mainApi names) ->
         channel ∉ (handlers st).*1.
Proof.
  induction names as [|n names IH]; intros st methodNames st' registered E.
  - split; [constructor|]. intros channel Hin. by apply elem_of_nil in Hin.
  - rewrite exposed_names_cons. simpl in E.
    destruct (passes_name_guard n); [|by apply (IH _ _ _ _ E)].
    destruct (get_property mainApi n) as [f|v]; simpl;
      [|by apply (IH _ _ _ _ E)].
    unfold ipcMain_handle_or_throw in E. case_bool_decide as Hfree; [done|].
    apply IH in E as [Hnd Hrest]. simpl in Hrest.
    rewrite fmap_app in Hrest. simpl in Hrest.
    split.
    + constructor; [|done]. intros Hin. apply Hrest in Hin.
      apply Hin, elem_of_app. right. by apply list_elem_of_singleton.
    + intros channel Hin. apply elem_of_cons in Hin as [->|Hin]; [done|].
      apply Hrest in Hin. intros Hst. apply Hin, elem_of_app. by left.
Qed.

Lemma expose_methods_or_throw_returns (mainApi : ApiObject)
    (restorer : option RestorerFunction) (names : list string) :
  forall (st : State) (methodNames : list string),
    NoDup (map (toIpcName (constructor_name mainApi))
             (exposed_names mainApi names)) ->
    (forall channel : string,
       channel ∈ map (toIpcName (constructor_name mainApi))
                   (exposed_names mainApi names) ->
       channel ∉ (handlers st).*1) ->
    exists st' : State,
      expose_methods_or_throw mainApi restorer (constructor_name mainApi)
        names st methodNames
      = (st', Normal (methodNames ++ exposed_names mainApi names)).
Proof.
  induction names as [|n names IH]; intros st methodNames Hnd Hfree.
  - exists st. unfold exposed_names. simpl. by rewrite app_nil_r.
  - rewrite exposed_names_cons in Hnd, Hfree |- *. simpl.
    destruct (passes_name_guard n); [|by apply IH].
    destruct (get_property mainApi n) as [f|v]; simpl in *; [|by apply IH].
    apply NoDup_cons in Hnd as [Hn Hnd].
    unfold ipcMain_handle_or_throw. case_bool_decide as Hhandled.
    { exfalso. apply (Hfree _ ltac:(left)), Hhandled. }
    destruct (IH (ipcMain_handle st (toIpcName (constructor_name mainApi) n)
                    {| h_method := f; h_restorer := restorer |})
                (methodNames ++ [n]) Hnd) as [st' E].
    + intros channel Hin. simpl. rewrite fmap_app. simpl.
      intros Hst. apply elem_of_app in Hst as [Hst|Hst].
      * by apply (Hfree channel ltac:(by right)).
      * apply list_elem_of_singleton in Hst. by subst channel.
    + exists st'. by rewrite E, <- app_assoc.
Qed.

Lemma expose_methods_or_throw_mainApiMap (mainApi : ApiObject)
    (restorer : option RestorerFunction) (apiClassName : string)
    (names : list string) :
  forall (st : State) (methodNames : list string),
    _mainApiMap
      (expose_methods_or_throw mainApi restorer apiClassName names st
         methodNames).1
    = _mainApiMap st.
Proof.
  induction names as [|n names IH]; intros st methodNames; simpl; [done|].
  destruct (passes_name_guard n); [|by apply IH].
  destruct (get_property mainApi n) as [f|v]; [|by apply IH].
  unfold ipcMain_handle_or_throw. case_bool_decide; [done|].
  by rewrite IH.
Qed.

(** A call of [exposeMainApi] that throws registers no method names,
    whatever handlers it has installed. *)
Lemma exposeMainApi_or_throw_abort (st : State) (mainApi : ApiObject)
    (restorer : option RestorerFunction) (st' : State) (err : value) :
  exposeMainApi_or_throw st mainApi restorer = (st', Throw err) ->
  _mainApiMap st' = _mainApiMap st.
Proof.
  unfold exposeMainApi_or_throw.
  destruct (_mainApiMap (_installIpcListeners st) !! constructor_name mainApi);
    [done|].
  pose proof (expose_methods_or_throw_mainApiMap mainApi restorer
                (constructor_name mainApi) (getPropertyNames mainApi)
                (_installIpcListeners st) []) as Hmap.
  destruct (expose_methods_or_throw mainApi restorer (constructor_name mainApi)
              (getPropertyNames mainApi) (_installIpcListeners st) [])
    as [st1 [registered|err1]]; [done|].
  intros [= <- <-]. simpl in Hmap.
  by rewrite Hmap, installIpcListeners_mainApiMap.
Qed.

(** For a class not exposed before, the call returns exactly when the
    channels of the methods it registers are distinct and none of them
    has a handler. *)
Lemma exposeMainApi_or_throw_returns_iff (st : State) (mainApi : ApiObject)
    (restorer : option RestorerFunction) :
  _mainApiMap st !! constructor_name mainApi = None ->
  (exposeMainApi_or_throw st mainApi restorer).2 = Normal tt
  <-> NoDup (map (toIpcName (constructor_name mainApi))
               (registered_names mainApi))
      /\ forall channel : string,
           channel ∈ map (toIpcName (constructor_name mainApi))
                       (registered_names mainApi) ->
           channel ∉ (handlers st).*1.
Proof.
  intros Hfresh. unfold exposeMainApi_or_throw, registered_names.
  rewrite installIpcListeners_mainApiMap, Hfresh.
  rewrite <- (installIpcListeners_handlers st).
  destruct (expose_methods_or_throw mainApi restorer (constructor_name mainApi)
              (getPropertyNames mainApi) (_installIpcListeners st) [])
    as [st1 [registered|err]] eqn:E; simpl.
  - split; [intros _|done].
    by apply (expose_methods_or_throw_channels _ _ _ _ _ _ _ E).
  - split; [done|]. intros [Hnd Hfree].
    destruct (expose_methods_or_throw_returns mainApi restorer
                (getPropertyNames mainApi) (_installIpcListeners st) []
                Hnd Hfree) as [st' E'].
    congruence.
Qed.

Lemma find_handler_app_r (hs1 hs2 : list (string * CallHandler))
    (channel : string) :
  channel ∉ hs1.*1 ->
  find_handler (hs1 ++ hs2) channel = find_handler hs2 channel.
Proof.
  induction hs1 as [|[c h] hs1 IH]; intros Hout; [done|]. simpl in *.
  destruct (String.eqb c channel) eqn:E.
  - apply String.eqb_eq in E. subst c. exfalso. apply Hout. by left.
  - apply IH. intros Hin. apply Hout. by right.
Qed.

Lemma find_handler_NoDup (hs : list (string * CallHandler)) (channel : string)
    (h : CallHandler) :
  NoDup hs.*1 -> (channel, h) ∈ hs -> find_handler hs channel = Some h.
Proof.
  induction hs as [|[c h0] hs IH]; intros Hnd Hin.
  - by apply elem_of_nil in Hin.
  - simpl in *. apply NoDup_cons in Hnd as [Hc Hnd].
    apply elem_of_cons in Hin as [Heq|Hin].
    + injection Heq as -> ->. by rewrite String.eqb_refl.
    + destruct (String.eqb c channel) eqn:E; [|by apply IH].
      apply String.eqb_eq in E. subst c. exfalso. apply Hc.
      apply list_elem_of_fmap. by exists (channel, h).
Qed.

End Exposure.

(** ** What each operation leaves alone *)

Section Frames.
Context `{Restorer} `{SharedIpc}.

Lemma installIpcListeners_exposure (st : State) :
  exposure_view (_installIpcListeners st) = exposure_view st.
Proof. by frame. Qed.

Lemma installIpcListeners_listeners (st : State) :
  listeners st = (if _listeningForIPC st then discovery_listeners else []) ->
  listeners (_installIpcListeners st) = discovery_listeners.
Proof. intros E. frame. by rewrite E. Qed.

Lemma run_timer_exposure (st : State) :
  exposure_view (run_timer st) = exposure_view st.
Proof. by frame. Qed.

Lemma run_timer_listening (st : State) :
  listening_view (run_timer st) = listening_view st.
Proof. by frame. Qed.

Lemma bindWindowApi_exposure (st : State) (window : BrowserWindow)
    (apiClassName : string) :
  exposure_view (bindWindowApi st window apiClassName).1 = exposure_view st.
Proof. by frame. Qed.

Lemma bindWindowApi_listening (st : State) (window : BrowserWindow)
    (apiClassName : string) :
  listening_view (bindWindowApi st window apiClassName).1
  = listening_view (_installIpcListeners st).
Proof. by frame. Qed.

Lemma ipcMain_emit_exposure (st : State) (channel : string) (sender : Z)
    (payload : Payload) :
  exposure_view (ipcMain_emit st channel sender payload) = exposure_view st.
Proof.
  unfold ipcMain_emit. generalize (listeners st) as ls.
  intros ls. revert st. induction ls as [|[c l] ls IH]; intros st; [done|].
  simpl. rewrite IH. by frame.
Qed.

Lemma ipcMain_emit_listening (st : State) (channel : string) (sender : Z)
    (payload : Payload) :
  listening_view (ipcMain_emit st channel sender payload) = listening_view st.
Proof.
  unfold ipcMain_emit. generalize (listeners st) as ls.
  intros ls. revert st. induction ls as [|[c l] ls IH]; intros st; [done|].
  simpl. rewrite IH. by frame.
Qed.

Lemma call_handler_exposure (st : State) (h : CallHandler)
    (args : option (list value)) :
  exposure_view (call_handler st h args).1 = exposure_view st.
Proof.
  unfold call_handler, log_error.
  destruct (handler_try h args) as [v|[]]; simpl; try done;
    by destruct (_errorLoggerFunc st).
Qed.

Lemma call_handler_listening (st : State) (h : CallHandler)
    (args : option (list value)) :
  listening_view (call_handler st h args).1 = listening_view st.
Proof.
  unfold call_handler, log_error.
  destruct (handler_try h args) as [v|[]]; simpl; try done;
    by destruct (_errorLoggerFunc st).
Qed.

Lemma ipc_invoke_exposure (st : State) (channel : string)
    (args : option (list value)) :
  exposure_view (ipc_invoke st channel args).1 = exposure_view st.
Proof.
  unfold ipc_invoke. destruct (find_handler (handlers st) channel); [|done].
  pose proof (call_handler_exposure st c args) as E.
  by destruct (call_handler st c args) as [st' [v|err]].
Qed.

Lemma ipc_invoke_listening (st : State) (channel : string)
    (args : option (list value)) :
  listening_view (ipc_invoke st channel args).1 = listening_view st.
Proof.
  unfold ipc_invoke. destruct (find_handler (handlers st) channel); [|done].
  pose proof (call_handler_listening st c args) as E.
  by destruct (call_handler st c args) as [st' [v|err]].
Qed.

Lemma call_bound_method_views (st : State) (boundApi : nat)
    (methodName : string) (args : list value) (st' : State) (v : value) :
  call_bound_method st boundApi methodName args = Some (st', v) ->
  exposure_view st' = exposure_view st
  /\ listening_view st' = listening_view st.
Proof.
  unfold call_bound_method. destruct (heap st !! boundApi); [|done].
  case_bool_decide; [|done]. intros E. by simplify_eq.
Qed.

(** ** Invariants of the process *)

Lemma step_mainApiMap (st : State) (ev : Event) (apiClassName : string)
    (names : list string) :
  _mainApiMap st !! apiClassName = Some names ->
  _mainApiMap (step st ev) !! apiClassName = Some names.
Proof.
  intros Hsome. destruct ev; simpl.
  - by apply exposeMainApi_keeps.
  - done.
  - by_view (bindWindowApi_exposure st window apiClassName0).
  - destruct (call_bound_method st boundApi methodName args)
      as [[st' v]|] eqn:C; [|done].
    apply call_bound_method_views in C as [Vexp Vlis]. by_view Vexp.
  - by_view (ipcMain_emit_exposure st channel sender payload).
  - by_view (ipc_invoke_exposure st channel args).
  - by_view (run_timer_exposure st).
Qed.

Lemma step_mainApiMap_other (st : State) (ev : Event) (apiClassName : string) :
  (forall mainApi restorer, ev = Expose mainApi restorer ->
     constructor_name mainApi <> apiClassName) ->
  _mainApiMap (step st ev) !! apiClassName = _mainApiMap st !! apiClassName.
Proof.
  intros Hother. destruct ev; simpl.
  - specialize (Hother _ _ eq_refl).
    destruct (_mainApiMap st !! constructor_name mainApi) eqn:E.
    + rewrite exposeMainApi_known by eauto.
      by rewrite installIpcListeners_mainApiMap.
    + rewrite exposeMainApi_fresh by done. simpl.
      rewrite lookup_insert_ne by done.
      by rewrite installIpcListeners_mainApiMap.
  - done.
  - by_view (bindWindowApi_exposure st window apiClassName0).
  - destruct (call_bound_method st boundApi methodName args)
      as [[st' v]|] eqn:C; [|done].
    apply call_bound_method_views in C as [Vexp Vlis]. by_view Vexp.
  - by_view (ipcMain_emit_exposure st channel sender payload).
  - by_view (ipc_invoke_exposure st channel args).
  - by_view (run_timer_exposure st).
Qed.

Lemma exposeMainApi_listeners (st : State) (mainApi : ApiObject)
    (restorer : option RestorerFunction) :
  listeners (exposeMainApi st mainApi restorer)
  = listeners (_installIpcListeners st).
Proof.
  destruct (_mainApiMap st !! constructor_name mainApi) eqn:E.
  - by rewrite exposeMainApi_known by eauto.
  - by rewrite exposeMainApi_fresh by done.
Qed.

(** The listeners are installed together, once, and the flag tells
    whether they are. *)
Lemma step_listeners (st : State) (ev : Event) :
  listeners st = (if _listeningForIPC st then discovery_listeners else []) ->
  listeners (step st ev)
  = (if _listeningForIPC (step st ev) then discovery_listeners else []).
Proof.
  intros Hinv. destruct ev; simpl.
  - rewrite exposeMainApi_listening, exposeMainApi_listeners.
    by apply installIpcListeners_listeners.
  - done.
  - by_view (bindWindowApi_listening st window apiClassName).
    rewrite installIpcListeners_listening.
    by apply installIpcListeners_listeners.
  - destruct (call_bound_method st boundApi methodName args)
      as [[st' v]|] eqn:C; [|done].
    apply call_bound_method_views in C as [Vexp Vlis]. by_view Vexp.
  - by_view (ipcMain_emit_listening st channel sender payload).
  - by_view (ipc_invoke_listening st channel args).
  - by_view (run_timer_listening st).
Qed.

Lemma step_listening (st : State) (ev : Event) :
  _listeningForIPC st = true -> _listeningForIPC (step st ev) = true.
Proof.
  intros Hon. destruct ev; simpl.
  - apply exposeMainApi_listening.
  - done.
  - by_view (bindWindowApi_listening st window apiClassName).
    apply installIpcListeners_listening.
  - destruct (call_bound_method st boundApi methodName args)
      as [[st' v]|] eqn:C; [|done].
    apply call_bound_method_views in C as [Vexp Vlis]. by_view Vexp.
  - by_view (ipcMain_emit_listening st channel sender payload).
  - by_view (ipc_invoke_listening st channel args).
  - by_view (run_timer_listening st).
Qed.

Lemma run_snoc (history : list Event) (ev : Event) :
  run (history ++ [ev]) = step (run history) ev.
Proof. unfold run. by rewrite fold_left_app. Qed.

Lemma run_listeners (history : list Event) :
  listeners (run history)
  = (if _listeningForIPC (run history) then discovery_listeners else []).
Proof.
  induction history as [|ev history IH] using rev_ind; [done|].
  rewrite run_snoc. by apply step_listeners.
Qed.

Lemma first_exposure_app (h1 h2 : list Event) (apiClassName : string) :
  first_exposure (h1 ++ h2) apiClassName
  = match first_exposure h1 apiClassName with
    | Some mainApi => Some mainApi
    | None => first_exposure h2 apiClassName
    end.
Proof.
  induction h1 as [|ev h1 IH]; [done|].
  destruct ev; simpl; try done.
  by destruct (String.eqb (constructor_name mainApi) apiClassName).
Qed.

(** [_mainApiMap] holds, for each class, the method names of the first
    API of that class that was exposed. *)
Lemma run_mainApiMap (history : list Event) (apiClassName : string) :
  _mainApiMap (run history) !! apiClassName
  = registered_names <$> first_exposure history apiClassName.
Proof.
  induction history as [|ev history IH] using rev_ind; [done|].
  rewrite run_snoc, first_exposure_app.
  destruct (first_exposure history apiClassName) as [api|] eqn:F.
  - by apply step_mainApiMap.
  - simpl in IH. destruct ev; simpl first_exposure;
      try (rewrite step_mainApiMap_other; [done|by intros ? ? ?]).
    destruct (String.eqb (constructor_name mainApi) apiClassName) eqn:E.
    + apply String.eqb_eq in E. subst apiClassName. simpl.
      rewrite exposeMainApi_fresh by done. simpl.
      by rewrite lookup_insert_eq.
    + apply String.eqb_neq in E.
      rewrite step_mainApiMap_other; [done|]. intros ? ? ?. by simplify_eq.
Qed.

Lemma run_registered_listening (history : list Event)
    (apiClassName : string) :
  is_Some (first_exposure history apiClassName) ->
  _listeningForIPC (run history) = true.
Proof.
  induction history as [|ev history IH] using rev_ind.
  - by intros [? ?].
  - rewrite run_snoc, first_exposure_app.
    destruct (first_exposure history apiClassName) eqn:F.
    + intros _. apply step_listening, IH. eauto.
    + destruct ev; simpl; try by intros [? ?].
      intros _. apply exposeMainApi_listening.
Qed.

(** ** Histories whose exposures return *)

Lemma run_or_throw_from (history : list Event) :
  forall st : State,
    exposures_return_from st history = true ->
    fold_left step_or_throw history st = fold_left step history st.
Proof.
  induction history as [|ev history IH]; intros st Hret; [done|].
  simpl in Hret. apply andb_true_iff in Hret as [Hev Hrest].
  assert (Hstep : step_or_throw st ev = step st ev).
  { destruct ev; try done. simpl in *.
    destruct (exposeMainApi_or_throw st mainApi restorer)
      as [st1 [[]|err]] eqn:E; [|done].
    simpl. symmetry. by apply exposeMainApi_or_throw_normal. }
  simpl. rewrite <- Hstep. by apply IH.
Qed.

Lemma run_or_throw_returns (history : list Event) :
  exposures_return history = true -> run_or_throw history = run history.
Proof. apply run_or_throw_from. Qed.

Lemma exposures_return_app (h1 h2 : list Event) :
  exposures_return (h1 ++ h2) = true ->
  exposures_return h1 = true
  /\ exposures_return_from (run_or_throw h1) h2 = true.
Proof.
  unfold exposures_return, run_or_throw. generalize initial_state.
  induction h1 as [|ev h1 IH]; intros st Hret; [done|].
  simpl in *. apply andb_true_iff in Hret as [Hev Hrest].
  rewrite Hev. simpl. by apply IH.
Qed.

End Frames.

(** ** Exposure of main APIs *)

Section MainApis.
Context `{Restorer} `{SharedIpc}.

Lemma restoreArgs_Forall2 (restorer : option RestorerFunction)
    (args args' : list value) :
  restoreArgs args restorer = Normal args' <->
  Forall2 (fun arg arg' => restoreValue arg restorer = Normal arg') args args'.
Proof.
  revert args'. induction args as [|arg args IH]; intros args'; simpl.
  - split; [intros E; by simplify_eq|intros E; by inversion E].
  - split.
    + destruct (restoreValue arg restorer) as [a|] eqn:E1; [|done].
      destruct (restoreArgs args restorer) as [l|] eqn:E2; [|done].
      intros E. simplify_eq. constructor; [done|]. by apply IH.
    + intros E. inversion E as [|? a ? l E1 E2]; subst.
      rewrite E1. apply IH in E2. by rewrite E2.
Qed.

Lemma handler_try_method (h : CallHandler) (args args' : list value) :
  restoreArgs args (h_restorer h) = Normal args' ->
  handler_try h (Some args) = h_method h args'.
Proof. intros E. unfold handler_try. by rewrite E. Qed.

Lemma log_error_logged (st : State) (err : value) :
  logged (log_error st err)
  = logged st ++ match _errorLoggerFunc st with
                 | Some loggerFunc => [(loggerFunc, err)]
                 | None => []
                 end.
Proof.
  unfold log_error. destruct (_errorLoggerFunc st); simpl; [done|].
  by rewrite app_nil_r.
Qed.

(** C1. When an exposed method throws, the handler installed for it
    by [exposeMainApi] answers in one of two ways, whatever the
    arguments received.  For a [RelayedError] it returns
    [makeReturnedError] of the error to relay: the call on the channel
    succeeds with that reply, nothing is logged, and the method of the
    caller's proxy, which restores the reply, rejects with the error
    that was relayed (given that the engine restores the returned error
    to it).  For any other value it calls the error logger with that
    value, once when a logger was set and not at all otherwise, and
    throws the value again: the call on the channel fails, and the
    method of the caller's proxy rejects. *)
Theorem exposed_method_throw_relayed_or_rethrown (st : State)
    (apiClassName methodName : string) (h : CallHandler)
    (received args' : list value) (err : value) :
  let channel := toIpcName apiClassName methodName in
  find_handler (handlers st) channel = Some h ->
  restoreArgs received (h_restorer h) = Normal args' ->
  h_method h args' = Throw err ->
  match err with
  | VRelayedError errorToRelay =>
      call_handler st h (Some received)
      = (st, Normal (makeReturnedError errorToRelay))
      /\ ipc_invoke st channel (Some received)
         = (st, Reply (makeReturnedError errorToRelay))
      /\ (forall (args : list value) (restorer : option RestorerFunction),
            map (fun arg => returned (makeRestorable arg)) args = received ->
            restoreReply (makeReturnedError errorToRelay) restorer
            = Throw errorToRelay ->
            call_main_method st apiClassName methodName args restorer
            = (st, Throw errorToRelay))
  | _ =>
      call_handler st h (Some received) = (log_error st err, Throw err)
      /\ logged (log_error st err)
         = logged st ++ match _errorLoggerFunc st with
                        | Some loggerFunc => [(loggerFunc, err)]
                        | None => []
                        end
      /\ ipc_invoke st channel (Some received)
         = (log_error st err, CallFailed err)
      /\ (forall (args : list value) (restorer : option RestorerFunction),
            map (fun arg => returned (makeRestorable arg)) args = received ->
            call_main_method st apiClassName methodName args restorer
            = (log_error st err, Throw err))
  end.
Proof.
  intros channel Hfind Hargs Hthrow.
  assert (Htry : handler_try h (Some received) = Throw err)
    by (by rewrite (handler_try_method _ _ _ Hargs)).
  assert (Hcall : forall (args : list value) (restorer : option RestorerFunction),
            map (fun arg => returned (makeRestorable arg)) args = received ->
            call_main_method st apiClassName methodName args restorer
            = match ipc_invoke st channel (Some received) with
              | (st', Reply v) => (st', restoreReply v restorer)
              | (st', CallFailed reason) => (st', Throw reason)
              end).
  { intros args restorer <-. reflexivity. }
  unfold ipc_invoke in *. rewrite Hfind in *.
  unfold call_handler in *. rewrite Htry in *.
  destruct err; simpl in *;
    repeat split; auto using log_error_logged.
  intros args restorer Hwire Hrestore. by rewrite Hcall, Hrestore.
Qed.

(** A call that came without arguments: the spread throws, and the
    [TypeError] is treated as any error that is not relayed. *)
Lemma call_handler_undefined_args (st : State) (h : CallHandler) :
  call_handler st h None
  = (log_error st spread_TypeError, Throw spread_TypeError).
Proof. reflexivity. Qed.

(** C6. When [exposeMainApi] returns for an API of a class not exposed
    before, every public method of the API has on its channel a handler
    that captures the method and the restorer, and this handler is the
    responder of the channel.  On a call with an array of arguments, the
    handler restores each argument with [Restorer.restoreValue] and the
    restorer, calls the method on the restored arguments, awaits its
    result and, when nothing was thrown, returns the result made
    restorable with [Restorer.makeRestorable] and leaves the state as it
    was.  (The call of [exposeMainApi] throws, and installs no handler
    for the methods that follow, when [ipcMain.handle] meets a channel
    that has a handler.) *)
Theorem exposed_method_call_reply (st exposed : State) (mainApi : ApiObject)
    (restorer : option RestorerFunction) (methodName : string)
    (method : list value -> Completion value) :
  _mainApiMap st !! constructor_name mainApi = None ->
  exposeMainApi_or_throw st mainApi restorer = (exposed, Normal tt) ->
  methodName ∈ getPropertyNames mainApi ->
  passes_name_guard methodName = true ->
  get_property mainApi methodName = PFunction method ->
  let h := {| h_method := method; h_restorer := restorer |} in
  ((toIpcName (constructor_name mainApi) methodName, h) ∈ handlers exposed)
  /\ find_handler (handlers exposed)
       (toIpcName (constructor_name mainApi) methodName) = Some h
  /\ forall (st' : State) (args args' : list value) (replyValue : value),
       Forall2 (fun arg arg' => restoreValue arg restorer = Normal arg')
         args args' ->
       method args' = Normal replyValue ->
       call_handler st' h (Some args)
       = (st', Normal (returned (makeRestorable replyValue))).
Proof.
  intros Hfresh Hret Hin Hguard Hprop h.
  assert (Hinst : (toIpcName (constructor_name mainApi) methodName, h)
                  ∈ installed_handlers mainApi restorer
                      (getPropertyNames mainApi)).
  { apply installed_handlers_spec. exists methodName, method. done. }
  assert (Hchannels :
            NoDup (map (toIpcName (constructor_name mainApi))
                     (registered_names mainApi))
            /\ forall channel : string,
                 channel ∈ map (toIpcName (constructor_name mainApi))
                             (registered_names mainApi) ->
                 channel ∉ (handlers st).*1).
  { apply (exposeMainApi_or_throw_returns_iff st mainApi restorer Hfresh).
    by rewrite Hret. }
  destruct Hchannels as [Hnd Hfree].
  apply exposeMainApi_or_throw_normal in Hret as <-.
  rewrite exposeMainApi_fresh by done. simpl.
  rewrite installIpcListeners_handlers.
  split; [|split].
  - apply elem_of_app. by right.
  - rewrite find_handler_app_r.
    + apply find_handler_NoDup; [|done]. by rewrite installed_channels.
    + apply Hfree. unfold registered_names.
      rewrite <- (installed_channels mainApi restorer).
      apply list_elem_of_fmap.
      by exists (toIpcName (constructor_name mainApi) methodName, h).
  - intros st' args args' replyValue Hargs Hcall.
    apply restoreArgs_Forall2 in Hargs.
    unfold call_handler. rewrite (handler_try_method h _ _ Hargs).
    simpl. by rewrite Hcall.
Qed.

(** C8. When [exposeMainApi] returns for an API instance of a class not
    exposed before, no name that starts with [_] or [#] is among the
    method names registered for the class and no handler is installed
    on the channel of such a name, while every other method of the
    instance (a property that holds a function, the constructor apart)
    is registered and has its handler installed on its channel.  (The
    call returns when the channels of these methods are distinct and
    without handler; otherwise [ipcMain.handle] throws and nothing is
    registered.) *)
Theorem exposeMainApi_private_excluded (st exposed : State)
    (mainApi : ApiObject) (restorer : option RestorerFunction) :
  (forall m1 m2 : string,
     toIpcName (constructor_name mainApi) m1
     = toIpcName (constructor_name mainApi) m2 -> m1 = m2) ->
  _mainApiMap st !! constructor_name mainApi = None ->
  exposeMainApi_or_throw st mainApi restorer = (exposed, Normal tt) ->
  exists (methodNames : list string) (added : list (string * CallHandler)),
    _mainApiMap exposed !! constructor_name mainApi = Some methodNames
    /\ handlers exposed = handlers st ++ added
    /\ (forall methodName : string,
          has_private_marker methodName = true ->
          (methodName ∉ methodNames)
          /\ (toIpcName (constructor_name mainApi) methodName ∉ added.*1))
    /\ (forall (methodName : string) (method : list value -> Completion value),
          methodName ∈ getPropertyNames mainApi ->
          get_property mainApi methodName = PFunction method ->
          has_private_marker methodName = false ->
          methodName <> "constructor" ->
          (methodName ∈ methodNames)
          /\ ((toIpcName (constructor_name mainApi) methodName,
               {| h_method := method; h_restorer := restorer |}) ∈ added)).
Proof.
  intros Hinj Hfresh Hret.
  apply exposeMainApi_or_throw_normal in Hret as <-.
  exists (registered_names mainApi),
    (installed_handlers mainApi restorer (getPropertyNames mainApi)).
  rewrite exposeMainApi_fresh by done. simpl.
  rewrite lookup_insert_eq, installIpcListeners_handlers.
  split; [done|]. split; [done|]. split.
  - intros methodName Hprivate.
    assert (Hout : methodName ∉ registered_names mainApi).
    { intros Hin. apply exposed_names_spec in Hin as (_ & Hguard & _).
      by rewrite has_private_marker_guard in Hguard. }
    split; [done|].
    rewrite installed_channels, list_elem_of_fmap.
    intros (n & Heq & Hin). apply Hinj in Heq. by subst n.
  - intros methodName method Hin Hprop Hpublic Hctor.
    assert (Hguard : passes_name_guard methodName = true)
      by (by apply passes_name_guard_spec).
    split.
    + apply exposed_names_spec. by rewrite Hprop.
    + apply installed_handlers_spec. by exists methodName, method.
Qed.

(** C10. When [exposeMainApi] returns for an API instance of a class
    not exposed before, the method names registered for the class are
    names of its properties that pass the guard on names and hold a
    function, and the handlers installed are those of these names.  So
    the property [constructor] and every property that does not hold a
    function are left out: they are not registered and no handler is
    installed on their channel; the call returns all the same and
    nothing is reported for them.  (The call throws only when
    [ipcMain.handle] meets a channel that has a handler.) *)
Theorem exposeMainApi_registers_functions_only (st exposed : State)
    (mainApi : ApiObject) (restorer : option RestorerFunction) :
  (forall m1 m2 : string,
     toIpcName (constructor_name mainApi) m1
     = toIpcName (constructor_name mainApi) m2 -> m1 = m2) ->
  _mainApiMap st !! constructor_name mainApi = None ->
  exposeMainApi_or_throw st mainApi restorer = (exposed, Normal tt) ->
  exists (methodNames : list string) (added : list (string * CallHandler)),
    _mainApiMap exposed !! constructor_name mainApi = Some methodNames
    /\ handlers exposed = handlers st ++ added
    /\ added.*1 = map (toIpcName (constructor_name mainApi)) methodNames
    /\ (forall methodName : string,
          methodName ∈ methodNames ->
          (methodName ∈ getPropertyNames mainApi)
          /\ methodName <> "constructor"
          /\ has_private_marker methodName = false
          /\ is_function (get_property mainApi methodName) = true)
    /\ (("constructor" ∉ methodNames)
        /\ (toIpcName (constructor_name mainApi) "constructor" ∉ added.*1))
    /\ (forall methodName : string,
          is_function (get_property mainApi methodName) = false ->
          (methodName ∉ methodNames)
          /\ (toIpcName (constructor_name mainApi) methodName ∉ added.*1)).
Proof.
  intros Hinj Hfresh Hret.
  apply exposeMainApi_or_throw_normal in Hret as <-.
  exists (registered_names mainApi),
    (installed_handlers mainApi restorer (getPropertyNames mainApi)).
  rewrite exposeMainApi_fresh by done. simpl.
  rewrite lookup_insert_eq, installIpcListeners_handlers, installed_channels.
  assert (Hout : forall n, n ∉ registered_names mainApi ->
            toIpcName (constructor_name mainApi) n
              ∉ map (toIpcName (constructor_name mainApi))
                  (registered_names mainApi)).
  { intros n Hn. rewrite list_elem_of_fmap. intros (m & Heq & Hin).
    apply Hinj in Heq. by subst m. }
  assert (Hctor : "constructor" ∉ registered_names mainApi).
  { intros Hin. by apply exposed_names_spec in Hin as (_ & Hguard & _). }
  assert (Hdata : forall n, is_function (get_property mainApi n) = false ->
            n ∉ registered_names mainApi).
  { intros n Hn Hin. apply exposed_names_spec in Hin as (_ & _ & Hf).
    congruence. }
  split; [done|]. split; [done|]. split; [done|]. split; [|by auto].
  intros methodName Hin.
  apply exposed_names_spec in Hin as (Hin & Hguard & Hf).
  by apply passes_name_guard_spec in Hguard as [? ?].
Qed.

End MainApis.

(** ** Exposure and discovery over the life of the process *)

Section Discovery.
Context `{Restorer} `{SharedIpc}.


Lemma emit_request_listening (st : State) (sender : Z)
    (apiClassName : string) :
  listeners st = discovery_listeners ->
  ipcMain_emit st API_REQUEST_IPC sender (PClassName apiClassName)
  = on_api_request st sender apiClassName.
Proof. intros E. unfold ipcMain_emit. by rewrite E. Qed.

Lemma run_answers_discovery_request (history : list Event) (sender : Z)
    (apiClassName : string) :
  let st := run history in
  let st' := step st (Receive API_REQUEST_IPC sender (PClassName apiClassName)) in
  match first_exposure history apiClassName with
  | Some mainApi =>
      sent st' = sent st ++ [registration_reply sender apiClassName
                               (Some (registered_names mainApi))]
  | None =>
      if _listeningForIPC st
      then sent st' = sent st ++ [registration_reply sender apiClassName None]
      else sent st' = sent st
  end.
Proof.
  intros st st'. subst st'. simpl.
  pose proof (run_listeners history) as Hls. fold st in Hls.
  pose proof (run_mainApiMap history apiClassName) as Hmap. fold st in Hmap.
  pose proof (run_registered_listening history apiClassName) as Hon.
  fold st in Hon.
  destruct (first_exposure history apiClassName) as [mainApi|].
  - rewrite Hon in Hls by eauto. rewrite emit_request_listening by done.
    unfold on_api_request, registration_reply. simpl. by rewrite Hmap.
  - destruct (_listeningForIPC st).
    + rewrite emit_request_listening by done.
      unfold on_api_request, registration_reply. simpl. by rewrite Hmap.
    + unfold ipcMain_emit. by rewrite Hls.
Qed.

(** C5, amended. In a process whose calls of [exposeMainApi] have all
    returned, a discovery request naming a class gets exactly one
    message in answer once the listeners are installed.  If an API of
    the class was exposed before, the answer is the registration of the
    class: its name with the method names registered at its first
    exposure.  If the class was never exposed, the answer is still a
    registration: it has the name of the class and no method names
    (the property is [undefined]).  Before any API was exposed or bound
    no listener is installed and the request gets no answer.  (A call
    of [exposeMainApi] that throws registers nothing: see
    [exposeMainApi_or_throw_abort].) *)
Theorem discovery_request_answer (history : list Event) (sender : Z)
    (apiClassName : string) :
  exposures_return history = true ->
  let st := run_or_throw history in
  let st' :=
    step_or_throw st
      (Receive API_REQUEST_IPC sender (PClassName apiClassName)) in
  match first_exposure history apiClassName with
  | Some mainApi =>
      sent st' = sent st ++ [registration_reply sender apiClassName
                               (Some (registered_names mainApi))]
  | None =>
      if _listeningForIPC st
      then sent st' = sent st ++ [registration_reply sender apiClassName None]
      else sent st' = sent st
  end.
Proof.
  intros Hret. rewrite (run_or_throw_returns history Hret).
  change (step_or_throw (run history)
            (Receive API_REQUEST_IPC sender (PClassName apiClassName)))
    with (step (run history)
            (Receive API_REQUEST_IPC sender (PClassName apiClassName))).
  apply run_answers_discovery_request.
Qed.

End Discovery.

(** ** Binding to window APIs *)

Section WindowApis.
Context `{Restorer} `{SharedIpc}.

Lemma installIpcListeners_bound (st : State) :
  _boundWindowApisByWindowID (_installIpcListeners st)
  = _boundWindowApisByWindowID st.
Proof. by frame. Qed.

Lemma installIpcListeners_promises (st : State) :
  promises (_installIpcListeners st) = promises st.
Proof. by frame. Qed.

Lemma installIpcListeners_sent (st : State) :
  sent (_installIpcListeners st) = sent st.
Proof. by frame. Qed.

Lemma installIpcListeners_timers (st : State) :
  timers (_installIpcListeners st) = timers st.
Proof. by frame. Qed.

Lemma installIpcListeners_heap (st : State) :
  heap (_installIpcListeners st) = heap st.
Proof. by frame. Qed.

Lemma new_promise_pending (ps : list PromiseState) :
  (ps ++ [Pending]) !! length ps = Some Pending.
Proof. by rewrite lookup_app_r, Nat.sub_diag by lia. Qed.

(** Resolving the promise a call has just made. *)
Lemma resolve_new_promise (st : State) (boundApi : nat) :
  resolve_promise (set_promises (promises st ++ [Pending]) st)
    (length (promises st)) boundApi
  = set_promises (promises st ++ [Fulfilled boundApi]) st.
Proof.
  unfold resolve_promise. simpl. rewrite new_promise_pending.
  unfold set_promises. simpl. f_equal.
  rewrite insert_app_r_alt, Nat.sub_diag by lia. done.
Qed.

(** A call of [bindWindowApi] that finds a bound API in the table. *)
Lemma bindWindowApi_cached_eq (st : State) (window : BrowserWindow)
    (apiClassName : string) (boundApi : nat) :
  cached_boundApi st window apiClassName = Some boundApi ->
  bindWindowApi st window apiClassName
  = (set_promises (promises st ++ [Fulfilled boundApi])
       (_installIpcListeners st),
     length (promises st)).
Proof.
  intros Hcached. unfold bindWindowApi.
  assert (Hc : cached_boundApi
                 (set_promises (promises (_installIpcListeners st) ++ [Pending])
                    (_installIpcListeners st)) window apiClassName
               = Some boundApi).
  { unfold cached_boundApi in *. simpl.
    by rewrite installIpcListeners_bound. }
  rewrite Hc, resolve_new_promise. by rewrite installIpcListeners_promises.
Qed.

(** C7. A call of [bindWindowApi] for a window and a class that have an
    entry in the table of bound APIs returns a promise that is already
    fulfilled with the bound API of the entry.  The call sends no
    message, so no discovery request, sets no timer, so starts no retry
    loop, and builds no new bound API. *)
Theorem bindWindowApi_cached (st : State) (window : BrowserWindow)
    (apiClassName : string) (boundApi : nat) :
  cached_boundApi st window apiClassName = Some boundApi ->
  promises (bindWindowApi st window apiClassName).1
    !! (bindWindowApi st window apiClassName).2 = Some (Fulfilled boundApi)
  /\ sent (bindWindowApi st window apiClassName).1 = sent st
  /\ timers (bindWindowApi st window apiClassName).1 = timers st
  /\ heap (bindWindowApi st window apiClassName).1 = heap st
  /\ cached_boundApi (bindWindowApi st window apiClassName).1 window
       apiClassName = Some boundApi.
Proof.
  intros Hcached. rewrite (bindWindowApi_cached_eq _ _ _ _ Hcached). simpl.
  rewrite installIpcListeners_sent, installIpcListeners_timers,
    installIpcListeners_heap.
  split; [by rewrite lookup_app_r, Nat.sub_diag by lia|].
  unfold cached_boundApi in *. simpl. by rewrite installIpcListeners_bound.
Qed.

(** An attempt that finds no registration sends a discovery request to
    the window and changes nothing else. *)
Lemma attemptBindWindowApi_unregistered (st : State) (window : BrowserWindow)
    (apiClassName : string) (resolve : nat) :
  registered_methodNames st window apiClassName = None ->
  _attemptBindWindowApi st window apiClassName resolve
  = (set_sent (sent st ++ [discovery_request window apiClassName]) st, false).
Proof. intros E. unfold _attemptBindWindowApi. by rewrite E. Qed.

(** An attempt that finds a registration builds a bound API, which is
    a new object, puts it in the table and resolves the promise of the
    call with it. *)
Lemma attemptBindWindowApi_registered (st : State) (window : BrowserWindow)
    (apiClassName : string) (resolve : nat) (names : list string) :
  registered_methodNames st window apiClassName = Some names ->
  let st' := (_attemptBindWindowApi st window apiClassName resolve).1 in
  (_attemptBindWindowApi st window apiClassName resolve).2 = true
  /\ heap st' = heap st ++ [{| bound_window := window;
                               bound_class := apiClassName;
                               bound_methods := names |}]
  /\ cached_boundApi st' window apiClassName = Some (length (heap st))
  /\ sent st' = sent st
  /\ (promises st !! resolve = Some Pending ->
      promises st' !! resolve = Some (Fulfilled (length (heap st)))).
Proof.
  intros E. unfold _attemptBindWindowApi. rewrite E. simpl.
  split; [done|]. unfold resolve_promise. simpl.
  destruct (promises st !! resolve) as [[]|] eqn:P; simpl;
    unfold cached_boundApi; simpl;
    rewrite !lookup_insert_eq; repeat split; try done.
  intros _. apply list_lookup_insert_eq. by eapply lookup_lt_Some.
Qed.

(** With an engine that writes its encoding into its argument, the
    message of a bound method carries the encoded arguments. *)
Lemma bound_method_payload_in_place (st : State) (boundApi : nat)
    (api : BoundApi) (methodName : string) (args : list value) :
  heap st !! boundApi = Some api ->
  methodName ∈ bound_methods api ->
  (forall arg, in_place (makeRestorable arg) = returned (makeRestorable arg)) ->
  sent <$> (fst <$> call_bound_method st boundApi methodName args)
  = Some (sent st
          ++ [{| msg_to := webContents_id (bound_window api);
                 msg_channel := toIpcName (bound_class api) methodName;
                 msg_payload :=
                   PArgs (map (fun arg => returned (makeRestorable arg))
                            args) |}]).
Proof.
  intros Hheap Hin Hengine. unfold call_bound_method.
  rewrite Hheap, bool_decide_eq_true_2 by done. simpl.
  do 5 f_equal. apply map_ext. intros arg. apply Hengine.
Qed.

(** C9. A method of a bound window API, called with any arguments,
    hands each argument to [Restorer.makeRestorable] and sends the
    array of the arguments: with an engine that makes its argument
    restorable where it is (what the call leaves is the encoding it
    returns), the method sends exactly one message, to the window of
    the binding, on the channel named by [toIpcName] from the class
    name and the method name, carrying the encoding of every argument
    in order.  It returns [undefined]: it gives no result and throws
    nothing of its own, and nothing else of the state changes. *)
Theorem bound_method_sends_once (st : State) (boundApi : nat)
    (api : BoundApi) (methodName : string) (args : list value) :
  heap st !! boundApi = Some api ->
  methodName ∈ bound_methods api ->
  (forall arg, in_place (makeRestorable arg) = returned (makeRestorable arg)) ->
  exists st' : State,
    call_bound_method st boundApi methodName args = Some (st', VUndefined)
    /\ sent st'
       = sent st
         ++ [{| msg_to := webContents_id (bound_window api);
                msg_channel := toIpcName (bound_class api) methodName;
                msg_payload :=
                  PArgs (map (fun arg => returned (makeRestorable arg))
                           args) |}]
    /\ length (sent st') = S (length (sent st))
    /\ set_sent (sent st) st' = st.
Proof.
  intros Hheap Hin Hengine. unfold call_bound_method.
  rewrite Hheap, bool_decide_eq_true_2 by done.
  assert (Hargs : map (fun arg => in_place (makeRestorable arg)) args
                  = map (fun arg => returned (makeRestorable arg)) args)
    by (apply map_ext; intros arg; apply Hengine).
  eexists. split; [done|]. unfold webContents_send. simpl. rewrite Hargs.
  split; [done|]. split.
  - rewrite length_app. simpl. lia.
  - by destruct st.
Qed.

(** C2, amended. The table holds at most one bound API for a window and
    a class, and a call of [bindWindowApi] made while it holds one
    returns a promise fulfilled with that one, sends nothing and builds
    nothing.  A call made while it holds none is on its own: each of its
    attempts that finds no registration sends a discovery request, and
    its attempt that finds the registration builds a bound API that is
    a new object, puts it in the table in place of any other and
    resolves the promise of the call with it. *)
Theorem bind_uses_cache_else_builds (st : State) (window : BrowserWindow)
    (apiClassName : string) :
  (forall boundApi : nat,
     cached_boundApi st window apiClassName = Some boundApi ->
     let st' := (bindWindowApi st window apiClassName).1 in
     promises st' !! (bindWindowApi st window apiClassName).2
     = Some (Fulfilled boundApi)
     /\ sent st' = sent st /\ heap st' = heap st)
  /\ (forall resolve : nat,
        registered_methodNames st window apiClassName = None ->
        let st' := (_attemptBindWindowApi st window apiClassName resolve).1 in
        (_attemptBindWindowApi st window apiClassName resolve).2 = false
        /\ sent st' = sent st ++ [discovery_request window apiClassName]
        /\ heap st' = heap st /\ promises st' = promises st)
  /\ (forall (resolve : nat) (names : list string),
        registered_methodNames st window apiClassName = Some names ->
        promises st !! resolve = Some Pending ->
        let st' := (_attemptBindWindowApi st window apiClassName resolve).1 in
        (_attemptBindWindowApi st window apiClassName resolve).2 = true
        /\ heap st !! length (heap st) = None
        /\ heap st' !! length (heap st)
           = Some {| bound_window := window; bound_class := apiClassName;
                     bound_methods := names |}
        /\ cached_boundApi st' window apiClassName = Some (length (heap st))
        /\ promises st' !! resolve = Some (Fulfilled (length (heap st)))
        /\ sent st' = sent st).
Proof.
  split; [|split].
  - intros boundApi Hcached st'. subst st'.
    rewrite (bindWindowApi_cached_eq _ _ _ _ Hcached). simpl.
    rewrite installIpcListeners_sent, installIpcListeners_heap.
    split; [by rewrite lookup_app_r, Nat.sub_diag by lia|done].
  - intros resolve Hnone st'. subst st'.
    by rewrite attemptBindWindowApi_unregistered.
  - intros resolve names Hsome Hpending st'.
    destruct (attemptBindWindowApi_registered st window apiClassName resolve
                names Hsome) as (Hb & Hheap & Hc & Hsent & Hp).
    fold st' in Hheap, Hc, Hsent, Hp.
    split; [done|]. split; [by apply lookup_ge_None_2|].
    split; [by rewrite Hheap, lookup_app_r, Nat.sub_diag by lia|]. auto.
Qed.

End WindowApis.

(** ** The retry loop and the binding timeout *)

Section RetryLoop.
Context `{Restorer} `{SharedIpc}.

Lemma run_timers_S (n : nat) (st : State) :
  run_timers (S n) st = run_timer (run_timers n st).
Proof. revert st. induction n as [|n IH]; intros st; [done|]. simpl. by rewrite <- IH. Qed.

Lemma run_timers_idle (n : nat) (st : State) :
  timers st = [] -> run_timers n st = st.
Proof.
  intros E. induction n as [|n IH]; [done|].
  simpl. unfold run_timer. by rewrite E.
Qed.

Lemma run_timers_add (n m : nat) (st : State) :
  run_timers (n + m) st = run_timers m (run_timers n st).
Proof. revert st. induction n as [|n IH]; intros st; [done|]. simpl. apply IH. Qed.

Lemma retryUntilTimeout_unregistered (st : State) (k : RetryTask) :
  registered_methodNames st (rt_window k) (rt_apiClassName k) = None ->
  retryUntilTimeout st k
  = let st1 :=
      set_sent (sent st
                ++ [discovery_request (rt_window k) (rt_apiClassName k)]) st in
    if bindingTimeoutMillis <=? rt_elapsedMillis k
    then (st1, Throw (Error_ (rt_timeoutMessage k)))
    else (setTimeout st1
            {| rt_elapsedMillis := rt_elapsedMillis k + retryMillis;
               rt_window := rt_window k;
               rt_apiClassName := rt_apiClassName k;
               rt_promise := rt_promise k;
               rt_timeoutMessage := rt_timeoutMessage k |} retryMillis,
          Normal tt).
Proof.
  intros E. unfold retryUntilTimeout.
  by rewrite attemptBindWindowApi_unregistered.
Qed.

Lemma retry_timer_eq (d d' e e' : Z) (window : BrowserWindow)
    (apiClassName message : string) (promise : nat) :
  d = d' -> e = e' ->
  [{| due := d;
      task := {| rt_elapsedMillis := e; rt_window := window;
                 rt_apiClassName := apiClassName; rt_promise := promise;
                 rt_timeoutMessage := message |} |}]
  = [{| due := d';
        task := {| rt_elapsedMillis := e'; rt_window := window;
                   rt_apiClassName := apiClassName; rt_promise := promise;
                   rt_timeoutMessage := message |} |}].
Proof. by intros -> ->. Qed.

(** A run of the retry task before the timeout sets the next one. *)
Lemma run_timer_waiting (window : BrowserWindow) (apiClassName : string)
    (promise : nat) (t0 : Z) (u0 : list value) (i : nat) (st : State) :
  0 < retryMillis ->
  (Z.of_nat i + 1) * retryMillis < bindingTimeoutMillis ->
  retry_waiting window apiClassName promise t0 u0 i st ->
  retry_waiting window apiClassName promise t0 u0 (S i) (run_timer st).
Proof.
  intros Hr Hlt (Hreg & Hp & Hu & Hnow & Ht).
  unfold run_timer. rewrite Ht.
  rewrite retryUntilTimeout_unregistered by done. simpl.
  destruct (Z.leb_spec bindingTimeoutMillis ((Z.of_nat i + 1) * retryMillis));
    [lia|].
  unfold retry_waiting, setTimeout, retry_task. simpl.
  split; [done|]. split; [done|]. split; [done|]. split; [lia|].
  apply retry_timer_eq; lia.
Qed.

(** The run of the retry task that finds the timeout reached throws,
    and the exception is caught by no one. *)
Lemma run_timer_timeout (window : BrowserWindow) (apiClassName : string)
    (promise : nat) (t0 : Z) (u0 : list value) (i : nat) (st : State) :
  0 < retryMillis ->
  bindingTimeoutMillis <= (Z.of_nat i + 1) * retryMillis ->
  retry_waiting window apiClassName promise t0 u0 i st ->
  promises (run_timer st) !! promise = Some Pending
  /\ uncaught (run_timer st) = u0 ++ [Error_ (timeoutMessage window apiClassName)]
  /\ now (run_timer st) = t0 + (Z.of_nat i + 1) * retryMillis
  /\ timers (run_timer st) = [].
Proof.
  intros Hr Hge (Hreg & Hp & Hu & Hnow & Ht).
  unfold run_timer. rewrite Ht.
  rewrite retryUntilTimeout_unregistered by done. simpl.
  destruct (Z.leb_spec bindingTimeoutMillis ((Z.of_nat i + 1) * retryMillis));
    [|lia].
  simpl. rewrite Hu. split; [done|]. split; [done|]. split; [lia|done].
Qed.

(** The call itself, when it finds neither a bound API nor a
    registration and the timeout is positive. *)
Lemma bindWindowApi_waiting (st : State) (window : BrowserWindow)
    (apiClassName : string) :
  0 < bindingTimeoutMillis ->
  0 < retryMillis ->
  timers st = [] ->
  registered_methodNames st window apiClassName = None ->
  cached_boundApi st window apiClassName = None ->
  (bindWindowApi st window apiClassName).2 = length (promises st)
  /\ retry_waiting window apiClassName (length (promises st)) (now st)
       (uncaught st) 0 (bindWindowApi st window apiClassName).1.
Proof.
  intros HT Hr Ht Hreg Hc. unfold bindWindowApi.
  assert (cached_boundApi
            (set_promises (promises (_installIpcListeners st) ++ [Pending])
               (_installIpcListeners st)) window apiClassName = None) as ->.
  { unfold cached_boundApi in *. simpl. by rewrite installIpcListeners_bound. }
  rewrite retryUntilTimeout_unregistered.
  2:{ unfold registered_methodNames in *. simpl.
      by destruct (_listeningForIPC st) eqn:E;
        unfold _installIpcListeners; rewrite E. }
  simpl. destruct (Z.leb_spec bindingTimeoutMillis 0); [lia|]. simpl.
  rewrite installIpcListeners_promises. split; [done|].
  unfold retry_waiting, retry_task, registered_methodNames in *. simpl.
  rewrite installIpcListeners_timers, Ht, new_promise_pending.
  assert (Hsame : forall s : State,
            (_windowApiMapByWebContentsID (_installIpcListeners s),
             uncaught (_installIpcListeners s), now (_installIpcListeners s))
            = (_windowApiMapByWebContentsID s, uncaught s, now s))
    by (intros s; by frame).
  specialize (Hsame st). injection Hsame as -> -> ->.
  split; [done|]. split; [done|]. split; [done|]. split; [lia|].
  simpl. apply retry_timer_eq; lia.
Qed.

Lemma retries_to_timeout_bounds :
  0 < bindingTimeoutMillis ->
  0 < retryMillis ->
  1 <= Z.of_nat retries_to_timeout
  /\ (Z.of_nat retries_to_timeout - 1) * retryMillis < bindingTimeoutMillis
  /\ bindingTimeoutMillis <= Z.of_nat retries_to_timeout * retryMillis.
Proof.
  intros HT Hr. unfold retries_to_timeout.
  set (q := (bindingTimeoutMillis + retryMillis - 1) / retryMillis).
  pose proof (Z.div_mod (bindingTimeoutMillis + retryMillis - 1) retryMillis)
    as Hdiv.
  pose proof (Z.mod_pos_bound (bindingTimeoutMillis + retryMillis - 1)
                retryMillis Hr) as Hmod.
  fold q in Hdiv.
  assert (Hq : 1 <= q) by (apply Z.div_le_lower_bound; lia).
  rewrite Z2Nat.id by lia. nia.
Qed.

Lemma waiting_until_timeout (st : State) (window : BrowserWindow)
    (apiClassName : string) (i : nat) :
  0 < bindingTimeoutMillis ->
  0 < retryMillis ->
  timers st = [] ->
  registered_methodNames st window apiClassName = None ->
  cached_boundApi st window apiClassName = None ->
  (i < retries_to_timeout)%nat ->
  retry_waiting window apiClassName (length (promises st)) (now st)
    (uncaught st) i
    (run_timers i (bindWindowApi st window apiClassName).1).
Proof.
  intros HT Hr Ht Hreg Hc.
  destruct (retries_to_timeout_bounds HT Hr) as (Hq1 & Hq2 & Hq3).
  induction i as [|i IH]; intros Hi.
  - by apply bindWindowApi_waiting.
  - rewrite run_timers_S. apply run_timer_waiting; [done|nia|].
    apply IH. lia.
Qed.

(** C3, as the code has it.  Take a process with no timer set and a
    call of [bindWindowApi] for a window and a class that have no bound
    API and no registration, with a positive timeout and retry
    interval, and let no registration arrive.  The timeout error, whose
    message names the class and the window, is raised by the run of the
    retry task at which the time waited has reached the timeout: no
    earlier than the timeout after the call and less than one retry
    interval later.  It is raised inside a timer task, where no one
    catches it, and the promise that the call returned is pending
    after any number of runs of the event loop: it is never rejected. *)
Theorem bind_timeout_raised_promise_pending (st : State)
    (window : BrowserWindow) (apiClassName : string) :
  0 < bindingTimeoutMillis ->
  0 < retryMillis ->
  timers st = [] ->
  registered_methodNames st window apiClassName = None ->
  cached_boundApi st window apiClassName = None ->
  let bound := bindWindowApi st window apiClassName in
  let timed_out := run_timers retries_to_timeout bound.1 in
  (forall n : nat, promises (run_timers n bound.1) !! bound.2 = Some Pending)
  /\ (forall n : nat, (n < retries_to_timeout)%nat ->
        uncaught (run_timers n bound.1) = uncaught st)
  /\ uncaught timed_out
     = uncaught st ++ [Error_ (timeoutMessage window apiClassName)]
  /\ now st + bindingTimeoutMillis <= now timed_out
     < now st + bindingTimeoutMillis + retryMillis
  /\ timers timed_out = [].
Proof.
  intros HT Hr Ht Hreg Hc bound timed_out. subst timed_out.
  destruct (retries_to_timeout_bounds HT Hr) as (Hq1 & Hq2 & Hq3).
  destruct (bindWindowApi_waiting st window apiClassName HT Hr Ht Hreg Hc)
    as [Hpromise _].
  fold bound in Hpromise.
  pose proof (fun i => waiting_until_timeout st window apiClassName i
                         HT Hr Ht Hreg Hc) as Hwait.
  fold bound in Hwait.
  destruct retries_to_timeout as [|k] eqn:Hk; [lia|].
  assert (Hlast : retry_waiting window apiClassName (length (promises st))
                    (now st) (uncaught st) k (run_timers k bound.1))
    by (apply Hwait; lia).
  apply run_timer_timeout in Hlast as (Hp & Hu & Hnow & Htimers);
    [|done|lia].
  rewrite <- run_timers_S in Hp, Hu, Hnow, Htimers.
  split; [|split; [|split; [done|split; [nia|done]]]].
  - intros n. rewrite Hpromise.
    destruct (decide (n < S k)%nat) as [Hlt|Hge].
    + by destruct (Hwait n Hlt) as (_ & Hpending & _).
    + replace n with (S k + (n - S k))%nat by lia.
      rewrite run_timers_add. by rewrite run_timers_idle.
  - intros n Hlt. by destruct (Hwait n Hlt) as (_ & _ & Hu' & _).
Qed.

End RetryLoop.

(** * The results at the sample APIs *)

Section Samples.
#[local] Existing Instance copying_restorer.
#[local] Existing Instance sample_ipc.

Lemma append_inj_r (s t1 t2 : string) : s +:+ t1 = s +:+ t2 -> t1 = t2.
Proof.
  induction s as [|c s IH]; simpl; [done|].
  intros E. injection E as E. by apply IH.
Qed.

Lemma sample_toIpcName_inj (apiClassName m1 m2 : string) :
  toIpcName apiClassName m1 = toIpcName apiClassName m2 -> m1 = m2.
Proof.
  simpl. intros E. apply append_inj_r in E. by injection E.
Qed.

(** The scenario of the spec: [hello("Ada")] resolves to ["Hi, Ada"]
    and [hello("")] rejects with ["bad name"]. *)
Example greeter_scenario :
  (call_main_method greeter_exposed "Greeter" "hello" [VString "Ada"] None).2
  = Normal (VString "Hi, Ada")
  /\ (call_main_method greeter_exposed "Greeter" "hello" [VString ""] None).2
     = Throw (VString "bad name").
Proof. split; reflexivity. Qed.

(** Instances of classes cross the channel in both directions. *)
Example greeter_echo_catter :
  (call_main_method greeter_exposed "Greeter" "echo" [catter "a" "b"]
     (Some sample_lookup)).2
  = Normal (catter "a" "b").
Proof. reflexivity. Qed.

(** C1 at [greeter]: [hello("")] throws a [RelayedError] and the call
    of the proxy rejects with its payload, nothing being logged;
    [crash()] throws a plain error, which the logger receives once and
    with which the call of the proxy rejects. *)
Lemma exposed_method_throw_witness :
  (call_handler greeter_exposed hello_handler (Some [VString ""])
   = (greeter_exposed, Normal (makeReturnedError (VString "bad name")))
   /\ call_main_method greeter_exposed "Greeter" "hello" [VString ""] None
      = (greeter_exposed, Throw (VString "bad name")))
  /\ (call_handler greeter_exposed crash_handler (Some [])
      = (log_error greeter_exposed (Error_ "crashed"),
         Throw (Error_ "crashed"))
      /\ logged (log_error greeter_exposed (Error_ "crashed"))
         = logged greeter_exposed ++ [(1%nat, Error_ "crashed")]
      /\ call_main_method greeter_exposed "Greeter" "crash" [] None
         = (log_error greeter_exposed (Error_ "crashed"),
            Throw (Error_ "crashed"))).
Proof.
  split.
  - assert (Hfind : find_handler (handlers greeter_exposed)
                      (toIpcName "Greeter" "hello") = Some hello_handler)
      by reflexivity.
    assert (Hargs : restoreArgs [VString ""] (h_restorer hello_handler)
                    = Normal [VString ""]) by reflexivity.
    assert (Hthrow : h_method hello_handler [VString ""]
                     = Throw (VRelayedError (VString "bad name")))
      by reflexivity.
    destruct (exposed_method_throw_relayed_or_rethrown greeter_exposed
                "Greeter" "hello" hello_handler [VString ""] [VString ""]
                (VRelayedError (VString "bad name")) Hfind Hargs Hthrow)
      as (Hh & _ & Hcall).
    split; [exact Hh|]. apply Hcall; reflexivity.
  - assert (Hfind : find_handler (handlers greeter_exposed)
                      (toIpcName "Greeter" "crash") = Some crash_handler)
      by reflexivity.
    assert (Hargs : restoreArgs [] (h_restorer crash_handler) = Normal [])
      by reflexivity.
    assert (Hthrow : h_method crash_handler [] = Throw (Error_ "crashed"))
      by reflexivity.
    destruct (exposed_method_throw_relayed_or_rethrown greeter_exposed
                "Greeter" "crash" crash_handler [] [] (Error_ "crashed")
                Hfind Hargs Hthrow) as (Hh & Hlog & _ & Hcall).
    split; [exact Hh|]. split; [exact Hlog|]. apply Hcall; reflexivity.
Defined.

(** C2, amended, at [winapi_bound]: a further call of [bindWindowApi]
    gets the bound API of the table and sends nothing. *)
Lemma bind_uses_cache_witness :
  promises (bindWindowApi winapi_bound window1 "WinApi").1
    !! (bindWindowApi winapi_bound window1 "WinApi").2 = Some (Fulfilled 0%nat)
  /\ sent (bindWindowApi winapi_bound window1 "WinApi").1 = sent winapi_bound
  /\ heap (bindWindowApi winapi_bound window1 "WinApi").1 = heap winapi_bound.
Proof.
  destruct (bind_uses_cache_else_builds winapi_bound window1 "WinApi")
    as (Hcached & _ & _).
  exact (Hcached 0%nat eq_refl).
Defined.

(** C2 fails on two calls that overlap: each call is resolved with a
    bound API of its own, the two are different objects, and two
    discovery requests were sent. *)
Lemma concurrent_binds_two_bound_apis :
  promises concurrent_bound = [Fulfilled 0%nat; Fulfilled 1%nat]
  /\ length (heap concurrent_bound) = 2%nat
  /\ sent concurrent_bound
     = [discovery_request window1 "WinApi"; discovery_request window1 "WinApi"]
  /\ ~ (exists boundApi : nat,
          promises concurrent_bound !! 0%nat = Some (Fulfilled boundApi)
          /\ promises concurrent_bound !! 1%nat = Some (Fulfilled boundApi)).
Proof.
  split; [reflexivity|]. split; [reflexivity|]. split; [reflexivity|].
  intros (boundApi & H0 & H1). vm_compute in H0, H1. congruence.
Qed.

(** C3 at start-up, with a timeout of 300 ms and retries every 50 ms:
    the timeout error is raised at the sixth retry, 300 ms after the
    call, and caught by no one; the promise is pending then and after
    any further run of the event loop. *)
Lemma bind_timeout_witness :
  (forall n : nat,
     promises (run_timers n unanswered_bind.1) !! unanswered_bind.2
     = Some Pending)
  /\ uncaught (run_timers 6 unanswered_bind.1)
     = [Error_ "Main timed out waiting to bind to window API 'WinApi' (window ID 1)"]
  /\ 300 <= now (run_timers 6 unanswered_bind.1) < 350.
Proof.
  destruct (bind_timeout_raised_promise_pending initial_state window1 "WinApi")
    as (Hpending & _ & Hu & Hnow & _); try reflexivity.
  split; [exact Hpending|]. split; [exact Hu|exact Hnow].
Defined.

(** The same by evaluation: the state of the process at the timeout. *)
Example bind_timeout_evaluated :
  promises (run_timers 6 unanswered_bind.1) = [Pending]
  /\ uncaught (run_timers 6 unanswered_bind.1)
     = [Error_ (timeoutMessage window1 "WinApi")]
  /\ uncaught (run_timers 5 unanswered_bind.1) = []
  /\ now (run_timers 6 unanswered_bind.1) = 300
  /\ timers (run_timers 6 unanswered_bind.1) = []
  /\ length (sent (run_timers 6 unanswered_bind.1)) = 7%nat.
Proof. repeat split; reflexivity. Qed.


(** C5, amended, at [greeter_history]: a request for [Greeter] is
    answered with the names registered when [greeter] was exposed. *)
Lemma discovery_request_answer_witness :
  sent (step_or_throw (run_or_throw greeter_history)
          (Receive API_REQUEST_IPC 7 (PClassName "Greeter")))
  = sent (run_or_throw greeter_history)
    ++ [registration_reply 7 "Greeter" (Some ["hello"; "crash"; "echo"])].
Proof.
  assert (Hret : exposures_return greeter_history = true) by reflexivity.
  exact (discovery_request_answer greeter_history 7 "Greeter" Hret).
Defined.

(** C5 fails for a class that was never exposed, once some API has
    been: the request is answered, with a registration that has no
    method names. *)
Lemma discovery_of_unexposed_class_is_answered :
  first_exposure greeter_history "Nope" = None
  /\ sent greeter_exposed = []
  /\ sent (step greeter_exposed
             (Receive API_REQUEST_IPC 7 (PClassName "Nope")))
     = [registration_reply 7 "Nope" None]
  /\ sent (step greeter_exposed
             (Receive API_REQUEST_IPC 7 (PClassName "Nope")))
     <> sent greeter_exposed.
Proof. repeat split; try reflexivity. vm_compute. discriminate. Qed.

(** C6 at [greeter]: the handler of [hello] is installed and is the
    responder of its channel, and a call with ["Ada"] returns the
    greeting. *)
Lemma exposed_method_call_reply_witness :
  (("Greeter:hello", hello_handler)
     ∈ handlers (exposeMainApi_or_throw initial_state greeter None).1)
  /\ find_handler (handlers (exposeMainApi_or_throw initial_state greeter None).1)
       "Greeter:hello" = Some hello_handler
  /\ call_handler greeter_exposed hello_handler (Some [VString "Ada"])
     = (greeter_exposed, Normal (VString "Hi, Ada")).
Proof.
  assert (Hfresh : _mainApiMap initial_state !! constructor_name greeter = None)
    by reflexivity.
  assert (Hret : exposeMainApi_or_throw initial_state greeter None
                 = ((exposeMainApi_or_throw initial_state greeter None).1,
                    Normal tt)) by reflexivity.
  assert (Hin : "hello" ∈ getPropertyNames greeter)
    by (vm_compute; do 4 constructor).
  assert (Hguard : passes_name_guard "hello" = true) by reflexivity.
  assert (Hprop : get_property greeter "hello" = PFunction hello)
    by reflexivity.
  destruct (exposed_method_call_reply initial_state _ greeter None "hello"
              hello Hfresh Hret Hin Hguard Hprop) as (Hh & Hfind & Hcall).
  split; [exact Hh|]. split; [exact Hfind|].
  apply (Hcall greeter_exposed [VString "Ada"] [VString "Ada"]
           (VString "Hi, Ada")).
  - repeat constructor.
  - reflexivity.
Defined.

(** C7 at [winapi_bound]. *)
Lemma bindWindowApi_cached_witness :
  promises (bindWindowApi winapi_bound window1 "WinApi").1
    !! (bindWindowApi winapi_bound window1 "WinApi").2 = Some (Fulfilled 0%nat)
  /\ sent (bindWindowApi winapi_bound window1 "WinApi").1 = sent winapi_bound
  /\ timers (bindWindowApi winapi_bound window1 "WinApi").1
     = timers winapi_bound
  /\ heap (bindWindowApi winapi_bound window1 "WinApi").1 = heap winapi_bound
  /\ cached_boundApi (bindWindowApi winapi_bound window1 "WinApi").1 window1
       "WinApi" = Some 0%nat.
Proof.
  apply (bindWindowApi_cached winapi_bound window1 "WinApi" 0). reflexivity.
Defined.

(** C8 at [greeter]: [_helper] and [#secret] are left out, [hello] is
    registered with its handler. *)
Lemma exposeMainApi_private_excluded_witness :
  exists (methodNames : list string) (added : list (string * CallHandler)),
    _mainApiMap (exposeMainApi_or_throw initial_state greeter None).1
      !! "Greeter"
    = Some methodNames
    /\ handlers (exposeMainApi_or_throw initial_state greeter None).1
       = [] ++ added
    /\ ("_helper" ∉ methodNames) /\ ("Greeter:_helper" ∉ added.*1)
    /\ ("#secret" ∉ methodNames) /\ ("Greeter:#secret" ∉ added.*1)
    /\ ("hello" ∈ methodNames) /\ (("Greeter:hello", hello_handler) ∈ added).
Proof.
  assert (Hfresh : _mainApiMap initial_state !! constructor_name greeter = None)
    by reflexivity.
  assert (Hret : exposeMainApi_or_throw initial_state greeter None
                 = ((exposeMainApi_or_throw initial_state greeter None).1,
                    Normal tt)) by reflexivity.
  destruct (exposeMainApi_private_excluded initial_state _ greeter None
              (sample_toIpcName_inj _) Hfresh Hret)
    as (methodNames & added & Hmap & Hhandlers & Hprivate & Hpublic).
  exists methodNames, added.
  destruct (Hprivate "_helper" eq_refl) as [? ?].
  destruct (Hprivate "#secret" eq_refl) as [? ?].
  destruct (Hpublic "hello" hello) as [? ?]; try done.
  vm_compute. do 4 constructor.
Defined.

(** C10 at [greeter]: the names registered are the public functions;
    [constructor] and the data property [greeting] are left out. *)
Lemma exposeMainApi_registers_functions_only_witness :
  exists (methodNames : list string) (added : list (string * CallHandler)),
    _mainApiMap (exposeMainApi_or_throw initial_state greeter None).1
      !! "Greeter"
    = Some methodNames
    /\ handlers (exposeMainApi_or_throw initial_state greeter None).1
       = [] ++ added
    /\ added.*1 = map (toIpcName "Greeter") methodNames
    /\ ("constructor" ∉ methodNames) /\ ("Greeter:constructor" ∉ added.*1)
    /\ ("greeting" ∉ methodNames) /\ ("Greeter:greeting" ∉ added.*1).
Proof.
  assert (Hfresh : _mainApiMap initial_state !! constructor_name greeter = None)
    by reflexivity.
  assert (Hret : exposeMainApi_or_throw initial_state greeter None
                 = ((exposeMainApi_or_throw initial_state greeter None).1,
                    Normal tt)) by reflexivity.
  destruct (exposeMainApi_registers_functions_only initial_state _ greeter None
              (sample_toIpcName_inj _) Hfresh Hret)
    as (methodNames & added & Hmap & Hhandlers & Hchannels & _ & Hctor & Hdata).
  exists methodNames, added. destruct Hctor as [? ?].
  destruct (Hdata "greeting" eq_refl) as [? ?]. done.
Defined.

Example greeter_registration :
  _mainApiMap greeter_exposed !! "Greeter" = Some ["hello"; "crash"; "echo"]
  /\ (handlers greeter_exposed).*1
     = ["Greeter:hello"; "Greeter:crash"; "Greeter:echo"].
Proof. split; reflexivity. Qed.

(** With the engine that tags its argument in place, the message of a
    bound method carries the tagged argument. *)
Example bound_method_tagging_engine :
  sent <$> (fst <$> @call_bound_method tagging_restorer sample_ipc
                      (@run tagging_restorer sample_ipc
                         [Bind window1 "WinApi";
                          Receive API_RESPONSE_IPC 7
                            (PRegistration winapi_registration);
                          Tick])
                      0 "show" [catter "a" "b"])
  = Some [discovery_request window1 "WinApi";
          {| msg_to := 7; msg_channel := "WinApi:show";
             msg_payload := PArgs [encode (catter "a" "b")] |}].
Proof. reflexivity. Qed.

(** An API that repeats a method name, as an instance of a class that
    overrides an inherited method does: the second [ipcMain.handle] on
    the channel of [hello] throws, so [only] gets no handler and the
    class is not registered; a discovery request for it is answered
    without method names. *)
Example derived_exposure_throws :
  (exposeMainApi_or_throw initial_state derived None).2
  = Throw (second_handler_Error "Derived:hello")
  /\ exposures_return [Expose derived None] = false
  /\ _mainApiMap (run_or_throw [Expose derived None]) !! "Derived" = None
  /\ (handlers (run_or_throw [Expose derived None])).*1 = ["Derived:hello"]
  /\ sent (step_or_throw (run_or_throw [Expose derived None])
             (Receive API_REQUEST_IPC 7 (PClassName "Derived")))
     = [registration_reply 7 "Derived" None].
Proof. repeat split; reflexivity. Qed.

End Samples.

Section TaggingSamples.
#[local] Existing Instance tagging_restorer.
#[local] Existing Instance sample_ipc.

(** C9 at [winapi_bound_tagging], with the engine that tags its
    argument in place: [show(catter)] sends one message on
    [WinApi:show], which carries the tagged object, and returns
    [undefined]. *)
Lemma bound_method_sends_once_witness :
  exists st' : State,
    call_bound_method winapi_bound_tagging 0 "show" [catter "a" "b"]
    = Some (st', VUndefined)
    /\ sent st'
       = sent winapi_bound_tagging
         ++ [{| msg_to := 7; msg_channel := "WinApi:show";
                msg_payload :=
                  PArgs [VObject "Object"
                           [("__isRestorable", VBool true);
                            ("className", VString "Catter");
                            ("s1", VString "a"); ("s2", VString "b")]] |}]
    /\ length (sent st') = 2%nat
    /\ set_sent (sent winapi_bound_tagging) st' = winapi_bound_tagging.
Proof.
  assert (Hheap : heap winapi_bound_tagging !! 0%nat
                  = Some {| bound_window := window1; bound_class := "WinApi";
                            bound_methods := ["show"; "hide"] |})
    by reflexivity.
  assert (Hin : "show" ∈ ["show"; "hide"]) by constructor.
  assert (Hengine : forall arg,
             in_place (makeRestorable arg) = returned (makeRestorable arg))
    by (intros arg; reflexivity).
  exact (bound_method_sends_once winapi_bound_tagging 0 _ "show"
           [catter "a" "b"] Hheap Hin Hengine).
Defined.

End TaggingSamples.

(** * Further properties of the main process *)

Section MainProcess.
Context `{Restorer} `{SharedIpc}.

(** X1. In a process whose calls of [exposeMainApi] all return,
    [_mainApiMap] holds for each class the method names registered by
    the first exposure of an API of that class, and nothing for a class
    never exposed; an entry, once there, is never changed or removed by
    what happens later.  (A call that throws, because [ipcMain.handle]
    meets a channel that has a handler, writes no entry.) *)
Theorem mainApiMap_entries_are_first_exposures (history later : list Event)
    (apiClassName : string) :
  exposures_return (history ++ later) = true ->
  _mainApiMap (run_or_throw history) !! apiClassName
  = registered_names <$> first_exposure history apiClassName
  /\ (forall names : list string,
        _mainApiMap (run_or_throw history) !! apiClassName = Some names ->
        _mainApiMap (run_or_throw (history ++ later)) !! apiClassName
        = Some names).
Proof.
  intros Hret.
  destruct (exposures_return_app history later Hret) as [Hhistory _].
  rewrite !run_or_throw_returns by done.
  split; [apply run_mainApiMap|].
  intros names. rewrite !run_mainApiMap, first_exposure_app.
  by destruct (first_exposure history apiClassName).
Qed.

Lemma step_listening_flag (st : State) (ev : Event) :
  _listeningForIPC (step st ev)
  = installs_listeners ev || _listeningForIPC st.
Proof.
  destruct ev; simpl.
  - apply exposeMainApi_listening.
  - done.
  - by_view (bindWindowApi_listening st window apiClassName).
    apply installIpcListeners_listening.
  - destruct (call_bound_method st boundApi methodName args)
      as [[st' v]|] eqn:C; [|done].
    apply call_bound_method_views in C as [Vexp Vlis]. by_view Vlis.
  - by_view (ipcMain_emit_listening st channel sender payload).
  - by_view (ipc_invoke_listening st channel args).
  - by_view (run_timer_listening st).
Qed.

Lemma run_listening_flag (history : list Event) :
  _listeningForIPC (run history) = existsb installs_listeners history.
Proof.
  induction history as [|ev history IH] using rev_ind; [done|].
  rewrite run_snoc, step_listening_flag, IH, existsb_app. simpl.
  rewrite orb_false_r. apply orb_comm.
Qed.

(** X2. However many APIs are exposed and bound, the discovery
    listeners are installed once: after any history [ipcMain] has
    exactly one listener on each of the two discovery channels if some
    API was exposed or some bind was made, and none before. *)
Theorem discovery_listeners_installed_once (history : list Event) :
  listeners (run history)
  = (if existsb installs_listeners history then discovery_listeners else [])
  /\ _listeningForIPC (run history) = existsb installs_listeners history.
Proof.
  split; [|apply run_listening_flag].
  by rewrite run_listeners, run_listening_flag.
Qed.

Lemma on_api_response_lookup (st : State) (sender : Z)
    (api : ApiRegistration) (window : BrowserWindow) (apiClassName : string) :
  registered_methodNames (on_api_response st sender api) window apiClassName
  = (if decide (webContents_id window = sender /\ apiClassName = className api)
     then methodNames api
     else registered_methodNames st window apiClassName).
Proof.
  unfold registered_methodNames, on_api_response. simpl.
  destruct (decide (webContents_id window = sender)) as [<-|Hw].
  - rewrite lookup_insert_eq.
    destruct (decide (apiClassName = className api)) as [->|Hc].
    + rewrite lookup_insert_eq, decide_True by done.
      by destruct (methodNames api).
    + rewrite lookup_insert_ne by congruence.
      rewrite decide_False by (intros [_ ?]; done).
      destruct (_windowApiMapByWebContentsID st !! webContents_id window);
        simpl; [done|]. by rewrite lookup_empty.
  - rewrite lookup_insert_ne by congruence.
    by rewrite decide_False by (intros [? _]; done).
Qed.

(** X3. The registrations received are kept by window and by class:
    after the listener of [API_RESPONSE_IPC] has run on a registration
    sent by a window, the method names known for that window and that
    class are those of the registration, and those of any other window
    or class are what they were.  A registration whose method names are
    [undefined] takes the place of an earlier one: the next attempt to
    bind finds nothing and sends a discovery request. *)
Theorem registration_kept_by_window_and_class (st : State) (sender : Z)
    (api : ApiRegistration) (window : BrowserWindow) (apiClassName : string) :
  registered_methodNames (on_api_response st sender api) window apiClassName
  = (if decide (webContents_id window = sender /\ apiClassName = className api)
     then methodNames api
     else registered_methodNames st window apiClassName)
  /\ (forall resolve : nat,
        webContents_id window = sender ->
        apiClassName = className api ->
        methodNames api = None ->
        _attemptBindWindowApi (on_api_response st sender api) window
          apiClassName resolve
        = (set_sent
             (sent st ++ [discovery_request window apiClassName])
             (on_api_response st sender api), false)).
Proof.
  pose proof (on_api_response_lookup st sender api window apiClassName)
    as Hlookup.
  split; [done|].
  intros resolve Hw Hc Hnone.
  rewrite attemptBindWindowApi_unregistered; [done|].
  rewrite Hlookup, decide_True by done. done.
Qed.

(** X4. The error logger is looked up when a handler runs, not when
    it is installed: after [setIpcErrorLogger], whatever logger was set
    before, an error that is not relayed goes to the new logger, once,
    and to no other, also from a handler installed earlier. *)
Theorem latest_logger_receives_error (st : State) (loggerFunc : nat)
    (h : CallHandler) (args : option (list value)) (err : value) :
  handler_try h args = Throw err ->
  (forall errorToRelay, err <> VRelayedError errorToRelay) ->
  call_handler (setIpcErrorLogger st loggerFunc) h args
  = (set_logged (logged st ++ [(loggerFunc, err)])
       (setIpcErrorLogger st loggerFunc),
     Throw err).
Proof.
  intros Htry Hplain. unfold call_handler. rewrite Htry.
  destruct err; try done. by destruct (Hplain err).
Qed.

(** X5. The arguments are restored in order and the first one whose
    restoration throws ends the call: the method is not called, and
    the value thrown is handled like one thrown by the method, relayed
    when it is a [RelayedError], logged and thrown again otherwise. *)
Theorem restoration_failure_ends_call (st : State) (h : CallHandler)
    (before after : list value) (arg : value) (err : value) :
  Forall (fun a => exists a', restoreValue a (h_restorer h) = Normal a')
    before ->
  restoreValue arg (h_restorer h) = Throw err ->
  call_handler st h (Some (before ++ arg :: after))
  = match err with
    | VRelayedError errorToRelay =>
        (st, Normal (makeReturnedError errorToRelay))
    | _ => (log_error st err, Throw err)
    end.
Proof.
  intros Hbefore Hthrow.
  assert (Hargs : restoreArgs (before ++ arg :: after) (h_restorer h)
                  = Throw err).
  { induction Hbefore as [|a before [a' Ha] _ IH]; simpl.
    - by rewrite Hthrow.
    - by rewrite Ha, IH. }
  unfold call_handler, handler_try. by rewrite Hargs.
Qed.

Lemma exposeMainApi_binding_side (st : State) (mainApi : ApiObject)
    (restorer : option RestorerFunction) :
  binding_side (exposeMainApi st mainApi restorer) = binding_side st.
Proof.
  assert (Hi : binding_side (_installIpcListeners st) = binding_side st)
    by (unfold binding_side; by frame).
  destruct (_mainApiMap st !! constructor_name mainApi) eqn:E.
  - by rewrite exposeMainApi_known by eauto.
  - by rewrite exposeMainApi_fresh by done.
Qed.

(** X6. Exposure and binding keep to their own parts of the state.
    Exposing an API and setting the logger send no message and change
    nothing of the registrations received, the bound APIs, the
    promises, the timers and the log; every other event (a bind, a
    call of a bound method, a message, a call from a renderer, a timer)
    leaves [_mainApiMap], the handlers of [ipcMain] and the logger as
    they were. *)
Theorem exposure_and_binding_are_separate (st : State) (ev : Event) :
  if exposes_or_sets_logger ev
  then binding_side (step st ev) = binding_side st
  else exposure_view (step st ev) = exposure_view st.
Proof.
  destruct ev; simpl.
  - apply exposeMainApi_binding_side.
  - done.
  - apply bindWindowApi_exposure.
  - destruct (call_bound_method st boundApi methodName args)
      as [[st' v]|] eqn:C; [|done].
    by apply call_bound_method_views in C as [Vexp Vlis].
  - apply ipcMain_emit_exposure.
  - apply ipc_invoke_exposure.
  - apply run_timer_exposure.
Qed.

(** ** The bound API objects *)

Lemma consistent_same (st st' : State) :
  bound_objects st' = bound_objects st ->
  bound_table_consistent st -> bound_table_consistent st'.
Proof.
  unfold bound_objects, bound_table_consistent, cached_boundApi.
  intros E Hc window apiClassName boundApi. injection E as -> ->. apply Hc.
Qed.

Lemma consistent_built (st st' : State) (window : BrowserWindow)
    (apiClassName : string) (names : list string) :
  bound_objects st'
  = (heap st ++ [{| bound_window := window; bound_class := apiClassName;
                    bound_methods := names |}],
     <[webContents_id window :=
         <[apiClassName := length (heap st)]>
           (default ∅ (_boundWindowApisByWindowID st
                         !! webContents_id window))]>
       (_boundWindowApisByWindowID st)) ->
  bound_table_consistent st -> bound_table_consistent st'.
Proof.
  unfold bound_objects, bound_table_consistent, cached_boundApi.
  intros E Hc w c r. injection E as -> ->.
  destruct (decide (webContents_id w = webContents_id window)) as [Ew|Ew].
  - rewrite Ew, lookup_insert_eq.
    destruct (decide (c = apiClassName)) as [->|Ec].
    + rewrite lookup_insert_eq. intros [= <-].
      eexists. rewrite lookup_app_r, Nat.sub_diag by lia. done.
    + rewrite lookup_insert_ne by congruence. intros Hr.
      destruct (Hc w c r) as (api & Hheap & ? & ?).
      { rewrite Ew.
        by destruct (_boundWindowApisByWindowID st !! webContents_id window). }
      exists api. split; [|split; congruence]. by apply lookup_app_l_Some.
  - rewrite lookup_insert_ne by congruence. intros Hr.
    destruct (Hc w c r Hr) as (api & Hheap & ? & ?).
    exists api. split; [|done]. by apply lookup_app_l_Some.
Qed.

Lemma attemptBindWindowApi_objects (st : State) (window : BrowserWindow)
    (apiClassName : string) (resolve : nat) :
  bound_objects (_attemptBindWindowApi st window apiClassName resolve).1
  = match registered_methodNames st window apiClassName with
    | None => bound_objects st
    | Some names =>
        (heap st ++ [{| bound_window := window; bound_class := apiClassName;
                        bound_methods := names |}],
         <[webContents_id window :=
             <[apiClassName := length (heap st)]>
               (default ∅ (_boundWindowApisByWindowID st
                             !! webContents_id window))]>
           (_boundWindowApisByWindowID st))
    end.
Proof.
  unfold _attemptBindWindowApi, bound_objects, resolve_promise.
  destruct (registered_methodNames st window apiClassName); simpl; [|done].
  by destruct (promises st !! resolve) as [[]|].
Qed.

Lemma attemptBindWindowApi_consistent (st : State) (window : BrowserWindow)
    (apiClassName : string) (resolve : nat) :
  bound_table_consistent st ->
  bound_table_consistent
    (_attemptBindWindowApi st window apiClassName resolve).1.
Proof.
  intros Hc.
  pose proof (attemptBindWindowApi_objects st window apiClassName resolve)
    as E.
  destruct (registered_methodNames st window apiClassName) as [names|].
  - by eapply consistent_built.
  - by eapply consistent_same.
Qed.

Lemma retryUntilTimeout_consistent (st : State) (k : RetryTask) :
  bound_table_consistent st ->
  bound_table_consistent (retryUntilTimeout st k).1.
Proof.
  intros Hc. unfold retryUntilTimeout.
  pose proof (attemptBindWindowApi_consistent st (rt_window k)
                (rt_apiClassName k) (rt_promise k) Hc) as Ha.
  destruct (_attemptBindWindowApi st (rt_window k) (rt_apiClassName k)
              (rt_promise k)) as [st1 bound].
  simpl in Ha. destruct bound; [done|].
  destruct (bindingTimeoutMillis <=? rt_elapsedMillis k); [done|].
  by eapply consistent_same.
Qed.

Lemma ipcMain_emit_objects (st : State) (channel : string) (sender : Z)
    (payload : Payload) :
  bound_objects (ipcMain_emit st channel sender payload) = bound_objects st.
Proof.
  unfold ipcMain_emit. generalize (listeners st) as ls.
  intros ls. revert st. induction ls as [|[c l] ls IH]; intros st; [done|].
  simpl. rewrite IH. unfold bound_objects. by frame.
Qed.

Lemma step_consistent (st : State) (ev : Event) :
  bound_table_consistent st -> bound_table_consistent (step st ev).
Proof.
  intros Hc. destruct ev; simpl.
  - eapply consistent_same; [|done].
    pose proof (exposeMainApi_binding_side st mainApi restorer) as E.
    unfold binding_side in E. unfold bound_objects.
    injection E; intros; congruence.
  - done.
  - unfold bindWindowApi.
    set (st1 := set_promises _ (_installIpcListeners st)).
    assert (Hc1 : bound_table_consistent st1).
    { eapply consistent_same; [|done]. unfold bound_objects. simpl.
      by rewrite installIpcListeners_heap, installIpcListeners_bound. }
    destruct (cached_boundApi st1 window apiClassName).
    + eapply consistent_same; [|done].
      unfold bound_objects, resolve_promise. by repeat case_match.
    + match goal with
      | |- context [retryUntilTimeout st1 ?k] =>
          pose proof (retryUntilTimeout_consistent st1 k Hc1) as Hr;
          destruct (retryUntilTimeout st1 k) as [st2 [u|err]]
      end; simpl in *; [done|].
      eapply consistent_same; [|done].
      unfold bound_objects, reject_promise. by repeat case_match.
  - destruct (call_bound_method st boundApi methodName args)
      as [[st' v]|] eqn:C; [|done].
    eapply consistent_same; [|done].
    unfold call_bound_method in C. repeat case_match; by simplify_eq.
  - eapply consistent_same; [|done]. apply ipcMain_emit_objects.
  - eapply consistent_same; [|done].
    unfold ipc_invoke.
    destruct (find_handler (handlers st) channel) as [h|]; [|done].
    unfold call_handler, log_error, bound_objects.
    destruct (handler_try h args) as [v|[]]; simpl; try done;
      by destruct (_errorLoggerFunc st).
  - unfold run_timer. destruct (timers st) as [|t rest]; [done|].
    set (st1 := set_now _ _).
    assert (Hc1 : bound_table_consistent st1)
      by (by eapply consistent_same).
    pose proof (retryUntilTimeout_consistent st1 (task t) Hc1) as Hr.
    destruct (retryUntilTimeout st1 (task t)) as [st2 [u|err]];
      simpl in *; [done|].
    by eapply consistent_same.
Qed.

(** X7. After any history, every entry of the table of bound APIs
    refers to a bound API object that exists and was built for the
    window and the class of the entry; so a method called on the bound
    API that the table holds for a window sends its message to that
    window, on a channel of that class. *)
Theorem bound_table_refers_to_its_window (history : list Event)
    (window : BrowserWindow) (apiClassName : string) (boundApi : nat) :
  cached_boundApi (run history) window apiClassName = Some boundApi ->
  exists api : BoundApi,
    heap (run history) !! boundApi = Some api
    /\ bound_class api = apiClassName
    /\ webContents_id (bound_window api) = webContents_id window
    /\ forall (methodName : string) (args : list value),
         methodName ∈ bound_methods api ->
         sent <$> (fst <$> call_bound_method (run history) boundApi
                             methodName args)
         = Some (sent (run history)
                 ++ [{| msg_to := webContents_id window;
                        msg_channel := toIpcName apiClassName methodName;
                        msg_payload :=
                          PArgs (map (fun arg => in_place (makeRestorable arg))
                                   args) |}]).
Proof.
  assert (Hc : bound_table_consistent (run history)).
  { induction history as [|ev history IH] using rev_ind.
    - intros w c r. by unfold cached_boundApi.
    - rewrite run_snoc. by apply step_consistent. }
  intros Hcached. destruct (Hc _ _ _ Hcached) as (api & Hheap & <- & <-).
  exists api. repeat split; try done.
  intros methodName args Hin. unfold call_bound_method.
  by rewrite Hheap, bool_decide_eq_true_2.
Qed.

(** ** The retry loop, request by request *)

Lemma run_timer_unregistered (st : State) (t : Timer) (rest : list Timer) :
  timers st = t :: rest ->
  registered_methodNames st (rt_window (task t)) (rt_apiClassName (task t))
  = None ->
  run_timer st
  = let st1 := set_now (Z.max (now st) (due t)) (set_timers rest st) in
    let st2 :=
      set_sent (sent st ++ [discovery_request (rt_window (task t))
                              (rt_apiClassName (task t))]) st1 in
    if bindingTimeoutMillis <=? rt_elapsedMillis (task t)
    then set_uncaught
           (uncaught st ++ [Error_ (rt_timeoutMessage (task t))]) st2
    else setTimeout st2
           {| rt_elapsedMillis := rt_elapsedMillis (task t) + retryMillis;
              rt_window := rt_window (task t);
              rt_apiClassName := rt_apiClassName (task t);
              rt_promise := rt_promise (task t);
              rt_timeoutMessage := rt_timeoutMessage (task t) |} retryMillis.
Proof.
  intros Ht Hreg. unfold run_timer. rewrite Ht.
  rewrite retryUntilTimeout_unregistered by done. simpl.
  by destruct (bindingTimeoutMillis <=? rt_elapsedMillis (task t)).
Qed.

Lemma bindWindowApi_quietly (st : State) (window : BrowserWindow)
    (apiClassName : string) :
  0 < bindingTimeoutMillis ->
  0 < retryMillis ->
  timers st = [] ->
  registered_methodNames st window apiClassName = None ->
  cached_boundApi st window apiClassName = None ->
  waiting_quietly st window apiClassName 0
    (bindWindowApi st window apiClassName).1.
Proof.
  intros HT Hr Ht Hreg Hc.
  split; [by apply bindWindowApi_waiting|].
  unfold bindWindowApi.
  assert (cached_boundApi
            (set_promises (promises (_installIpcListeners st) ++ [Pending])
               (_installIpcListeners st)) window apiClassName = None) as ->.
  { unfold cached_boundApi in *. simpl. by rewrite installIpcListeners_bound. }
  rewrite retryUntilTimeout_unregistered.
  2:{ unfold registered_methodNames in *. simpl.
      by destruct (_listeningForIPC st) eqn:E;
        unfold _installIpcListeners; rewrite E. }
  simpl. destruct (Z.leb_spec bindingTimeoutMillis 0); [lia|]. simpl.
  unfold bound_objects, listening_view. simpl.
  by rewrite installIpcListeners_heap, installIpcListeners_bound,
    installIpcListeners_sent.
Qed.

Lemma run_timer_quietly (st0 : State) (window : BrowserWindow)
    (apiClassName : string) (i : nat) (st : State) :
  0 < retryMillis ->
  (Z.of_nat i + 1) * retryMillis < bindingTimeoutMillis ->
  waiting_quietly st0 window apiClassName i st ->
  waiting_quietly st0 window apiClassName (S i) (run_timer st).
Proof.
  intros Hr Hlt (Hw & Hobj & Hsent & Hlis).
  split; [by apply run_timer_waiting|].
  destruct Hw as (Hreg & _ & _ & _ & Ht).
  rewrite (run_timer_unregistered st _ _ Ht) by done. simpl.
  destruct (Z.leb_spec bindingTimeoutMillis ((Z.of_nat i + 1) * retryMillis));
    [lia|].
  unfold bound_objects, listening_view in *. simpl.
  split; [done|]. split; [|done].
  rewrite Hsent, <- app_assoc. f_equal.
  symmetry. apply (replicate_S_end (S i)).
Qed.

Lemma waiting_quietly_until_timeout (st : State) (window : BrowserWindow)
    (apiClassName : string) (i : nat) :
  0 < bindingTimeoutMillis ->
  0 < retryMillis ->
  timers st = [] ->
  registered_methodNames st window apiClassName = None ->
  cached_boundApi st window apiClassName = None ->
  (i < retries_to_timeout)%nat ->
  waiting_quietly st window apiClassName i
    (run_timers i (bindWindowApi st window apiClassName).1).
Proof.
  intros HT Hr Ht Hreg Hc.
  destruct (retries_to_timeout_bounds HT Hr) as (Hq1 & Hq2 & Hq3).
  induction i as [|i IH]; intros Hi.
  - by apply bindWindowApi_quietly.
  - rewrite run_timers_S. apply run_timer_quietly; [done|nia|].
    apply IH. lia.
Qed.

(** X8. A bind that no registration answers sends a bounded number of
    discovery requests and nothing else: one at the call and one at
    each run of its retry task, the run that finds the timeout reached
    being the last.  After [n] runs of the event loop the messages sent
    since the call are [n + 1] requests, and never more than the
    number of retries to the timeout plus one. *)
Theorem unanswered_bind_requests (st : State) (window : BrowserWindow)
    (apiClassName : string) (n : nat) :
  0 < bindingTimeoutMillis ->
  0 < retryMillis ->
  timers st = [] ->
  registered_methodNames st window apiClassName = None ->
  cached_boundApi st window apiClassName = None ->
  sent (run_timers n (bindWindowApi st window apiClassName).1)
  = sent st
    ++ replicate (S (n `min` retries_to_timeout))
         (discovery_request window apiClassName).
Proof.
  intros HT Hr Ht Hreg Hc.
  destruct (retries_to_timeout_bounds HT Hr) as (Hq1 & Hq2 & Hq3).
  pose proof (fun i => waiting_quietly_until_timeout st window apiClassName i
                         HT Hr Ht Hreg Hc) as Hwait.
  destruct retries_to_timeout as [|k] eqn:Hk; [lia|].
  set (b := (bindWindowApi st window apiClassName).1) in *.
  assert (Hlast : sent (run_timers (S k) b)
                  = sent st ++ replicate (S (S k))
                                 (discovery_request window apiClassName)
                  /\ timers (run_timers (S k) b) = []).
  { destruct (Hwait k) as ((Hreg' & _ & _ & _ & Ht') & _ & Hsent & _); [lia|].
    rewrite run_timers_S, (run_timer_unregistered _ _ _ Ht') by done. simpl.
    destruct (Z.leb_spec bindingTimeoutMillis
                ((Z.of_nat k + 1) * retryMillis)); [|lia].
    simpl. rewrite Hsent, <- app_assoc. split; [|done]. f_equal.
    symmetry. apply (replicate_S_end (S k)). }
  destruct (decide (n < S k)%nat) as [Hlt|Hge].
  - destruct (Hwait n Hlt) as (_ & _ & Hsent & _).
    by rewrite Hsent, Nat.min_l by lia.
  - replace n with (S k + (n - S k))%nat at 1 by lia.
    rewrite run_timers_add, run_timers_idle by apply Hlast.
    rewrite Nat.min_r by lia. apply Hlast.
Qed.

Lemma run_timer_registered (st : State) (t : Timer) (rest : list Timer)
    (names : list string) :
  timers st = t :: rest ->
  registered_methodNames st (rt_window (task t)) (rt_apiClassName (task t))
  = Some names ->
  promises st !! rt_promise (task t) = Some Pending ->
  run_timer st
  = set_promises
      (<[rt_promise (task t) := Fulfilled (length (heap st))]> (promises st))
      (set_boundWindowApisByWindowID
         (<[webContents_id (rt_window (task t)) :=
              <[rt_apiClassName (task t) := length (heap st)]>
                (default ∅ (_boundWindowApisByWindowID st
                              !! webContents_id (rt_window (task t))))]>
            (_boundWindowApisByWindowID st))
         (set_heap
            (heap st ++ [{| bound_window := rt_window (task t);
                            bound_class := rt_apiClassName (task t);
                            bound_methods := names |}])
            (set_now (Z.max (now st) (due t)) (set_timers rest st)))).
Proof.
  intros Ht Hreg Hp. unfold run_timer. rewrite Ht.
  unfold retryUntilTimeout, _attemptBindWindowApi.
  assert (registered_methodNames
            (set_now (Z.max (now st) (due t)) (set_timers rest st))
            (rt_window (task t)) (rt_apiClassName (task t)) = Some names)
    as -> by done.
  unfold resolve_promise. simpl. by rewrite Hp.
Qed.

(** X9. A bind made before the window has registered its API is
    resolved by the retry loop: when the registration of the class
    arrives from the window while the bind is waiting, the next run of
    the retry task, be it the one at the deadline, builds a bound API
    with exactly the method names of the registration, puts it in the
    table and fulfils the promise of the call with it.  No timer is left,
    no exception is raised, and the requests sent are those of the call
    and of the runs before. *)
Theorem late_registration_resolves_bind (history : list Event)
    (window : BrowserWindow) (apiClassName : string) (names : list string)
    (n : nat) :
  0 < bindingTimeoutMillis ->
  0 < retryMillis ->
  timers (run history) = [] ->
  registered_methodNames (run history) window apiClassName = None ->
  cached_boundApi (run history) window apiClassName = None ->
  (n < retries_to_timeout)%nat ->
  let call := bindWindowApi (run history) window apiClassName in
  let waiting := run_timers n call.1 in
  let answered :=
    step waiting
      (Receive API_RESPONSE_IPC (webContents_id window)
         (PRegistration {| className := apiClassName;
                           methodNames := Some names |})) in
  let bound := run_timer answered in
  promises bound !! call.2 = Some (Fulfilled (length (heap (run history))))
  /\ heap bound
     = heap (run history)
       ++ [{| bound_window := window; bound_class := apiClassName;
              bound_methods := names |}]
  /\ cached_boundApi bound window apiClassName
     = Some (length (heap (run history)))
  /\ timers bound = []
  /\ uncaught bound = uncaught (run history)
  /\ sent bound
     = sent (run history)
       ++ replicate (S n) (discovery_request window apiClassName).
Proof.
  intros HT Hr Ht Hreg Hc Hn call waiting answered bound.
  destruct (bindWindowApi_waiting (run history) window apiClassName
              HT Hr Ht Hreg Hc) as [Hcall _].
  fold call in Hcall.
  destruct (waiting_quietly_until_timeout (run history) window apiClassName n
              HT Hr Ht Hreg Hc Hn)
    as ((_ & Hp & Hu & _ & Htimers) & Hobj & Hsent & Hlis).
  fold call in Hp, Hu, Htimers, Hobj, Hsent, Hlis.
  fold waiting in Hp, Hu, Htimers, Hobj, Hsent, Hlis.
  assert (Hls : listeners waiting = discovery_listeners).
  { unfold listening_view in Hlis. injection Hlis as -> _.
    apply installIpcListeners_listeners, run_listeners. }
  assert (Ha : answered
               = on_api_response waiting (webContents_id window)
                   {| className := apiClassName;
                      methodNames := Some names |}).
  { unfold answered. simpl. unfold ipcMain_emit. by rewrite Hls. }
  assert (Hreg' : registered_methodNames answered window apiClassName
                  = Some names).
  { rewrite Ha, on_api_response_lookup. simpl. by rewrite decide_True. }
  unfold bound.
  rewrite (run_timer_registered answered
             {| due := now (run history) + (Z.of_nat n + 1) * retryMillis;
                task := retry_task window apiClassName
                          (length (promises (run history)))
                          (Z.of_nat n + 1) |} [] names);
    [|rewrite Ha; exact Htimers|exact Hreg'|rewrite Ha; exact Hp].
  unfold bound_objects in Hobj. injection Hobj as Hheap Htable.
  rewrite Ha. unfold cached_boundApi. simpl.
  rewrite Hcall, Hheap, Hu, Hsent, !lookup_insert_eq.
  repeat split; try done.
  apply list_lookup_insert_eq. by eapply lookup_lt_Some.
Qed.

End MainProcess.

(** * Properties of [exposeServerApi] *)

Section ServerApis.
Import ServerIpc.
Context `{Recovery} `{ExposeChannel} `{SharedIpc}.

(** X10. The handler that [exposeServerApi] installs never fails the
    call: whatever is thrown while the arguments are recovered or by
    the method, a [RelayedError] like any other value, is handed to the
    error logger, once when a logger was set, and returned as the reply
    made by [prepareThrownError]; a result is returned made by
    [prepareArgument], and nothing is logged for it. *)
Theorem server_handler_returns_every_error (st : ServerIpc.State)
    (h : ServerIpc.CallHandler) (args : option (list value)) :
  exists reply : value,
    ServerIpc.call_handler st h args
    = (match ServerIpc.handler_try h args with
       | Normal _ => st
       | Throw err => ServerIpc.log_error st err
       end, Normal reply)
    /\ reply = match ServerIpc.handler_try h args with
               | Normal response => prepareArgument response
               | Throw err => prepareThrownError err
               end
    /\ ServerIpc.logged (ServerIpc.call_handler st h args).1
       = ServerIpc.logged st
         ++ match ServerIpc.handler_try h args, ServerIpc._errorLoggerFunc st
            with
            | Throw err, Some loggerFunc => [(loggerFunc, err)]
            | _, _ => []
            end.
Proof.
  unfold ServerIpc.call_handler, ServerIpc.log_error.
  destruct (ServerIpc.handler_try h args) as [response|err].
  - eexists. split; [done|]. split; [done|]. simpl. by rewrite app_nil_r.
  - eexists. split; [done|]. split; [done|].
    destruct (ServerIpc._errorLoggerFunc st); simpl; [done|].
    by rewrite app_nil_r.
Qed.

Lemma server_names_cons (object : ApiObject) (n : string)
    (names : list string) :
  server_names {| api_object := object; enumerated := n :: names |}
  = if negb (has_private_marker n) && is_function (get_property object n)
    then n :: server_names {| api_object := object; enumerated := names |}
    else server_names {| api_object := object; enumerated := names |}.
Proof.
  unfold server_names. simpl. rewrite filter_cons.
  destruct (negb (has_private_marker n) && is_function (get_property object n));
    by case_decide.
Qed.

Lemma server_expose_methods_spec (object : ApiObject)
    (enumerated0 : list string) (recoveryFunc : option RecoveryFunction)
    (apiClassName : string) (names : list string) :
  forall (st : ServerIpc.State) (methodNames : list string),
    let serverApi := {| api_object := object; enumerated := enumerated0 |} in
    let result :=
      ServerIpc.expose_methods serverApi recoveryFunc apiClassName names st
        methodNames in
    result.2
    = methodNames
      ++ server_names {| api_object := object; enumerated := names |}
    /\ ServerIpc._registrationMap result.1 = ServerIpc._registrationMap st
    /\ ServerIpc._errorLoggerFunc result.1 = ServerIpc._errorLoggerFunc st
    /\ ServerIpc.sent result.1 = ServerIpc.sent st
    /\ ServerIpc.logged result.1 = ServerIpc.logged st
    /\ (ServerIpc.handlers result.1).*1
       = (ServerIpc.handlers st).*1
         ++ map (toIpcName apiClassName)
              (server_names {| api_object := object; enumerated := names |}).
Proof.
  induction names as [|n names IH]; intros st methodNames; simpl.
  - unfold server_names. simpl. by rewrite !app_nil_r.
  - rewrite server_names_cons. unfold get_property. simpl.
    destruct (has_private_marker n); simpl; [apply IH|].
    destruct (lookup_property (properties object) n) as [f|v] eqn:P;
      simpl; [|apply IH].
    destruct (IH (ServerIpc.ipcMain_handle st (toIpcName apiClassName n)
                    {| h_method := f; h_recoveryFunc := recoveryFunc |})
                (methodNames ++ [n])) as (E1 & E2 & E3 & E4 & E5 & E6).
    simpl in *. rewrite E1, E2, E3, E4, E5, E6.
    rewrite fmap_app, <- !app_assoc. done.
Qed.

Lemma exposeServerApi_fresh (st : ServerIpc.State) (toWindow : BrowserWindow)
    (serverApi : InvokeApi) (recoveryFunc : option RecoveryFunction) :
  ServerIpc._registrationMap st !! constructor_name (api_object serverApi)
  = None ->
  let apiClassName := constructor_name (api_object serverApi) in
  let installed :=
    (ServerIpc.expose_methods serverApi recoveryFunc apiClassName
       (enumerated serverApi) st []).1 in
  exposeServerApi st toWindow serverApi recoveryFunc
  = ServerIpc.webContents_send
      (ServerIpc.set_registrationMap
         (<[apiClassName := server_names serverApi]>
            (ServerIpc._registrationMap st)) installed)
      toWindow EXPOSE_API_EVENT
      (PRegistration {| className := apiClassName;
                        methodNames := Some (server_names serverApi) |}).
Proof.
  intros Hfresh apiClassName installed. subst installed apiClassName.
  destruct serverApi as [object names]. simpl in *.
  pose proof (server_expose_methods_spec object names recoveryFunc
                (constructor_name object) names st []) as (Hn & Hm & _).
  simpl in Hn, Hm.
  unfold exposeServerApi. simpl. rewrite Hfresh.
  destruct (ServerIpc.expose_methods _ recoveryFunc (constructor_name object)
              names st [])
    as [st' methodNames].
  simpl in *. subst methodNames. by rewrite lookup_insert_eq, Hm.
Qed.

Lemma exposeServerApi_known (st : ServerIpc.State) (toWindow : BrowserWindow)
    (serverApi : InvokeApi) (recoveryFunc : option RecoveryFunction)
    (names : list string) :
  ServerIpc._registrationMap st !! constructor_name (api_object serverApi)
  = Some names ->
  exposeServerApi st toWindow serverApi recoveryFunc
  = ServerIpc.webContents_send st toWindow EXPOSE_API_EVENT
      (PRegistration
         {| className := constructor_name (api_object serverApi);
            methodNames := Some names |}).
Proof. intros Hsome. unfold exposeServerApi. by rewrite !Hsome. Qed.


End ServerApis.

(** * The test utility *)

Section TestCollector.
Import TestUtil.

(** ** Waiting for the results *)

Lemma collector_at_0 (self : ResultCollector) (arrivals : list (list Report)) :
  collector_at self arrivals 0 = self.
Proof. unfold collector_at. by rewrite take_0. Qed.

Lemma collector_at_S (self : ResultCollector)
    (arrivals : list (list Report)) (k : nat) :
  collector_at self arrivals (S k)
  = collector_at (foldl deliver self (hd [] arrivals)) (tl arrivals) k.
Proof.
  unfold collector_at. destruct arrivals as [|batch rest]; simpl.
  - by rewrite take_nil.
  - by rewrite foldl_app.
Qed.

Lemma waitForResult_settles (k : nat) :
  forall (checks : nat) (time : Z) (self : ResultCollector)
         (arrivals : list (list Report)),
    (k < checks)%nat ->
    time + 100 * Z.of_nat k < 5000 ->
    (forall i, (1 <= i <= k)%nat ->
               quiet (collector_at self arrivals i) = true) ->
    quiet (collector_at self arrivals (S k)) = false ->
    waitForResult checks time self arrivals
    = Some (if truthy (abortError (collector_at self arrivals (S k)))
            then RejectedWith (abortError (collector_at self arrivals (S k)))
            else Resolved,
            time + 100 * Z.of_nat (S k),
            collector_at self arrivals (S k)).
Proof.
  induction k as [|k IH]; intros checks time self arrivals Hc Ht Hq Hs;
    (destruct checks as [|checks]; [lia|]); simpl waitForResult;
    unfold COMPLETION_CHECK_INTERVAL_MILLIS, TEST_TIMEOUT_MILLIS.
  - rewrite collector_at_S, collector_at_0 in Hs |- *.
    unfold quiet in Hs.
    destruct (truthy (abortError _)); [by rewrite Z.mul_1_r|].
    destruct (completedAll _); [by rewrite Z.mul_1_r|done].
  - pose proof (Hq 1%nat ltac:(lia)) as Hq1.
    rewrite collector_at_S, collector_at_0 in Hq1.
    unfold quiet in Hq1.
    destruct (truthy (abortError _)); [done|].
    destruct (completedAll _); [done|].
    destruct (5000 <=? time + 100) eqn:E; [apply Z.leb_le in E; lia|].
    rewrite (collector_at_S _ _ (S k)).
    rewrite (IH checks (time + 100)); [| lia | lia | |].
    + replace (time + 100 * Z.of_nat (S (S k)))
        with (time + 100 + 100 * Z.of_nat (S k)) by lia.
      done.
    + intros i Hi. rewrite <- collector_at_S. apply Hq. lia.
    + by rewrite <- collector_at_S.
Qed.

Lemma waitForResult_times_out (k : nat) :
  forall (checks : nat) (time : Z) (self : ResultCollector)
         (arrivals : list (list Report)),
    (k < checks)%nat ->
    time + 100 * Z.of_nat k < 5000 <= time + 100 * Z.of_nat (S k) ->
    (forall i, (1 <= i <= S k)%nat ->
               quiet (collector_at self arrivals i) = true) ->
    waitForResult checks time self arrivals
    = Some (RejectedWith (Error_ "Timed out waiting for results"),
            time + 100 * Z.of_nat (S k),
            collector_at self arrivals (S k)).
Proof.
  induction k as [|k IH]; intros checks time self arrivals Hc Ht Hq;
    (destruct checks as [|checks]; [lia|]); simpl waitForResult;
    unfold COMPLETION_CHECK_INTERVAL_MILLIS, TEST_TIMEOUT_MILLIS;
    pose proof (Hq 1%nat ltac:(lia)) as Hq1;
    rewrite collector_at_S, collector_at_0 in Hq1;
    unfold quiet in Hq1;
    (destruct (truthy (abortError _)); [done|]);
    (destruct (completedAll _); [done|]).
  - rewrite collector_at_S, collector_at_0.
    destruct (5000 <=? time + 100) eqn:E; [|apply Z.leb_gt in E; lia].
    by rewrite Z.mul_1_r.
  - destruct (5000 <=? time + 100) eqn:E; [apply Z.leb_le in E; lia|].
    rewrite (collector_at_S _ _ (S k)).
    rewrite (IH checks (time + 100)); [| lia | lia |].
    + replace (time + 100 * Z.of_nat (S (S k)))
        with (time + 100 + 100 * Z.of_nat (S k)) by lia.
      done.
    + intros i Hi. rewrite <- collector_at_S. apply Hq. lia.
Qed.

Lemma waitForResult_enough (checks : nat) :
  forall (time : Z) (self : ResultCollector) (arrivals : list (list Report)),
    (1 <= checks)%nat ->
    5000 - time <= 100 * Z.of_nat checks ->
    exists outcome (n : nat) seen,
      (1 <= n <= checks)%nat
      /\ forall more, (checks <= more)%nat ->
           waitForResult more time self arrivals
           = Some (outcome, time + 100 * Z.of_nat n, seen).
Proof.
  induction checks as [|checks IH]; intros time self arrivals Hc Ht; [lia|].
  set (self1 := foldl deliver self (hd [] arrivals)).
  destruct (truthy (abortError self1)) eqn:Ea.
  { exists (RejectedWith (abortError self1)), 1%nat, self1.
    split; [lia|]. intros more Hm.
    destruct more as [|more]; [lia|]. simpl. fold self1. by rewrite Ea. }
  destruct (completedAll self1) eqn:Ec.
  { exists Resolved, 1%nat, self1.
    split; [lia|]. intros more Hm.
    destruct more as [|more]; [lia|]. simpl. fold self1. by rewrite Ea, Ec. }
  destruct (5000 <=? time + 100) eqn:E.
  { exists (RejectedWith (Error_ "Timed out waiting for results")),
      1%nat, self1.
    split; [lia|]. intros more Hm.
    destruct more as [|more]; [lia|]. simpl. fold self1.
    unfold COMPLETION_CHECK_INTERVAL_MILLIS, TEST_TIMEOUT_MILLIS.
    by rewrite Ea, Ec, E. }
  pose proof E as E'. apply Z.leb_gt in E'.
  destruct (IH (time + 100) self1 (tl arrivals))
    as (outcome & n & seen & H1 & H3); [lia | lia |].
  exists outcome, (S n), seen.
  split; [lia|]. intros more Hm.
  destruct more as [|more]; [lia|]. simpl. fold self1.
  unfold COMPLETION_CHECK_INTERVAL_MILLIS, TEST_TIMEOUT_MILLIS.
  rewrite Ea, Ec, E.
  replace (time + 100 * Z.of_nat (S n))
    with (time + 100 + 100 * Z.of_nat n) by lia.
  apply H3. lia.
Qed.

Lemma deliver_quiet (self : ResultCollector) (report : Report) :
  quiet self = true -> settling report = false ->
  quiet (deliver self report) = true.
Proof.
  unfold quiet. destruct report; simpl; try done.
  intros Hq ->. simpl. by destruct (truthy (abortError self)).
Qed.

Lemma foldl_deliver_quiet (reports : list Report) :
  forall self : ResultCollector,
    quiet self = true ->
    Forall (fun report => settling report = false) reports ->
    quiet (foldl deliver self reports) = true.
Proof.
  induction reports as [|report reports IH]; intros self Hq Hr; [done|].
  inversion Hr; subst. simpl. apply IH; [|done]. by apply deliver_quiet.
Qed.

(** X12. A wait of [collectResults] is settled by the first check that
    finds a truthy abort error or the completion, provided it is one of
    the first 50: with the abort error if it is truthy, also when all
    tests have completed as well, and resolved otherwise.  This happens
    at [time = 100 * k], and the 50th check still settles the wait
    this way instead of timing out. *)
Theorem collectResults_settled_by_first_check (self : ResultCollector)
    (arrivals : list (list Report)) (k : nat) :
  (1 <= k <= 50)%nat ->
  (forall i, (1 <= i < k)%nat ->
             quiet (collector_at self arrivals i) = true) ->
  quiet (collector_at self arrivals k) = false ->
  collectResults self arrivals
  = Some (if truthy (abortError (collector_at self arrivals k))
          then RejectedWith (abortError (collector_at self arrivals k))
          else Resolved,
          100 * Z.of_nat k,
          collector_at self arrivals k).
Proof.
  intros Hk Hq Hs. destruct k as [|k]; [lia|].
  unfold collectResults.
  rewrite (waitForResult_settles k); [done | | lia | | done].
  - change (Z.to_nat (TEST_TIMEOUT_MILLIS / COMPLETION_CHECK_INTERVAL_MILLIS))
      with 50%nat. lia.
  - intros i Hi. apply Hq. lia.
Qed.

(** X13. If the collector starts with no truthy abort error and not
    completed, and no report delivered before the 50th check is
    [completed_all] or an [aborted] with a truthy error, then
    [collectResults] rejects with the error [Timed out waiting for
    results] at the 50th check, when [time] is 5000.  Aborts whose
    error is falsy do not end the wait, and the reports of the tests
    are recorded all the same. *)
Theorem collectResults_times_out (self : ResultCollector)
    (arrivals : list (list Report)) :
  quiet self = true ->
  Forall (fun report => settling report = false)
    (concat (take 50 arrivals)) ->
  collectResults self arrivals
  = Some (RejectedWith (Error_ "Timed out waiting for results"), 5000,
          foldl deliver self (concat (take 50 arrivals))).
Proof.
  intros Hq Hr. unfold collectResults.
  change (Z.to_nat (TEST_TIMEOUT_MILLIS / COMPLETION_CHECK_INTERVAL_MILLIS))
    with 50%nat.
  rewrite (waitForResult_times_out 49); [done | lia | lia |].
  intros i Hi. unfold collector_at. apply foldl_deliver_quiet; [done|].
  rewrite <- (take_drop i (take 50 arrivals)), concat_app in Hr.
  apply Forall_app in Hr as [Hr _].
  rewrite take_take in Hr. by replace (i `min` 50)%nat with i in Hr by lia.
Qed.

(** X14. [collectResults] always settles, and within 50 checks: however
    many runs of the timer function are allowed beyond 50, the wait
    ends as it does with 50, at a [time] between 100 and 5000. *)
Theorem collectResults_settles_within_timeout (self : ResultCollector)
    (arrivals : list (list Report)) (checks : nat) :
  (50 <= checks)%nat ->
  exists outcome settled seen,
    collectResults self arrivals = Some (outcome, settled, seen)
    /\ waitForResult checks 0 self arrivals = Some (outcome, settled, seen)
    /\ 100 <= settled <= 5000.
Proof.
  intros Hc.
  destruct (waitForResult_enough 50 0 self arrivals)
    as (outcome & n & seen & H1 & H3); [lia | lia |].
  exists outcome, (0 + 100 * Z.of_nat n), seen. split; [|split].
  - unfold collectResults. apply H3.
    change (Z.to_nat (TEST_TIMEOUT_MILLIS / COMPLETION_CHECK_INTERVAL_MILLIS))
      with 50%nat. lia.
  - by apply H3.
  - lia.
Qed.

(** ** Recording the reports *)

Lemma deliver_recorded (self : ResultCollector) (report : Report) :
  let recordable result :=
    verified result = false
    /\ (error result = VNull \/ truthy (error result) = true) in
  verified (currentResult self) = false ->
  Forall recordable (results self) ->
  verified (currentResult (deliver self report)) = false
  /\ Forall recordable (results (deliver self report))
  /\ length (results (deliver self report))
     = (length (results self)
        + (if is_completed_test report then 1 else 0))%nat.
Proof.
  intros recordable Hc Hr. destruct report; simpl;
    try (split; [done|split; [done|lia]]).
  split; [done|]. split.
  - apply Forall_app. split; [done|]. apply Forall_singleton.
    split; [done|]. simpl. destruct (truthy err) eqn:E; auto.
  - rewrite length_app. simpl. lia.
Qed.

(** X15. From [runScript] on, whatever the script reports and in
    whatever order, the collector holds one result for each
    [completed_test] report, every recorded result is unverified, and
    the error of a recorded result is [null] or a truthy value: a falsy
    error of the report is recorded as [null]. *)
Theorem completed_tests_are_recorded (self : ResultCollector)
    (reports : list Report) :
  let collected := foldl deliver (runScript self) reports in
  length (results collected)
  = length (filter (fun report => is_completed_test report = true) reports)
  /\ Forall (fun result =>
               verified result = false
               /\ (error result = VNull \/ truthy (error result) = true))
       (results collected).
Proof.
  simpl.
  assert (Hgen : forall (reports : list Report) (self : ResultCollector),
    verified (currentResult self) = false ->
    Forall (fun result =>
              verified result = false
              /\ (error result = VNull \/ truthy (error result) = true))
      (results self) ->
    length (results (foldl deliver self reports))
    = (length (results self)
       + length (filter (fun report => is_completed_test report = true)
                   reports))%nat
    /\ Forall (fun result =>
                 verified result = false
                 /\ (error result = VNull \/ truthy (error result) = true))
         (results (foldl deliver self reports))).
  { clear. induction reports as [|report reports IH]; intros self Hc Hr.
    - simpl. split; [lia|done].
    - destruct (deliver_recorded self report Hc Hr) as (H1 & H2 & H3).
      simpl foldl. destruct (IH (deliver self report) H1 H2) as [H4 H5].
      split; [|done]. rewrite H4, H3, filter_cons.
      destruct (is_completed_test report); case_decide; try done;
        simpl; lia. }
  destruct (Hgen reports (runScript self)) as [H1 H2]; [done|done|].
  split; [|done]. by rewrite H1.
Qed.

(** ** Verifying the results *)

Lemma verifyTest_loop_missing (name : string)
    (assertFunc : Result -> Completion unit) (rs : list Result) :
  Forall (fun result => testName result <> name) rs ->
  verifyTest_loop rs name assertFunc = None.
Proof.
  induction rs as [|result rest IH]; intros Hn; [done|].
  inversion Hn as [|? ? Hr Hrest]; subst. simpl.
  apply String.eqb_neq in Hr. rewrite Hr. by rewrite IH.
Qed.

Lemma verifyTest_loop_first (name : string)
    (assertFunc : Result -> Completion unit) (before : list Result)
    (result : Result) (after : list Result) :
  Forall (fun earlier => testName earlier <> name) before ->
  testName result = name ->
  verifyTest_loop (before ++ result :: after) name assertFunc
  = match assertFunc result with
    | Normal _ =>
        Some (Normal (before ++ set_verified true result :: after))
    | Throw err => Some (Throw err)
    end.
Proof.
  intros Hb Hr. induction before as [|earlier before IH]; simpl.
  - apply String.eqb_eq in Hr. rewrite Hr. by destruct (assertFunc result).
  - inversion Hb as [|? ? He Hrest]; subst.
    apply String.eqb_neq in He. rewrite He, IH by done.
    by destruct (assertFunc result).
Qed.

Lemma first_match_split (name : string) (rs : list Result) :
  Forall (fun result => testName result <> name) rs
  \/ exists before result after,
       rs = before ++ result :: after
       /\ Forall (fun earlier => testName earlier <> name) before
       /\ testName result = name.
Proof.
  induction rs as [|first rest IH]; [by left|].
  destruct (decide (testName first = name)) as [E|E].
  - right. by exists [], first, rest.
  - destruct IH as [IH|(before & result & after & -> & Hb & Hr)].
    + left. by constructor.
    + right. exists (first :: before), result, after.
      split; [done|]. split; [by constructor|done].
Qed.

Lemma verifyDone_loop_throws (rs : list Result) :
  forall (testNumber j : nat) (later : Result),
    rs !! j = Some later -> verified later = false ->
    exists err, verifyDone_loop testNumber rs = Throw err.
Proof.
  induction rs as [|result rest IH]; intros testNumber j later Hj Hv;
    [done|].
  simpl. destruct (verified result) eqn:E; simpl; [|by eexists].
  destruct j as [|j]; simpl in Hj.
  - congruence.
  - by eapply IH.
Qed.

Lemma verifyDone_loop_first (before : list Result) :
  forall (testNumber : nat) (result : Result) (after : list Result),
    Forall (fun earlier => verified earlier = true) before ->
    verified result = false ->
    verifyDone_loop testNumber (before ++ result :: after)
    = Throw (Error_ ("Failed to verify test #"
                     +:+ pretty (testNumber + S (length before))%nat
                     +:+ " '" +:+ testName result +:+ "'")).
Proof.
  induction before as [|earlier before IH];
    intros testNumber result after Hb Hr; simpl.
  - rewrite Hr. simpl. by replace (testNumber + 1)%nat with (S testNumber)
      by lia.
  - inversion Hb as [|? ? He Hrest]; subst. rewrite He. simpl.
    rewrite IH by done. do 4 f_equal. f_equal. lia.
Qed.

Lemma verifyDone_loop_all (rs : list Result) :
  forall testNumber : nat,
    verifyDone_loop testNumber rs = Normal tt
    <-> Forall (fun result => verified result = true) rs.
Proof.
  induction rs as [|result rest IH]; intros testNumber; simpl; [done|].
  destruct (verified result) eqn:E; simpl.
  - rewrite IH. split; [by constructor|]. by inversion 1.
  - split; [done|]. inversion 1; congruence.
Qed.

Lemma verifyTest_results_first (self : ResultCollector)
    (name : string) (assertFunc : Result -> Completion unit)
    (before : list Result) (result : Result) (after : list Result) :
  results self = before ++ result :: after ->
  Forall (fun earlier => testName earlier <> name) before ->
  testName result = name ->
  results (verifyTest self name assertFunc).1
  = match assertFunc result with
    | Normal _ => before ++ set_verified true result :: after
    | Throw _ => results self
    end.
Proof.
  intros Hrs Hb Hr. unfold verifyTest.
  rewrite Hrs at 1. rewrite verifyTest_loop_first by done.
  by destruct (assertFunc result).
Qed.

Lemma verifyTest_results_missing (self : ResultCollector) (name : string)
    (assertFunc : Result -> Completion unit) :
  Forall (fun result => testName result <> name) (results self) ->
  results (verifyTest self name assertFunc).1 = results self.
Proof.
  intros Hn. unfold verifyTest. by rewrite verifyTest_loop_missing.
Qed.

(** X16. [verifyTest] looks at the first result of the given name
    only.  If the assertion function returns for it, this result is
    marked verified and every other one, a later one of the same name
    included, is left as it is; if the assertion function throws, the
    call throws the same value and no result is marked. *)
Theorem verifyTest_checks_first_match (self : ResultCollector)
    (name : string) (assertFunc : Result -> Completion unit)
    (before : list Result) (result : Result) (after : list Result) :
  results self = before ++ result :: after ->
  Forall (fun earlier => testName earlier <> name) before ->
  testName result = name ->
  verifyTest self name assertFunc
  = match assertFunc result with
    | Normal _ =>
        (set_results (before ++ set_verified true result :: after) self,
         Normal tt)
    | Throw err => (self, Throw err)
    end.
Proof.
  intros Hrs Hb Hr. unfold verifyTest.
  rewrite Hrs, verifyTest_loop_first by done.
  by destruct (assertFunc result).
Qed.

(** X17. [verifyTest] for a name that no collected result has, so also
    when no result was collected, runs no assertion and throws the
    error [No result found for test '<name>' among <n> tests], [n]
    being the number of results; the collector is left as it is. *)
Theorem verifyTest_without_result (self : ResultCollector) (name : string)
    (assertFunc : Result -> Completion unit) :
  Forall (fun result => testName result <> name) (results self) ->
  verifyTest self name assertFunc
  = (self,
     Throw (Error_ ("No result found for test '" +:+ name +:+ "' among "
                    +:+ pretty (length (results self)) +:+ " tests"))).
Proof.
  intros Hn. unfold verifyTest. by rewrite verifyTest_loop_missing.
Qed.

(** X18. [verifyDone] returns exactly when every collected result is
    verified; with no result collected it returns. *)
Theorem verifyDone_returns_iff_all_verified (self : ResultCollector) :
  verifyDone self = Normal tt
  <-> Forall (fun result => verified result = true) (results self).
Proof. apply verifyDone_loop_all. Qed.

(** X19. [verifyDone] throws for the first unverified result, whatever
    follows it: the error names its position among the results,
    counted from 1, and its test name. *)
Theorem verifyDone_names_first_unverified (self : ResultCollector)
    (before : list Result) (result : Result) (after : list Result) :
  results self = before ++ result :: after ->
  Forall (fun earlier => verified earlier = true) before ->
  verified result = false ->
  verifyDone self
  = Throw (Error_ ("Failed to verify test #"
                   +:+ pretty (S (length before))
                   +:+ " '" +:+ testName result +:+ "'")).
Proof.
  intros Hrs Hb Hr. unfold verifyDone.
  rewrite Hrs. by rewrite (verifyDone_loop_first before 0).
Qed.

Lemma verifyTest_keeps_shadowed (self : ResultCollector) (name : string)
    (assertFunc : Result -> Completion unit) (i j : nat)
    (earlier later : Result) :
  results self !! i = Some earlier ->
  results self !! j = Some later ->
  (i < j)%nat ->
  testName earlier = testName later ->
  exists earlier',
    results (verifyTest self name assertFunc).1 !! i = Some earlier'
    /\ results (verifyTest self name assertFunc).1 !! j = Some later
    /\ testName earlier' = testName later.
Proof.
  intros Hi Hj Hij Hname.
  destruct (first_match_split name (results self))
    as [Hn|(before & result & after & Hrs & Hb & Hr)].
  { rewrite verifyTest_results_missing by done. by exists earlier. }
  rewrite (verifyTest_results_first self name assertFunc before result after)
    by done.
  destruct (assertFunc result) as [[]|err]; [|by exists earlier].
  assert (Hk : (length before <> j)%nat).
  { intros <-. rewrite Hrs, list_lookup_middle in Hj by done.
    injection Hj as <-.
    rewrite Hrs, lookup_app_l in Hi by done.
    apply (Forall_lookup_1 _ _ _ _ Hb) in Hi. congruence. }
  replace (before ++ set_verified true result :: after)
    with (<[length before := set_verified true result]> (results self)).
  2:{ rewrite Hrs, insert_app_r_alt, Nat.sub_diag by done. done. }
  assert (Hjl : <[length before := set_verified true result]> (results self)
                !! j = Some later)
    by (by rewrite list_lookup_insert_ne).
  destruct (decide (length before = i)) as [<-|Hne].
  - exists (set_verified true result). split; [|split; [done|]].
    + apply list_lookup_insert_eq. rewrite Hrs, length_app. simpl. lia.
    + rewrite Hrs, list_lookup_middle in Hi by done.
      injection Hi as <-. done.
  - exists earlier. by rewrite list_lookup_insert_ne.
Qed.

(** X20. A result that follows another result of the same test name is
    never checked: if it is unverified, it stays so through any calls
    of [verifyTest], whatever their names and assertion functions, and
    [verifyDone] throws after them. *)
Theorem repeated_test_name_fails_verifyDone (self : ResultCollector)
    (calls : list (string * (Result -> Completion unit))) (i j : nat)
    (earlier later : Result) :
  results self !! i = Some earlier ->
  results self !! j = Some later ->
  (i < j)%nat ->
  testName earlier = testName later ->
  verified later = false ->
  results (verify_calls self calls) !! j = Some later
  /\ exists err, verifyDone (verify_calls self calls) = Throw err.
Proof.
  intros Hi Hj Hij Hname Hv.
  assert (Hkept : results (verify_calls self calls) !! j = Some later).
  { clear Hv. revert self earlier Hi Hj Hname.
    induction calls as [|[name assertFunc] calls IH];
      intros self earlier Hi Hj Hname; [done|].
    simpl.
    destruct (verifyTest_keeps_shadowed self name assertFunc i j earlier
                later Hi Hj Hij Hname) as (earlier' & H1 & H2 & H3).
    by apply (IH _ earlier'). }
  split; [done|]. unfold verifyDone. by eapply verifyDone_loop_throws.
Qed.

Lemma verifyTest_unique_name (self : ResultCollector) (name : string)
    (assertFunc : Result -> Completion unit) :
  NoDup (map testName (results self)) ->
  (forall result, testName result = name -> assertFunc result = Normal tt) ->
  results (verifyTest self name assertFunc).1
  = map (fun result =>
           if String.eqb (testName result) name
           then set_verified true result else result)
      (results self).
Proof.
  intros Hnd Hpass.
  assert (Hsame : forall rs : list Result,
    Forall (fun result => testName result <> name) rs ->
    map (fun result =>
           if String.eqb (testName result) name
           then set_verified true result else result) rs = rs).
  { induction rs as [|r rs IH]; intros Hf; [done|].
    inversion Hf as [|? ? Hr Hrest]; subst. simpl.
    apply String.eqb_neq in Hr. by rewrite Hr, IH. }
  destruct (first_match_split name (results self))
    as [Hn|(before & result & after & Hrs & Hb & Hr)].
  { rewrite verifyTest_results_missing by done. by rewrite Hsame. }
  rewrite (verifyTest_results_first self name assertFunc before result after)
    by done.
  rewrite (Hpass result Hr).
  rewrite Hrs, map_app. simpl.
  rewrite Hsame by done.
  pose proof Hr as Hr'. apply String.eqb_eq in Hr'. rewrite Hr'.
  rewrite Hsame; [done|].
  rewrite Hrs, map_app in Hnd. simpl in Hnd.
  apply NoDup_app in Hnd as (_ & _ & Hnd). apply NoDup_cons in Hnd as [Hnd _].
  apply Forall_forall. intros later Hin Hlater. apply Hnd.
  rewrite Hr, <- Hlater. apply list_elem_of_fmap. by exists later.
Qed.


End TestCollector.

(** * The properties at the sample instances *)

Section MoreSamples.
#[local] Existing Instance copying_restorer.
#[local] Existing Instance sample_ipc.

(** X1 at [greeter_history], followed by the exposure of another
    instance of [Greeter] and a bind: the entry of [Greeter] holds the
    names of the first exposure, before and after. *)
Lemma mainApiMap_entries_are_first_exposures_witness :
  _mainApiMap (run_or_throw greeter_history) !! "Greeter"
  = Some ["hello"; "crash"; "echo"]
  /\ _mainApiMap
       (run_or_throw
          (greeter_history
           ++ [Expose greeter_again None; Bind window1 "WinApi"]))
       !! "Greeter"
     = Some ["hello"; "crash"; "echo"].
Proof.
  assert (Hret : exposures_return
                   (greeter_history
                    ++ [Expose greeter_again None; Bind window1 "WinApi"])
                 = true) by reflexivity.
  destruct (mainApiMap_entries_are_first_exposures greeter_history
              [Expose greeter_again None; Bind window1 "WinApi"] "Greeter"
              Hret) as [Hfirst Hkept].
  split; [exact Hfirst|]. apply Hkept. exact Hfirst.
Defined.

(** X4 at [greeter_exposed], where the logger 1 was set before the
    exposure: the error of [crash] goes to the logger 2 set since. *)
Lemma latest_logger_receives_error_witness :
  call_handler (setIpcErrorLogger greeter_exposed 2) crash_handler (Some [])
  = (set_logged (logged greeter_exposed ++ [(2%nat, Error_ "crashed")])
       (setIpcErrorLogger greeter_exposed 2),
     Throw (Error_ "crashed")).
Proof.
  assert (Hthrow : handler_try crash_handler (Some [])
                   = Throw (Error_ "crashed")) by reflexivity.
  assert (Hplain : forall errorToRelay,
             Error_ "crashed" <> VRelayedError errorToRelay)
    by (intros errorToRelay; discriminate).
  exact (latest_logger_receives_error greeter_exposed 2 crash_handler
           (Some []) (Error_ "crashed") Hthrow Hplain).
Defined.

(** X7 at [winapi_history]: the bound API 0 is the one of [WinApi] in
    [window1]. *)
Lemma bound_table_refers_to_its_window_witness :
  exists api : BoundApi,
    heap (run winapi_history) !! 0%nat = Some api
    /\ bound_class api = "WinApi"
    /\ webContents_id (bound_window api) = webContents_id window1
    /\ forall (methodName : string) (args : list value),
         methodName ∈ bound_methods api ->
         sent <$> (fst <$> call_bound_method (run winapi_history) 0
                             methodName args)
         = Some (sent (run winapi_history)
                 ++ [{| msg_to := webContents_id window1;
                        msg_channel := toIpcName "WinApi" methodName;
                        msg_payload :=
                          PArgs (map (fun arg => in_place (makeRestorable arg))
                                   args) |}]).
Proof.
  assert (Hcached : cached_boundApi (run winapi_history) window1 "WinApi"
                    = Some 0%nat) by reflexivity.
  exact (bound_table_refers_to_its_window winapi_history window1 "WinApi" 0
           Hcached).
Defined.

(** X8 at a bind at start-up: after nine runs of the event loop seven
    requests were sent, the one of the call and those of the six
    retries to the timeout. *)
Lemma unanswered_bind_requests_witness :
  sent (run_timers 9 (bindWindowApi initial_state window1 "WinApi").1)
  = sent initial_state
    ++ replicate 7 (discovery_request window1 "WinApi").
Proof.
  assert (Ht : 0 < bindingTimeoutMillis) by reflexivity.
  assert (Hr : 0 < retryMillis) by reflexivity.
  assert (Htimers : timers initial_state = []) by reflexivity.
  assert (Hreg : registered_methodNames initial_state window1 "WinApi" = None)
    by reflexivity.
  assert (Hcached : cached_boundApi initial_state window1 "WinApi" = None)
    by reflexivity.
  exact (unanswered_bind_requests initial_state window1 "WinApi" 9
           Ht Hr Htimers Hreg Hcached).
Defined.

(** X9 at [late_bind]: the registration that arrives after two retries
    is found by the third. *)
Lemma late_registration_resolves_bind_witness :
  promises late_bound !! late_bind.2 = Some (Fulfilled 0%nat)
  /\ heap late_bound
     = [{| bound_window := window1; bound_class := "WinApi";
           bound_methods := ["show"; "hide"] |}]
  /\ cached_boundApi late_bound window1 "WinApi" = Some 0%nat
  /\ timers late_bound = []
  /\ uncaught late_bound = []
  /\ sent late_bound = replicate 3 (discovery_request window1 "WinApi").
Proof.
  assert (Ht : 0 < bindingTimeoutMillis) by reflexivity.
  assert (Hr : 0 < retryMillis) by reflexivity.
  assert (Htimers : timers (run []) = []) by reflexivity.
  assert (Hreg : registered_methodNames (run []) window1 "WinApi" = None)
    by reflexivity.
  assert (Hcached : cached_boundApi (run []) window1 "WinApi" = None)
    by reflexivity.
  assert (Hn : (2 < retries_to_timeout)%nat) by (vm_compute; lia).
  exact (late_registration_resolves_bind [] window1 "WinApi" ["show"; "hide"]
           2 Ht Hr Htimers Hreg Hcached Hn).
Defined.

End MoreSamples.

Section StrictSamples.
#[local] Existing Instance strict_restorer.
#[local] Existing Instance sample_ipc.

(** X5 with [strict_restorer]: the second argument is of an unknown
    class, so [echo] is not called and the error is thrown again. *)
Lemma restoration_failure_ends_call_witness :
  call_handler initial_state strict_echo_handler
    (Some ([VString "a"] ++ VObject "Dog" [] :: [VNumber 1]))
  = (log_error initial_state (Error_ "unknown class"),
     Throw (Error_ "unknown class")).
Proof.
  assert (Hbefore : Forall
            (fun a => exists a',
               restoreValue a (h_restorer strict_echo_handler) = Normal a')
            [VString "a"]).
  { constructor; [|constructor]. exists (VString "a"). reflexivity. }
  assert (Hthrow : restoreValue (VObject "Dog" [])
                     (h_restorer strict_echo_handler)
                   = Throw (Error_ "unknown class")) by reflexivity.
  exact (restoration_failure_ends_call initial_state strict_echo_handler
           [VString "a"] [VNumber 1] (VObject "Dog" [])
           (Error_ "unknown class") Hbefore Hthrow).
Defined.

End StrictSamples.

Section ServerSamples.
Import ServerIpc.
#[local] Existing Instance sample_recovery.
#[local] Existing Instance sample_channel.
#[local] Existing Instance sample_ipc.


End ServerSamples.

Section CollectorSamples.
Import TestUtil.

(** X12 at [aborting_arrivals]: the second check finds the completion
    and an abort, and rejects with the abort error. *)
Lemma collectResults_settled_by_first_check_witness :
  collectResults new_ResultCollector aborting_arrivals
  = Some (RejectedWith (VString "boom"), 200,
          collector_at new_ResultCollector aborting_arrivals 2).
Proof.
  assert (Hk : (1 <= 2 <= 50)%nat) by lia.
  assert (Hquiet : forall i, (1 <= i < 2)%nat ->
             quiet (collector_at new_ResultCollector aborting_arrivals i)
             = true).
  { intros i Hi. assert (i = 1%nat) as -> by lia. reflexivity. }
  assert (Hsettled :
            quiet (collector_at new_ResultCollector aborting_arrivals 2)
            = false) by reflexivity.
  exact (collectResults_settled_by_first_check new_ResultCollector
           aborting_arrivals 2 Hk Hquiet Hsettled).
Defined.

(** X13 at [stalled_arrivals]: the abort with [undefined] is ignored,
    the wait times out and the test is recorded. *)
Lemma collectResults_times_out_witness :
  collectResults new_ResultCollector stalled_arrivals
  = Some (RejectedWith (Error_ "Timed out waiting for results"), 5000,
          foldl deliver new_ResultCollector
            (concat (take 50 stalled_arrivals)))
  /\ length (results (foldl deliver new_ResultCollector
                        (concat (take 50 stalled_arrivals)))) = 1%nat.
Proof.
  assert (Hquiet : quiet new_ResultCollector = true) by reflexivity.
  assert (Hreports : Forall (fun report => settling report = false)
                       (concat (take 50 stalled_arrivals))).
  { repeat constructor. }
  split; [|reflexivity].
  exact (collectResults_times_out new_ResultCollector stalled_arrivals
           Hquiet Hreports).
Defined.

(** X14 at [stalled_arrivals], with 60 runs of the timer function
    allowed. *)
Lemma collectResults_settles_within_timeout_witness :
  exists outcome settled seen,
    collectResults new_ResultCollector stalled_arrivals
    = Some (outcome, settled, seen)
    /\ waitForResult 60 0 new_ResultCollector stalled_arrivals
       = Some (outcome, settled, seen)
    /\ 100 <= settled <= 5000.
Proof.
  assert (Hchecks : (50 <= 60)%nat) by lia.
  exact (collectResults_settles_within_timeout new_ResultCollector
           stalled_arrivals 60 Hchecks).
Defined.

(** X16 at [repeated_name_collected]: verifying [b] marks the first
    result of that name, not the failed one that follows it. *)
Lemma verifyTest_checks_first_match_witness :
  verifyTest repeated_name_collected "b" no_error
  = (set_results [result_a; set_verified true result_b; result_b_failed]
       repeated_name_collected,
     Normal tt).
Proof.
  assert (Hresults : results repeated_name_collected
                     = [result_a] ++ result_b :: [result_b_failed])
    by reflexivity.
  assert (Hbefore : Forall (fun earlier => testName earlier <> "b")
                      [result_a]).
  { constructor; [discriminate|constructor]. }
  assert (Hname : testName result_b = "b") by reflexivity.
  exact (verifyTest_checks_first_match repeated_name_collected "b" no_error
           [result_a] result_b [result_b_failed] Hresults Hbefore Hname).
Defined.

(** X17 at a collector without results. *)
Lemma verifyTest_without_result_witness :
  verifyTest new_ResultCollector "a" passing
  = (new_ResultCollector,
     Throw (Error_ "No result found for test 'a' among 0 tests")).
Proof.
  assert (Hnone : Forall (fun result => testName result <> "a")
                    (results new_ResultCollector)) by constructor.
  exact (verifyTest_without_result new_ResultCollector "a" passing Hnone).
Defined.

(** X19 at [repeated_name_collected] once [a] is verified: the first
    unverified result is the second one. *)
Lemma verifyDone_names_first_unverified_witness :
  verifyDone (verifyTest repeated_name_collected "a" passing).1
  = Throw (Error_ "Failed to verify test #2 'b'").
Proof.
  assert (Hresults :
            results (verifyTest repeated_name_collected "a" passing).1
            = [set_verified true result_a] ++ result_b :: [result_b_failed])
    by reflexivity.
  assert (Hbefore : Forall (fun earlier => verified earlier = true)
                      [set_verified true result_a]).
  { constructor; [reflexivity|constructor]. }
  assert (Hunverified : verified result_b = false) by reflexivity.
  exact (verifyDone_names_first_unverified
           (verifyTest repeated_name_collected "a" passing).1
           [set_verified true result_a] result_b [result_b_failed]
           Hresults Hbefore Hunverified).
Defined.

(** X20 at [repeated_name_collected]: the failed test named [b] is
    never checked, and [verifyDone] throws. *)
Lemma repeated_test_name_fails_verifyDone_witness :
  results (verify_calls repeated_name_collected
             [("b", no_error); ("a", no_error); ("b", no_error)]) !! 2%nat
  = Some result_b_failed
  /\ exists err,
       verifyDone (verify_calls repeated_name_collected
                     [("b", no_error); ("a", no_error); ("b", no_error)])
       = Throw err.
Proof.
  assert (Hearlier : results repeated_name_collected !! 1%nat = Some result_b)
    by reflexivity.
  assert (Hlater : results repeated_name_collected !! 2%nat
                   = Some result_b_failed) by reflexivity.
  assert (Horder : (1 < 2)%nat) by lia.
  assert (Hname : testName result_b = testName result_b_failed)
    by reflexivity.
  assert (Hunverified : verified result_b_failed = false) by reflexivity.
  exact (repeated_test_name_fails_verifyDone repeated_name_collected
           [("b", no_error); ("a", no_error); ("b", no_error)] 1 2
           result_b result_b_failed Hearlier Hlater Horder Hname Hunverified).
Defined.


End CollectorSamples.
